(** * GMeetSummarizer: the alignment core of [processor.py]

    A shallow embedding of the speaker/transcript alignment pipeline
    (name validation, visual sampling, timeline denoising, interval
    segmentation, speaker resolution, transcript assembly and the
    summariser adapter), together with the properties stated about it.

    Modelling conventions.
    - A Python [str] is a list of Unicode code points ([str := list N]).
    - A Python [float] timestamp is an exact rational ([Q]); comparisons and
      [max] are exact on floats, and subtraction and division are idealised.
    - A raised exception is a value of [exn] carried by [result].
    - Tuples [(timestamp, label)] and [(start, end)] are Rocq pairs. *)

From Stdlib Require Import String Ascii.
From Stdlib Require Import List ZArith NArith QArith Qpower Qround Qminmax Lia Bool.
From Stdlib Require Import Permutation Sorted DecimalString Lqa.
Import ListNotations.

Set Implicit Arguments.

(* ================================================================== *)
(** ** Python values: exceptions and strings *)

Inductive exn : Type :=
| IndexError
| KeyError
| TypeError
| ZeroDivisionError
| JSONDecodeError
| ConnectionError
| HTTPError (status : Z)
| ValueError
| OSError
| UnicodeEncodeError.

Inductive result (A : Type) : Type :=
| Ok (a : A)
| Raise (e : exn).

Arguments Ok {A} a.
Arguments Raise {A} e.

Definition bind {A B : Type} (m : result A) (k : A -> result B) : result B :=
  match m with
  | Ok a => k a
  | Raise e => Raise e
  end.

Notation "x <- m ;; k" := (bind m (fun x => k))
  (at level 61, m at next level, right associativity).

Module PyStr.

(** A string is its sequence of code points. *)
Definition str : Type := list N.

Fixpoint eqb (s t : str) : bool :=
  match s, t with
  | [], [] => true
  | c :: s', d :: t' => N.eqb c d && eqb s' t'
  | _, _ => false
  end.

(** Decoding of a UTF-8 literal, so that examples read as in the source. *)
Definition cont (a : ascii) : N := N.land (N_of_ascii a) 63.

Fixpoint decode (s : string) : str :=
  match s with
  | EmptyString => []
  | String a s1 =>
      let b := N_of_ascii a in
      if (b <? 128)%N then b :: decode s1
      else
        match s1 with
        | String a1 s2 =>
            if (b <? 224)%N
            then (N.land b 31 * 64 + cont a1)%N :: decode s2
            else
              match s2 with
              | String a2 s3 =>
                  if (b <? 240)%N
                  then (N.land b 15 * 4096 + cont a1 * 64 + cont a2)%N
                         :: decode s3
                  else
                    match s3 with
                    | String a3 s4 =>
                        (N.land b 7 * 262144 + cont a1 * 4096
                         + cont a2 * 64 + cont a3)%N :: decode s4
                    | EmptyString => [b]
                    end
              | EmptyString => [b]
              end
        | EmptyString => [b]
        end
  end.

(** [str.isspace] on one character, which is also the class [\s] of the
    [re] module on [str] patterns. *)
Definition isspace (c : N) : bool :=
  ((9 <=? c) && (c <=? 13) || (28 <=? c) && (c <=? 32)
   || (c =? 133) || (c =? 160) || (c =? 5760)
   || (8192 <=? c) && (c <=? 8202)
   || (c =? 8232) || (c =? 8233) || (c =? 8239) || (c =? 8287)
   || (c =? 12288))%N.

Fixpoint lstrip (s : str) : str :=
  match s with
  | [] => []
  | c :: s' => if isspace c then lstrip s' else s
  end.

Definition rstrip (s : str) : str := rev (lstrip (rev s)).

(** [s.strip()] *)
Definition strip (s : str) : str := rstrip (lstrip s).

(** [s.replace(a, b)] for one-character [a] and [b]. *)
Definition replace (a b : N) (s : str) : str :=
  map (fun c => if N.eqb c a then b else c) s.

(** Truthiness of an optional string: [None] and [""] are falsy. *)
Definition truthy (o : option str) : bool :=
  match o with
  | Some (_ :: _) => true
  | _ => false
  end.

End PyStr.

Definition str : Type := PyStr.str.

(** [lit "..."] is the Python string written as that UTF-8 literal. *)
Definition lit (s : string) : str := PyStr.decode s.

(* ================================================================== *)
(** ** Data model *)

(** A [SpeakerObservation]: the tuple [(timestamp, label)]. *)
Definition observation : Type := (Q * str)%type.

Definition obs_time (o : observation) : Q := fst o.
Definition obs_label (o : observation) : str := snd o.

(** A word of the speech engine: the dict [{"word", "start", "end"}]. *)
Record timed_word : Type := Word {
  word_text : str;
  word_start : Q;
  word_end : Q
}.

(** A segment of the speech engine; only its bounds are read. *)
Record segment : Type := Segment {
  seg_start : Q;
  seg_end : Q;
  seg_words : list timed_word
}.

(** A [SpeechInterval]: the tuple [(start, end)]. *)
Definition interval : Type := (Q * Q)%type.

(* ================================================================== *)
(** ** Timeline denoiser: [filter_noisy_speakers] *)

Section Denoiser.

Variable speaker_timeline : list observation.

(** The body of the [for i, record in enumerate(speaker_timeline)] loop:
    [rest] is what is left to enumerate, [filtered] the list built so far. *)
Fixpoint filter_loop (i : nat) (rest filtered : list observation)
  : list observation :=
  match rest with
  | [] => filtered
  | record :: rest' =>
      if (i =? 0)%nat || (i =? length speaker_timeline - 1)%nat
      then filter_loop (S i) rest' (filtered ++ [record])
      else
        let current_speaker := snd record in
        let prev_speaker := snd (nth (i - 1) speaker_timeline record) in
        let next_speaker := snd (nth (i + 1) speaker_timeline record) in
        if negb (PyStr.eqb current_speaker prev_speaker)
           && negb (PyStr.eqb current_speaker next_speaker)
        then filter_loop (S i) rest' filtered
        else filter_loop (S i) rest' (filtered ++ [record])
  end.

Definition filter_noisy_speakers : list observation :=
  filter_loop 0 speaker_timeline [].

End Denoiser.

(** *** The denoiser as the claim describes it *)

(** The label at position [i] of a timeline, if there is one. *)
Definition label_at (tl : list observation) (i : nat) : option str :=
  option_map snd (nth_error tl i).

Definition same_label (a b : option str) : bool :=
  match a, b with
  | Some x, Some y => PyStr.eqb x y
  | _, _ => false
  end.

(** Position [i] is a flicker: it is interior and its label differs from
    the label just before it and from the label just after it. *)
Definition flicker (tl : list observation) (i : nat) : bool :=
  (0 <? i)%nat && (S i <? length tl)%nat
  && negb (same_label (label_at tl i) (label_at tl (i - 1)))
  && negb (same_label (label_at tl i) (label_at tl (i + 1))).

Definition enumerate {A : Type} (i : nat) (l : list A) : list (nat * A) :=
  combine (seq i (length l)) l.

Definition remove_flickers (tl : list observation) : list observation :=
  map snd (filter (fun p => negb (flicker tl (fst p))) (enumerate 0 tl)).

(** [Subseq s l]: [s] is obtained from [l] by deleting elements. *)
Inductive Subseq {A : Type} : list A -> list A -> Prop :=
| Subseq_nil : Subseq [] []
| Subseq_skip : forall x s l, Subseq s l -> Subseq s (x :: l)
| Subseq_keep : forall x s l, Subseq s l -> Subseq (x :: s) (x :: l).

Definition last_error {A : Type} (l : list A) : option A := hd_error (rev l).

(* ================================================================== *)
(** ** Regular expressions of the [re] module *)

Module Re.

(** The fragment of the pattern language that [is_valid_name] uses:
    character classes, concatenation, alternation and repetition. *)
Inductive re : Type :=
| Void
| Eps
| Class (p : N -> bool)
| Cat (r s : re)
| Alt (r s : re)
| Star (r : re).

(** [r+] *)
Definition Plus (r : re) : re := Cat r (Star r).

(** [[lo1-hi1 lo2-hi2]] *)
Definition in_range (lo hi c : N) : bool := ((lo <=? c) && (c <=? hi))%N.

(** The language of a pattern. *)
Inductive Matches : re -> str -> Prop :=
| MEps : Matches Eps []
| MClass : forall p c, p c = true -> Matches (Class p) [c]
| MCat : forall r s x y, Matches r x -> Matches s y -> Matches (Cat r s) (x ++ y)
| MAltL : forall r s x, Matches r x -> Matches (Alt r s) x
| MAltR : forall r s x, Matches s x -> Matches (Alt r s) x
| MStar0 : forall r, Matches (Star r) []
| MStarS : forall r x y, Matches r x -> Matches (Star r) y -> Matches (Star r) (x ++ y).

Fixpoint nullable (r : re) : bool :=
  match r with
  | Void => false
  | Eps => true
  | Class _ => false
  | Cat r s => nullable r && nullable s
  | Alt r s => nullable r || nullable s
  | Star _ => true
  end.

(** What is left of [r] to match once [c] has been read. *)
Fixpoint deriv (c : N) (r : re) : re :=
  match r with
  | Void => Void
  | Eps => Void
  | Class p => if p c then Eps else Void
  | Cat r s =>
      if nullable r
      then Alt (Cat (deriv c r) s) (deriv c s)
      else Cat (deriv c r) s
  | Alt r s => Alt (deriv c r) (deriv c s)
  | Star r => Cat (deriv c r) (Star r)
  end.

(** [re.fullmatch(r, s) is not None]: the whole of [s] is in the language
    of [r].  The backtracking search of [re] explores every way of
    matching, so on this fragment it succeeds exactly on the language. *)
Fixpoint fullmatch (r : re) (s : str) : bool :=
  match s with
  | [] => nullable r
  | c :: s' => fullmatch (deriv c r) s'
  end.

End Re.

(* ================================================================== *)
(** ** Name-shape validator: [is_valid_name] *)

(** [[A-ZÀ-Ý]] *)
Definition upper (c : N) : bool := Re.in_range 65 90 c || Re.in_range 192 221 c.

(** [[a-zà-ÿ]] *)
Definition lower (c : N) : bool := Re.in_range 97 122 c || Re.in_range 224 255 c.

(** [['-]] *)
Definition joiner (c : N) : bool := (c =? 39)%N || (c =? 45)%N.

(** [['-][A-ZÀ-Ý][a-zà-ÿ]+] *)
Definition joined_re : Re.re :=
  Re.Cat (Re.Class joiner) (Re.Cat (Re.Class upper) (Re.Plus (Re.Class lower))).

(** [[A-ZÀ-Ý][a-zà-ÿ]*(?:['-][A-ZÀ-Ý][a-zà-ÿ]+)*] *)
Definition token_re : Re.re :=
  Re.Cat (Re.Class upper)
    (Re.Cat (Re.Star (Re.Class lower)) (Re.Star joined_re)).

(** The pattern [^(token\s)+token$].  Under [fullmatch] the anchors hold at
    the two ends of the string and nowhere else is asked of them. *)
Definition name_re : Re.re :=
  Re.Cat (Re.Plus (Re.Cat token_re (Re.Class PyStr.isspace))) token_re.

Definition is_valid_name (name : str) : bool := Re.fullmatch name_re name.

(** *** The shape that the pattern describes *)

(** An uppercase letter followed by lowercase letters, at least [n] of them. *)
Definition capitalized (n : nat) (w : str) : Prop :=
  exists c rest, w = c :: rest /\ upper c = true
                 /\ Forall (fun d => lower d = true) rest /\ (n <= length rest)%nat.

(** A hyphen or an apostrophe, then a capitalised word of two letters or more. *)
Definition joined_part (w : str) : Prop :=
  exists j v, w = j :: v /\ joiner j = true /\ capitalized 1 v.

(** One token: a capitalised head and any number of joined parts. *)
Definition name_token (t : str) : Prop :=
  exists h parts, t = h ++ concat parts /\ capitalized 0 h /\ Forall joined_part parts.

(** A token followed by one whitespace character. *)
Definition spaced_token (w : str) : Prop :=
  exists t c, w = t ++ [c] /\ name_token t /\ PyStr.isspace c = true.

(** Two tokens or more, each separated from the next by one whitespace
    character. *)
Definition name_shape (s : str) : Prop :=
  exists front final, s = concat front ++ final /\ front <> []
                      /\ Forall spaced_token front /\ name_token final.

(** *** The shape as the specification words it *)

(** [split_on p s]: the pieces of [s] between the characters satisfying [p]. *)
Fixpoint split_on (p : N -> bool) (s : str) : list str :=
  match s with
  | [] => [[]]
  | c :: s' =>
      if p c then [] :: split_on p s'
      else match split_on p s' with
           | w :: ws => (c :: w) :: ws
           | [] => [[c]]
           end
  end.

(** Uppercase first letter, lowercase remainder of [n] letters or more. *)
Definition capitalized_word (n : nat) (w : str) : bool :=
  match w with
  | [] => false
  | c :: rest => upper c && forallb lower rest && (n <=? length rest)%nat
  end.

(** A capitalised word, optionally joined to another one. *)
Definition claimed_token (n : nat) (t : str) : bool :=
  match split_on joiner t with
  | [w] => capitalized_word n w
  | [w1; w2] => capitalized_word n w1 && capitalized_word n w2
  | _ => false
  end.

(** At least two whitespace-separated tokens of that kind.  [n] is the least
    number of lowercase letters a capitalised word must have: [0] when a
    single capital counts as a word, [1] when it does not. *)
Definition claimed_name_shape (n : nat) (s : str) : bool :=
  let tokens := filter (fun t => negb (PyStr.eqb t [])) (split_on PyStr.isspace s) in
  (2 <=? length tokens)%nat && forallb (claimed_token n) tokens.

(* ================================================================== *)
(** ** Floats *)

(** A finite [float] is the rational that it stands for.  An arithmetic
    operation on floats gives its exact result rounded to the nearest
    binary64 value, ties to the even significand: 53 significant bits, and
    a least exponent of -1074 for the values below [2 ^ -1022].  What
    happens from [2 ^ 1024] on (infinity, or [OverflowError] for
    [float(z)]) is not modelled: the sampler divides a frame index by a
    frame rate of magnitude 1 or more, since it raises when the frame
    rate truncates to 0. *)

Definition pow2 (k : Z) : Q := 2 ^ k.

(** The exponent [e] with [2 ^ e <= q < 2 ^ (e + 1)], for a positive [q]. *)
Definition ilog2 (q : Q) : Z :=
  let a := (Z.log2 (Qnum q) - Z.log2 (Zpos (Qden q)))%Z in
  if Qle_bool (pow2 a) q then a else (a - 1)%Z.

(** The nearest integer, the even one of the two when they are equally
    near. *)
Definition round_half_even (q : Q) : Z :=
  let f := Qfloor q in
  match Qcompare (q - inject_Z f) (1 # 2) with
  | Lt => f
  | Gt => (f + 1)%Z
  | Eq => if Z.even f then f else (f + 1)%Z
  end.

(** The nearest float to a positive [q]. *)
Definition round_positive (q : Q) : Q :=
  let e := Z.max (ilog2 q - 52) (-1074) in
  inject_Z (round_half_even (q / pow2 e)) * pow2 e.

Definition round_double (q : Q) : Q :=
  match Qcompare q 0 with
  | Eq => 0
  | Gt => round_positive q
  | Lt => - round_positive (- q)
  end.

(** [float(z)] *)
Definition float_of_int (z : Z) : Q := round_double (inject_Z z).

(** [a / b] and [a - b] on floats, for [b] other than zero.  An operand
    that is not the value of a float stands for the float nearest to it,
    as a literal does; rounding leaves the value of a float as it is. *)
Definition float_div (a b : Q) : Q :=
  round_double (round_double a / round_double b).

Definition float_sub (a b : Q) : Q :=
  round_double (round_double a - round_double b).

(* ================================================================== *)
(** ** Visual speaker sampler: [extract_speaker_labels] *)

Definition FRAME_INTERVAL : Q := 1.
Definition VOICE_TIMESTAMP_OFFSET : option Q := Some (5 # 2).

Inductive crop_box : Type := PRIMARY_CROP_BOX | SECONDARY_CROP_BOX.

(** A decoded frame as the OCR engine sees it: for each crop, the texts
    [ocr_result[k][-2]] of the detections, in the order they are returned. *)
Definition frame : Type := crop_box -> list str.

(** [int(q)]: truncation towards zero. *)
Definition py_int (q : Q) : Z := if Qle_bool 0 q then Qfloor q else Qceiling q.

(** [max(a, b)]: [a] unless [b] is strictly greater. *)
Definition py_max (a b : Q) : Q := if Qle_bool b a then a else b.

Definition try_ocr (fr : frame) (box : crop_box) : option str :=
  match fr box with
  | [] => None
  | t :: _ => Some (PyStr.strip t)
  end.

Section Sampler.

Variable fps : Q.
Variable video : list frame.
Variable frame_skip : Z.

(** [cap.set(CAP_PROP_POS_FRAMES, frame_idx); cap.read()] *)
Definition read (frame_idx : Z) : option frame :=
  if (frame_idx <? 0)%Z then None else nth_error video (Z.to_nat frame_idx).

(** [timestamp] of the frame at [frame_idx]. *)
Definition frame_timestamp (frame_idx : Z) : Q :=
  let timestamp := float_div (float_of_int frame_idx) fps in
  match VOICE_TIMESTAMP_OFFSET with
  | Some offset => py_max 0 (float_sub timestamp offset)
  | None => timestamp
  end.

(** One iteration on a frame that was read: the new [results] and
    [last_valid_speaker]. *)
Definition sample_step (frame_idx : Z) (fr : frame) (results : list observation)
  (last_valid_speaker : option str) : list observation * option str :=
  let timestamp := frame_timestamp frame_idx in
  let text := try_ocr fr PRIMARY_CROP_BOX in
  let text :=
    if negb (PyStr.truthy text) then try_ocr fr SECONDARY_CROP_BOX
    else text in
  let carry_forward :=
    match last_valid_speaker with
    | Some l => (results ++ [(timestamp, l)], last_valid_speaker)
    | None => (results, last_valid_speaker)
    end in
  match text with
  | Some (c :: t) =>
      let text := PyStr.replace 48 79 (c :: t) in
      if is_valid_name text
      then (results ++ [(timestamp, text)], Some text)
      else carry_forward
  | _ => carry_forward
  end.

(** The [while] loop; [None] when [fuel] iterations did not reach [break]. *)
Fixpoint sample_loop (fuel : nat) (frame_idx : Z) (results : list observation)
  (last_valid_speaker : option str) : option (list observation) :=
  match fuel with
  | O => None
  | S fuel' =>
      match read frame_idx with
      | None => Some results
      | Some fr =>
          let '(results', last') :=
            sample_step frame_idx fr results last_valid_speaker in
          sample_loop fuel' (frame_idx + frame_skip)%Z results' last'
      end
  end.

End Sampler.

(** The sampling part of [extract_speaker_labels]: the list [results] when
    the loop is left.  [video] holds the frames that can be read, so
    [total_frames] is its length; [total_frames // frame_skip] is evaluated
    before the loop and raises when [frame_skip] is [0].  The progress bar
    and the progress messages are not modelled. *)
Definition sample_frames (fps : Q) (video : list frame)
  : option (result (list observation)) :=
  let frame_skip := py_int (fps * FRAME_INTERVAL) in
  if (frame_skip =? 0)%Z then Some (Raise ZeroDivisionError)
  else option_map Ok (sample_loop fps video frame_skip (S (length video)) 0 [] None).

Definition extract_speaker_labels (fps : Q) (video : list frame)
  : option (result (list observation)) :=
  option_map (fun r => results <- r ;; Ok (filter_noisy_speakers results))
             (sample_frames fps video).

(** The frame indices that the loop reads, in ascending order: the
    multiples of [frame_skip] below the number of frames; with a negative
    [frame_skip], the first frame alone. *)
Definition read_indices (video : list frame) (frame_skip : Z) : list Z :=
  if (0 <? frame_skip)%Z then
    map (fun k => (Z.of_nat k * frame_skip)%Z)
        (seq 0 (Z.to_nat ((Z.of_nat (length video) + frame_skip - 1) / frame_skip)))
  else
    match video with
    | [] => []
    | _ :: _ => [0%Z]
    end.

(** The frame index divided by the frame rate, less the latency of 2.5
    seconds, floored at 0, each operation being the one on floats. *)
Definition shifted_time (fps : Q) (frame_idx : Z) : Q :=
  Qmax 0 (float_sub (float_div (float_of_int frame_idx) fps) (5 # 2)).

(** The observation bears the time of the frame at [frame_idx]. *)
Definition stamped (fps : Q) (o : observation) (frame_idx : Z) : Prop :=
  obs_time o == shifted_time fps frame_idx.

(** What holds of every observation that the loop appends when it steps by
    [frame_skip]: its time is the shifted time of a frame that was read,
    and it is not negative. *)
Definition emitted (fps : Q) (video : list frame) (frame_skip : Z)
  (o : observation) : Prop :=
  (exists frame_idx,
      ((0 <= frame_idx < Z.of_nat (length video))%Z
       /\ exists k : Z, (frame_idx = k * frame_skip)%Z)
      /\ obs_time o == shifted_time fps frame_idx)
  /\ 0 <= obs_time o.

(* ================================================================== *)
(** ** Speech interval segmenter: [extract_speech_intervals] *)

Definition silence_threshold : Q := 2.

(** [set(l)] on floats: elements are added in turn, an element equal to one
    already present is not added. *)
Fixpoint set_add (x : Q) (s : list Q) : list Q :=
  match s with
  | [] => [x]
  | y :: s' => if Qeq_bool y x then s else y :: set_add x s'
  end.

Definition py_set (l : list Q) : list Q := fold_left (fun s x => set_add x s) l [].

(** [sorted(l)]: ascending and stable. *)
Fixpoint insert_sorted (x : Q) (l : list Q) : list Q :=
  match l with
  | [] => [x]
  | y :: l' => if Qle_bool x y then x :: l else y :: insert_sorted x l'
  end.

Fixpoint sorted (l : list Q) : list Q :=
  match l with
  | [] => []
  | x :: l' => insert_sorted x (sorted l')
  end.

(** [[(a[i], a[i+1]) for i in range(len(a) - 1)]] *)
Fixpoint consecutive_pairs (a : list Q) : list interval :=
  match a with
  | x :: (y :: _) as a' => (x, y) :: consecutive_pairs a'
  | _ => []
  end.

(** The loop over [words]: the switch points found and [prev_end_time]. *)
Fixpoint scan_words (words : list timed_word) (prev_end_time : option Q)
  (switch_points : list (option Q)) : list (option Q) * option Q :=
  match words with
  | [] => (switch_points, prev_end_time)
  | word :: words' =>
      let switch_points :=
        match prev_end_time with
        | None => switch_points ++ [Some (word_start word)]
        | Some prev =>
            if Qle_bool silence_threshold (word_start word - prev)
            then switch_points ++ [Some (word_start word)]
            else switch_points
        end in
      scan_words words' (Some (word_end word)) switch_points
  end.

Definition extract_speech_intervals (segments : list segment)
  (words : list timed_word) : list interval :=
  let '(switch_points, prev_end_time) := scan_words words None [] in
  let switch_points := switch_points ++ [prev_end_time] in
  let segment_switch_points :=
    flat_map (fun s => [seg_start s; seg_end s]) segments in
  let all_switch_points := sorted (py_set segment_switch_points) in
  consecutive_pairs all_switch_points.

(** *** The switch points as the specification words them *)

(** Every word start whose gap from the previous word's end exceeds the
    threshold. *)
Fixpoint gap_starts (prev_end : Q) (words : list timed_word) : list Q :=
  match words with
  | [] => []
  | w :: ws =>
      (if Qle_bool (word_start w - prev_end) silence_threshold then []
       else [word_start w]) ++ gap_starts (word_end w) ws
  end.

(** The first word's start, the last word's end, and the gap starts. *)
Definition silence_points (words : list timed_word) : list Q :=
  match words with
  | [] => []
  | w :: ws => word_start w :: gap_starts (word_end w) ws
                 ++ [word_end (last ws w)]
  end.

Definition segment_points (segments : list segment) : list Q :=
  flat_map (fun s => [seg_start s; seg_end s]) segments.

(** Both sources pooled, duplicates removed, sorted ascending. *)
Definition pooled_switch_points (segments : list segment)
  (words : list timed_word) : list Q :=
  sorted (py_set (silence_points words ++ segment_points segments)).

(** [x] occurs in [l], up to equality of numbers. *)
Definition InQ (x : Q) (l : list Q) : Prop := Exists (fun y => y == x) l.

(** No two elements of [l] are equal numbers. *)
Definition DistinctQ (l : list Q) : Prop :=
  StronglySorted (fun a b => ~ a == b) l.

(** [t] lies in the closed span of [iv]. *)
Definition covers (iv : interval) (t : Q) : Prop := fst iv <= t /\ t <= snd iv.

(* ================================================================== *)
(** ** Interval speaker resolver: [assign_speakers_to_intervals] *)

(** [Counter(speakers)]: the labels in order of first occurrence, each with
    its number of occurrences. *)
Fixpoint counter_add (x : str) (c : list (str * nat)) : list (str * nat) :=
  match c with
  | [] => [(x, 1%nat)]
  | (y, n) :: c' =>
      if PyStr.eqb y x then (y, S n) :: c' else (y, n) :: counter_add x c'
  end.

Definition Counter (speakers : list str) : list (str * nat) :=
  fold_left (fun c x => counter_add x c) speakers [].

(** [max(items, key=itemgetter(1))]: the first item of greatest count. *)
Fixpoint max_count (best : str * nat) (items : list (str * nat)) : str * nat :=
  match items with
  | [] => best
  | it :: items' =>
      if (snd best <? snd it)%nat then max_count it items'
      else max_count best items'
  end.

(** [counter.most_common(1)] *)
Definition most_common_1 (c : list (str * nat)) : list (str * nat) :=
  match c with
  | [] => []
  | it :: items => [max_count it items]
  end.

Definition get_majority_speaker (speakers : list str) : option str :=
  match speakers with
  | [] => None
  | [x] => Some x
  | _ =>
      match most_common_1 (Counter speakers) with
      | it :: _ => Some (fst it)
      | [] => None
      end
  end.

(** [interval[0] <= s[0] <= interval[1]] *)
Definition in_interval (iv : interval) (s : observation) : bool :=
  Qle_bool (fst iv) (fst s) && Qle_bool (fst s) (snd iv).

(** Equality of two [(start, end)] tuples as dictionary keys. *)
Definition interval_eqb (a b : interval) : bool :=
  Qeq_bool (fst a) (fst b) && Qeq_bool (snd a) (snd b).

(** [d[k] = v] *)
Fixpoint dict_set (d : list (interval * option str)) (k : interval)
  (v : option str) : list (interval * option str) :=
  match d with
  | [] => [(k, v)]
  | (k', v') :: d' =>
      if interval_eqb k' k then (k', v) :: d' else (k', v') :: dict_set d' k v
  end.

(** [d.get(k)] *)
Fixpoint dict_get (d : list (interval * option str)) (k : interval)
  : option (option str) :=
  match d with
  | [] => None
  | (k', v') :: d' => if interval_eqb k' k then Some v' else dict_get d' k
  end.

Definition str_eq_dec : forall s t : str, {s = t} + {s <> t} :=
  list_eq_dec N.eq_dec.

Section Resolver.

(** [list(set(l))] on strings: the distinct elements of [l] in the
    iteration order of the set, which follows the hashes of the strings
    and is fixed by no rule of the program. *)
Variable set_list : list str -> list str.

Definition speakers_in (iv : interval) (speaker_timeline : list observation)
  : list str :=
  set_list (map snd (filter (in_interval iv) speaker_timeline)).

Definition assign_speakers_to_intervals (intervals : list interval)
  (speaker_timeline : list observation) : list (interval * option str) :=
  fold_left
    (fun interval_to_speaker iv =>
       dict_set interval_to_speaker iv
         (get_majority_speaker (speakers_in iv speaker_timeline)))
    intervals [].

End Resolver.

(** The speaker that the resolver gives to one interval. *)
Definition resolve_interval (set_list : list str -> list str)
  (tl : list observation) (iv : interval) : option str :=
  get_majority_speaker (speakers_in set_list iv tl).

(** What [list(set(l))] is known to be: an arrangement of the distinct
    elements of [l]. *)
Definition set_list_ok (set_list : list str -> list str) : Prop :=
  forall l, Permutation (set_list l) (nodup str_eq_dec l).

(* ================================================================== *)
(** ** Transcript assembler *)

Definition get_current_speaker (current_timestamp : Q) (intervals : list interval)
  (speaker_timeline : list observation) : result str :=
  let candidates :=
    filter (fun s => Qle_bool (fst s) current_timestamp) speaker_timeline in
  match candidates with
  | c :: cs => Ok (snd (last cs c))
  | [] =>
      match speaker_timeline with
      | s :: _ => Ok (snd s)
      | [] => Raise IndexError
      end
  end.

Definition str_of_Z (z : Z) : str := lit (NilZero.string_of_int (Z.to_int z)).

(** [%02d] *)
Definition two_digits (z : Z) : str :=
  if (0 <=? z)%Z && (z <? 10)%Z then 48%N :: str_of_Z z else str_of_Z z.

(** [str(timedelta(seconds=int(seconds)))], for a number of days within the
    range of [timedelta]. *)
Definition seconds_to_hms (seconds : Q) : str :=
  let n := py_int seconds in
  let days := (n / 86400)%Z in
  let secs := (n mod 86400)%Z in
  let mm := (secs / 60)%Z in
  let ss := (secs mod 60)%Z in
  let hh := (mm / 60)%Z in
  let mm := (mm mod 60)%Z in
  let s := str_of_Z hh ++ lit ":" ++ two_digits mm ++ lit ":" ++ two_digits ss in
  if (days =? 0)%Z then s
  else str_of_Z days ++ lit " day"
         ++ (if (Z.abs days =? 1)%Z then [] else lit "s") ++ lit ", " ++ s.

(** A [TranscriptLine]: the tuple [(timestamp, speaker, text)]. *)
Definition transcript_line : Type := (str * str * str)%type.

Definition line_text (l : transcript_line) : str := snd l.
Definition line_speaker (l : transcript_line) : str := snd (fst l).

(** The variables of the assembly loop. *)
Record assembly : Type := Assembly {
  transcript_lines : list transcript_line;
  current_speaker : option str;
  current_text : str;
  start_time : option Q
}.

(** [speaker != current_speaker], where [current_speaker] may be [None]. *)
Definition differs (speaker : str) (current : option str) : bool :=
  match current with
  | None => true
  | Some c => negb (PyStr.eqb speaker c)
  end.

(** The two places that close a line: nothing is appended while
    [current_speaker] is [None]; [int(None)] would raise. *)
Definition close_line (a : assembly) : result (list transcript_line) :=
  match current_speaker a with
  | None => Ok (transcript_lines a)
  | Some speaker =>
      match start_time a with
      | None => Raise TypeError
      | Some t =>
          Ok (transcript_lines a
                ++ [(seconds_to_hms t, speaker, PyStr.strip (current_text a))])
      end
  end.

Definition assemble_word (intervals : list interval)
  (speaker_timeline : list observation) (a : assembly) (word : timed_word)
  : result assembly :=
  speaker <- get_current_speaker (word_start word) intervals speaker_timeline ;;
  if differs speaker (current_speaker a)
  then
    lines <- close_line a ;;
    Ok (Assembly lines (Some speaker) (word_text word) (Some (word_start word)))
  else
    Ok (Assembly (transcript_lines a) (current_speaker a)
          (current_text a ++ word_text word) (start_time a)).

Fixpoint assemble_loop (intervals : list interval)
  (speaker_timeline : list observation) (words : list timed_word) (a : assembly)
  : result assembly :=
  match words with
  | [] => Ok a
  | word :: words' =>
      a' <- assemble_word intervals speaker_timeline a word ;;
      assemble_loop intervals speaker_timeline words' a'
  end.

(** Lines 220 to 244 of [transcribe_with_speakers]: the transcript lines
    built from the cleaned timeline and the result of the speech engine. *)
Definition assemble_transcript (speaker_timeline : list observation)
  (segments : list segment) (words : list timed_word)
  : result (list transcript_line) :=
  let intervals := extract_speech_intervals segments words in
  a <- assemble_loop intervals speaker_timeline words (Assembly [] None [] None) ;;
  close_line a.

(** *** The runs of words that the assembler merges *)

(** The label that a non-empty timeline gives to time [t]. *)
Definition speaker_at (tl : list observation) (t : Q) : option str :=
  match get_current_speaker t [] tl with
  | Ok l => Some l
  | Raise _ => None
  end.

(** Maximal runs of consecutive words with the same attributed speaker. *)
Fixpoint speaker_runs (tl : list observation) (words : list timed_word)
  : list (list timed_word) :=
  match words with
  | [] => []
  | w :: ws =>
      match speaker_runs tl ws with
      | (w' :: run) :: runs =>
          if same_label (speaker_at tl (word_start w)) (speaker_at tl (word_start w'))
          then (w :: w' :: run) :: runs
          else [w] :: (w' :: run) :: runs
      | runs => [w] :: runs
      end
  end.

Definition run_text (run : list timed_word) : str := concat (map word_text run).

(** The label of time [t] on a non-empty timeline. *)
Definition label_of (tl : list observation) (t : Q) : str :=
  match speaker_at tl t with Some l => l | None => [] end.

(** The line of one run: the time of its first word, the speaker of that
    word, and the text of its words, stripped. *)
Definition run_line (tl : list observation) (run : list timed_word)
  : transcript_line :=
  match run with
  | [] => ([], [], [])
  | w :: _ =>
      (seconds_to_hms (word_start w), label_of tl (word_start w),
       PyStr.strip (run_text run))
  end.

(** The lines still to come when the loop holds an open line of speaker
    [cs] with text [txt], started at [t0], and [ws] is left to read. *)
Fixpoint lines_of (tl : list observation) (cs txt : str) (t0 : Q)
  (ws : list timed_word) : list transcript_line :=
  match ws with
  | [] => [(seconds_to_hms t0, cs, PyStr.strip txt)]
  | w :: ws' =>
      if PyStr.eqb (label_of tl (word_start w)) cs
      then lines_of tl cs (txt ++ word_text w) t0 ws'
      else (seconds_to_hms t0, cs, PyStr.strip txt)
             :: lines_of tl (label_of tl (word_start w)) (word_text w)
                  (word_start w) ws'
  end.

(** The same lines read off the runs: the open line absorbs the first run
    when that run has its speaker. *)
Definition open_then_runs (tl : list observation) (cs txt : str) (t0 : Q)
  (runs : list (list timed_word)) : list transcript_line :=
  match runs with
  | (w :: run) :: runs' =>
      if PyStr.eqb (label_of tl (word_start w)) cs
      then (seconds_to_hms t0, cs, PyStr.strip (txt ++ run_text (w :: run)))
             :: map (run_line tl) runs'
      else (seconds_to_hms t0, cs, PyStr.strip txt) :: map (run_line tl) runs
  | _ => (seconds_to_hms t0, cs, PyStr.strip txt) :: map (run_line tl) runs
  end.

(* ================================================================== *)
(** ** Summariser adapter and the file artifacts *)

(** A decoded JSON document; an object holds the items of the decoded dict. *)
#[local] Unset Elimination Schemes.
Inductive json : Type :=
| JNull
| JBool (b : bool)
| JNum (q : Q)
| JStr (s : str)
| JArr (items : list json)
| JObj (members : list (str * json)).
#[local] Set Elimination Schemes.

(** [v[key]] for a string [key]. *)
Definition getitem_key (v : json) (key : str) : result json :=
  match v with
  | JObj members =>
      match find (fun m => PyStr.eqb (fst m) key) members with
      | Some m => Ok (snd m)
      | None => Raise KeyError
      end
  | _ => Raise TypeError
  end.

(** [v[0]] *)
Definition getitem_0 (v : json) : result json :=
  match v with
  | JArr (x :: _) => Ok x
  | JArr [] => Raise IndexError
  | JStr (c :: _) => Ok (JStr [c])
  | JStr [] => Raise IndexError
  | JObj _ => Raise KeyError
  | _ => Raise TypeError
  end.

Record settings : Type := Settings {
  output_dir : str;
  transcript_file_name : str;
  summarize_transcript_flag : bool;
  summary_file_name : str;
  vllm_url : str;
  vllm_model_id : str;
  system_prompt : str;
  summary_prompt_format : str
}.

(** The body of the POST and the address it is sent to. *)
Record request : Type := Request {
  req_url : str;
  req_model : str;
  req_system : str;
  req_user : str;
  req_stream : bool
}.

(** What the endpoint does with a request: no response at all, or a status
    code with a body, [None] when the body is not JSON. *)
Inductive http_outcome : Type :=
| Unreachable
| Response (status : Z) (body : option json).

(** The part of the outside that the workflow touches: the files written
    and the requests posted, oldest first. *)
Record world : Type := World {
  files : list (str * str);
  posted : list request
}.

(** The files once the file at [path] has been opened for writing and
    [content] written to it. *)
Definition write_file (path content : str) (w : world) : world :=
  World ((path, content)
           :: filter (fun f => negb (PyStr.eqb (fst f) path)) (files w))
        (posted w).

Definition read_file (path : str) (w : world) : option str :=
  option_map snd (find (fun f => PyStr.eqb (fst f) path) (files w)).

(** A text that the [utf-8] codec encodes: one without a surrogate. *)
Definition encodable (s : str) : bool :=
  forallb (fun c => negb (Re.in_range 55296 57343 c)) s.

(** [f.write(chunk)] for each chunk in turn.  A chunk that cannot be
    encoded raises at its write; the chunks written before it stay. *)
Fixpoint write_chunks (chunks : list str) (written : str) : result unit * str :=
  match chunks with
  | [] => (Ok tt, written)
  | chunk :: rest =>
      if encodable chunk then write_chunks rest (written ++ chunk)
      else (Raise UnicodeEncodeError, written)
  end.

(** [response.raise_for_status()] *)
Definition raise_for_status (status : Z) : result unit :=
  if (400 <=? status)%Z && (status <? 600)%Z then Raise (HTTPError status)
  else Ok tt.

Section Workflow.

(** The endpoint behind [requests.post]. *)
Variable endpoint : request -> http_outcome.
(** [template.format(arg)]: the text, or the [KeyError], [IndexError] or
    [ValueError] of a template that holds another field or a lone brace. *)
Variable format : str -> str -> result str.
(** The paths that [open(path, 'w')] opens: the directory is there and can
    be written to.  On the others it raises an [OSError]. *)
Variable can_open : str -> bool.
(** [os.path.expanduser] and [os.path.join]. *)
Variable expanduser : str -> str.
Variable path_join : str -> str -> str.

Definition summarize_transcript (transcript : str) (st : settings) (w : world)
  : result json * world :=
  match format (summary_prompt_format st) transcript with
  | Raise e => (Raise e, w)
  | Ok summary_prompt =>
      let payload :=
        Request (vllm_url st ++ lit "/v1/chat/completions") (vllm_model_id st)
                (system_prompt st) summary_prompt false in
      let w' := World (files w) (posted w ++ [payload]) in
      match endpoint payload with
      | Unreachable => (Raise ConnectionError, w')
      | Response status body =>
          (_ <- raise_for_status status ;;
           doc <- match body with
                  | Some doc => Ok doc
                  | None => Raise JSONDecodeError
                  end ;;
           choices <- getitem_key doc (lit "choices") ;;
           choice <- getitem_0 choices ;;
           message <- getitem_key choice (lit "message") ;;
           getitem_key message (lit "content"),
           w')
      end
  end.

(** [with open(path, 'w', encoding='utf-8') as f:] and the writes of the
    chunks.  The file is created or emptied when it is opened. *)
Definition open_and_write (path : str) (chunks : list str) (w : world)
  : result unit * world :=
  if can_open path then
    let '(r, written) := write_chunks chunks [] in
    (r, write_file path written w)
  else (Raise OSError, w).

(** One line of the transcript file. *)
Definition render_line (l : transcript_line) : str :=
  match l with
  | (timestamp, speaker, text) =>
      lit "[" ++ timestamp ++ lit "] " ++ speaker ++ lit ": " ++ text ++ [10%N]
  end.

(** [f"{speaker}: {text}"] *)
Definition summary_line (l : transcript_line) : str :=
  match l with
  | (_, speaker, text) => speaker ++ lit ": " ++ text
  end.

(** ["\n".join(l)] *)
Fixpoint join_lines (l : list str) : str :=
  match l with
  | [] => []
  | [x] => x
  | x :: l' => x ++ 10%N :: join_lines l'
  end.

(** [transcribe_with_speakers] from line 220 on, given the timeline that
    [extract_speaker_labels] returned and the segments of the speech
    engine.  Progress messages are not modelled. *)
Definition transcribe_with_speakers (speaker_timeline : list observation)
  (segments : list segment) (st : settings) (w : world) : result unit * world :=
  let words := flat_map seg_words segments in
  match assemble_transcript speaker_timeline segments words with
  | Raise e => (Raise e, w)
  | Ok lines =>
      let output_dir_path := expanduser (output_dir st) in
      let transcript_path := path_join output_dir_path (transcript_file_name st) in
      match open_and_write transcript_path (map render_line lines) w with
      | (Raise e, w1) => (Raise e, w1)
      | (Ok _, w1) =>
          if negb (summarize_transcript_flag st) then (Ok tt, w1)
          else
            let full_transcript := join_lines (map summary_line lines) in
            match summarize_transcript full_transcript st w1 with
            | (Raise e, w2) => (Raise e, w2)
            | (Ok summary, w2) =>
                let summary_path :=
                  path_join output_dir_path (summary_file_name st) in
                match summary with
                | JStr text => open_and_write summary_path [text] w2
                | _ =>
                    if can_open summary_path
                    then (Raise TypeError, write_file summary_path [] w2)
                    else (Raise OSError, w2)
                end
            end
      end
  end.

End Workflow.

(** The request that [summarize_transcript] posts for a prompt. *)
Definition payload_of (summary_prompt : str) (st : settings) : request :=
  Request (vllm_url st ++ lit "/v1/chat/completions") (vllm_model_id st)
          (system_prompt st) summary_prompt false.

(** The generated text sits at [choices[0].message.content] of [doc]. *)
Definition reply_text (doc text : json) : Prop :=
  exists members choice rest fields message,
    doc = JObj members
    /\ find (fun m => PyStr.eqb (fst m) (lit "choices")) members
       = Some (lit "choices", JArr (choice :: rest))
    /\ choice = JObj fields
    /\ find (fun m => PyStr.eqb (fst m) (lit "message")) fields
       = Some (lit "message", JObj message)
    /\ find (fun m => PyStr.eqb (fst m) (lit "content")) message
       = Some (lit "content", text).

(** A status in the 2xx range. *)
Definition success_status (status : Z) : bool :=
  (200 <=? status)%Z && (status <? 300)%Z.

Definition raises {A : Type} (r : result A) : Prop := exists e, r = Raise e.

(* ================================================================== *)
(** ** Further notions used by the properties *)

(** The count that a [Counter] holds for [x]; [0] when [x] is no key. *)
Definition counted (c : list (str * nat)) (x : str) : nat :=
  match find (fun e => PyStr.eqb (fst e) x) c with
  | Some e => snd e
  | None => 0%nat
  end.

(** Each interval ends where the next one starts. *)
Definition chained (ivs : list interval) : Prop :=
  forall i a b,
    nth_error ivs i = Some a -> nth_error ivs (S i) = Some b -> snd a = fst b.

(** Timestamps never decrease along the timeline. *)
Definition time_ordered (tl : list observation) : Prop :=
  StronglySorted (fun a b => obs_time a <= obs_time b) tl.

(** The denoiser past the first observation, by recursion on what is left:
    [prev] is the label of the raw observation just before [l]. *)
Fixpoint clean_from (prev : str) (l : list observation) : list observation :=
  match l with
  | [] => []
  | x :: r =>
      match r with
      | [] => [x]
      | y :: _ =>
          if negb (PyStr.eqb (snd x) prev) && negb (PyStr.eqb (snd x) (snd y))
          then clean_from (snd x) r
          else x :: clean_from (snd x) r
      end
  end.

(** A character of one of the two classes of the name pattern,
    [[A-ZÀ-Ý]] and [[a-zà-ÿ]]: the code points 65 to 90, 97 to 122, 192
    to 221 and 224 to 255, the signs [×] (215) and [÷] (247) among them. *)
Definition class_char (c : N) : bool := upper c || lower c.

(** No label occurs twice in a row. *)
Fixpoint alternating (l : list str) : Prop :=
  match l with
  | a :: (b :: _) as r => a <> b /\ alternating r
  | _ => True
  end.

(** The characters that a name can hold: those of the two classes, the
    hyphen and the apostrophe, and whitespace. *)
Definition name_char (c : N) : bool := class_char c || joiner c || PyStr.isspace c.

(** The two paths that the workflow writes to, and the text of the
    transcript file. *)
Definition transcript_path_of (expanduser : str -> str)
  (path_join : str -> str -> str) (st : settings) : str :=
  path_join (expanduser (output_dir st)) (transcript_file_name st).

Definition summary_path_of (expanduser : str -> str)
  (path_join : str -> str -> str) (st : settings) : str :=
  path_join (expanduser (output_dir st)) (summary_file_name st).

Definition render_transcript (lines : list transcript_line) : str :=
  concat (map render_line lines).

(** The times that [timedelta] takes: whole seconds that make at most
    999999999 days, in either direction.  [seconds_to_hms] raises an
    [OverflowError] on the others, which its model leaves out. *)
Definition in_timedelta_range (seconds : Q) : bool :=
  (-86399999913600 <=? py_int seconds)%Z && (py_int seconds <? 86400000000000)%Z.

(** Every word of the segments starts at a time that [timedelta] takes. *)
Definition stampable (segments : list segment) : Prop :=
  Forall (fun w => in_timedelta_range (word_start w) = true)
         (flat_map seg_words segments).

(** The lines of the transcript on a timeline that is not empty: one for
    each run of words with the same speaker. *)
Definition run_lines (tl : list observation) (segments : list segment)
  : list transcript_line :=
  map (run_line tl) (speaker_runs tl (flat_map seg_words segments)).

(* ================================================================== *)
(** ** Drive links: [extract_file_id_from_drive_link] of [downloader.py] *)

(** [[a-zA-Z0-9_-]] *)
Definition id_char (c : N) : bool :=
  Re.in_range 97 122 c || Re.in_range 65 90 c || Re.in_range 48 57 c
  || (c =? 95)%N || (c =? 45)%N.

(** A literal text as a pattern. *)
Fixpoint lit_re (s : str) : Re.re :=
  match s with
  | [] => Re.Eps
  | c :: s' => Re.Cat (Re.Class (N.eqb c)) (lit_re s')
  end.

(** The pattern [(?:id=|/file/d/)([a-zA-Z0-9_-]+)]. *)
Definition drive_link_re : Re.re :=
  Re.Cat (Re.Alt (lit_re (lit "id=")) (lit_re (lit "/file/d/")))
         (Re.Plus (Re.Class id_char)).

(** [s] without the literal [p] at its start, when it starts with it. *)
Fixpoint strip_prefix (p s : str) : option str :=
  match p, s with
  | [], _ => Some s
  | c :: p', d :: s' => if N.eqb c d then strip_prefix p' s' else None
  | _ :: _, [] => None
  end.

(** The longest run of characters of the class at the start of [s]: what a
    greedy [[...]+] takes. *)
Fixpoint take_while (f : N -> bool) (s : str) : str :=
  match s with
  | c :: s' => if f c then c :: take_while f s' else []
  | [] => []
  end.

(** One branch of the alternation at the start of [s], then the group. *)
Definition group_after (p s : str) : option str :=
  match strip_prefix p s with
  | Some r =>
      match take_while id_char r with
      | [] => None
      | g => Some g
      end
  | None => None
  end.

(** The pattern tried at the start of [s]: the first branch, and the second
    one when the first fails. *)
Definition match_here (s : str) : option str :=
  match group_after (lit "id=") s with
  | Some g => Some g
  | None => group_after (lit "/file/d/") s
  end.

(** [re.search]: the pattern tried at each position from the left; the
    result is [group(1)] of the first match. *)
Fixpoint re_search_group (s : str) : option str :=
  match match_here s with
  | Some g => Some g
  | None =>
      match s with
      | [] => None
      | _ :: s' => re_search_group s'
      end
  end.

Definition extract_file_id_from_drive_link (drive_link : str) : option str :=
  re_search_group drive_link.

(** [s] does not go on with a character of the class. *)
Definition stops (s : str) : Prop :=
  match s with
  | c :: _ => id_char c = false
  | [] => True
  end.

(** One of the two literals that open a match. *)
Definition link_marker (p : str) : Prop := p = lit "id=" \/ p = lit "/file/d/".

(* ================================================================== *)
(** ** Meet recordings: [list_meet_recordings] of [downloader.py] *)

(** What a step of the function raises: a built-in exception, the
    [AttributeError] of [.get] on a value that is not a dict, the
    [UnicodeDecodeError] of [.decode('utf-8')], the [HttpError] of the API
    client with its status and its content ([None] when the content is not
    UTF-8), or any other exception of the client. *)
Inductive raised : Type :=
| Builtin (e : exn)
| AttributeError
| UnicodeDecodeError
| HttpError (status : Z) (content : option str)
| ClientError.

Inductive outcome (A : Type) : Type :=
| Returns (a : A)
| Raises (r : raised).

Arguments Returns {A} a.
Arguments Raises {A} r.

Definition and_then {A B : Type} (m : outcome A) (k : A -> outcome B) : outcome B :=
  match m with
  | Returns a => k a
  | Raises r => Raises r
  end.

Notation "x <~ m ;; k" := (and_then m (fun x => k))
  (at level 61, m at next level, right associativity).

(** A [for] loop over a list, with the state threaded through the body. *)
Fixpoint for_each {A S : Type} (body : S -> A -> outcome S) (l : list A) (s : S)
  : outcome S :=
  match l with
  | [] => Returns s
  | x :: l' => s' <~ body s x ;; for_each body l' s'
  end.

Fixpoint is_prefix (p s : str) : bool :=
  match p, s with
  | [], _ => true
  | c :: p', d :: s' => (c =? d)%N && is_prefix p' s'
  | _ :: _, [] => false
  end.

Fixpoint infix (p s : str) : bool :=
  is_prefix p s
  || match s with
     | [] => false
     | _ :: s' => infix p s'
     end.

(** [v == s] for a string [s]. *)
Definition is_str (v : json) (s : str) : bool :=
  match v with
  | JStr t => PyStr.eqb t s
  | _ => false
  end.

(** [key in v] for a string [key]. *)
Definition py_in (key : str) (v : json) : outcome bool :=
  match v with
  | JObj members => Returns (existsb (fun m => PyStr.eqb (fst m) key) members)
  | JArr items => Returns (existsb (fun x => is_str x key) items)
  | JStr s => Returns (infix key s)
  | _ => Raises (Builtin TypeError)
  end.

(** [v[key]] *)
Definition py_getitem (v : json) (key : str) : outcome json :=
  match getitem_key v key with
  | Ok x => Returns x
  | Raise e => Raises (Builtin e)
  end.

(** [v.get(key)] *)
Definition py_get (v : json) (key : str) : outcome json :=
  match v with
  | JObj members =>
      match find (fun m => PyStr.eqb (fst m) key) members with
      | Some m => Returns (snd m)
      | None => Returns JNull
      end
  | _ => Raises AttributeError
  end.

(** The values that [for x in v] goes through. *)
Definition py_iter (v : json) : outcome (list json) :=
  match v with
  | JArr items => Returns items
  | JObj members => Returns (map (fun m => JStr (fst m)) members)
  | JStr s => Returns (map (fun c => JStr [c]) s)
  | _ => Raises (Builtin TypeError)
  end.

(** Truth value of a decoded JSON value. *)
Definition json_truthy (v : json) : bool :=
  match v with
  | JNull => false
  | JBool b => b
  | JNum q => negb (Qeq_bool q 0)
  | JStr s => negb (PyStr.eqb s [])
  | JArr items => match items with [] => false | _ => true end
  | JObj members => match members with [] => false | _ => true end
  end.

(** The dict appended for a recording, with its keys as fields. *)
Module Recording.
Record listed_recording : Type := Listed {
  conference_record_id : json;
  recording_id : json;
  state : json;
  start_time : json;
  file_id : json;
  export_uri : json
}.
End Recording.

Definition listed_recording : Type := Recording.listed_recording.

(** The body of the inner loop. *)
Definition recording_step (conference_record_id : json)
  (recordings : list listed_recording) (recording : json)
  : outcome (list listed_recording) :=
  recording_state <~ py_get recording (lit "state") ;;
  if is_str recording_state (lit "FILE_GENERATED") then
    drive_destination <~ py_get recording (lit "driveDestination") ;;
    if json_truthy drive_destination then
      tested <~ py_get drive_destination (lit "fileId") ;;
      if json_truthy tested then
        file_id <~ py_get drive_destination (lit "fileId") ;;
        export_uri <~ py_get drive_destination (lit "exportUri") ;;
        name <~ py_get recording (lit "name") ;;
        start <~ py_get recording (lit "startTime") ;;
        Returns (recordings
                   ++ [Recording.Listed conference_record_id name
                                        recording_state start file_id export_uri])
      else Returns recordings
    else Returns recordings
  else Returns recordings.

(** A message passed to [_send_msg]: its type and its content. *)
Definition message : Type := (str * str)%type.

Section MeetService.

(** The API client.  [build_service] is what [build('meet', 'v2', ...)]
    does; [list_conference_records] is what executing the request for the
    conference records does; [list_recordings i parent] is what executing
    the request of the [i]-th turn of the outer loop, for the recordings
    of [parent], does. *)
Variable build_service : outcome unit.
Variable list_conference_records : outcome json.
Variable list_recordings : nat -> json -> outcome json.

(** The body of the outer loop, at its [i]-th turn. *)
Definition record_step (i : nat) (recordings : list listed_recording)
  (record : json) : outcome (list listed_recording) :=
  conference_record_id <~ py_get record (lit "name") ;;
  recording_response <~ list_recordings i conference_record_id ;;
  present <~ py_in (lit "recordings") recording_response ;;
  if present then
    listed <~ py_getitem recording_response (lit "recordings") ;;
    items <~ py_iter listed ;;
    for_each (recording_step conference_record_id) items recordings
  else Returns recordings.

Fixpoint records_loop (i : nat) (records : list json)
  (recordings : list listed_recording) : outcome (list listed_recording) :=
  match records with
  | [] => Returns recordings
  | record :: rest =>
      recordings' <~ record_step i recordings record ;;
      records_loop (S i) rest recordings'
  end.

(** The [try] block. *)
Definition list_meet_recordings_try : outcome (list listed_recording) :=
  _ <~ build_service ;;
  response <~ list_conference_records ;;
  present <~ py_in (lit "conferenceRecords") response ;;
  if present then
    listed <~ py_getitem response (lit "conferenceRecords") ;;
    records <~ py_iter listed ;;
    records_loop 0 records []
  else Returns [].

Definition http_error_message (status : Z) (content : str) : str :=
  lit "[ERROR: Google Meet API] An HTTP error occurred: Status="
  ++ str_of_Z status ++ lit ", Content=" ++ content.

(** The function: the messages it sends and what it returns or raises. *)
Definition list_meet_recordings : list message * outcome (list listed_recording) :=
  let sent := [(lit "info", lit "Fetching recent Google Meet recordings...")] in
  match list_meet_recordings_try with
  | Raises (HttpError status (Some content)) =>
      (sent ++ [(lit "error", http_error_message status content)], Returns [])
  | Raises (HttpError status None) => (sent, Raises UnicodeDecodeError)
  | other => (sent, other)
  end.

End MeetService.

(** A listed record is a recording in state [FILE_GENERATED] with a file. *)
Definition has_file (e : listed_recording) : Prop :=
  Recording.state e = JStr (lit "FILE_GENERATED")
  /\ json_truthy (Recording.file_id e) = true.

(** The conference records of a response. *)
Definition records_of (response : json) (records : list json) : Prop :=
  exists listed,
    py_getitem response (lit "conferenceRecords") = Returns listed
    /\ py_iter listed = Returns records.

(** The recordings of a response. *)
Definition recordings_of (body : json) (items : list json) : Prop :=
  exists listed,
    py_getitem body (lit "recordings") = Returns listed
    /\ py_iter listed = Returns items.

(** The listed record gives the fields of [recording], under [parent]. *)
Definition describes (parent recording : json) (e : listed_recording) : Prop :=
  Recording.conference_record_id e = parent
  /\ py_get recording (lit "name") = Returns (Recording.recording_id e)
  /\ py_get recording (lit "state") = Returns (Recording.state e)
  /\ py_get recording (lit "startTime") = Returns (Recording.start_time e)
  /\ exists drive_destination,
      py_get recording (lit "driveDestination") = Returns drive_destination
      /\ py_get drive_destination (lit "fileId") = Returns (Recording.file_id e)
      /\ py_get drive_destination (lit "exportUri") = Returns (Recording.export_uri e).

(** [recording] is one of the recordings that the service gave for
    [parent], the name of the [i]-th of the conference records. *)
Definition given_by (list_recordings : nat -> json -> outcome json)
  (records : list json) (parent recording : json) : Prop :=
  exists i record body items,
    nth_error records i = Some record
    /\ py_get record (lit "name") = Returns parent
    /\ list_recordings i parent = Returns body
    /\ recordings_of body items
    /\ In recording items.

(** Where a listed record comes from: a recording given by the service. *)
Definition comes_from (list_recordings : nat -> json -> outcome json)
  (records : list json) (e : listed_recording) : Prop :=
  exists recording,
    given_by list_recordings records (Recording.conference_record_id e) recording
    /\ describes (Recording.conference_record_id e) recording e.

(** The recordings that the function is after: in state [FILE_GENERATED],
    with a drive destination and a file identifier that are truthy. *)
Definition qualifies (recording : json) : Prop :=
  py_get recording (lit "state") = Returns (JStr (lit "FILE_GENERATED"))
  /\ exists drive_destination file_id,
      py_get recording (lit "driveDestination") = Returns drive_destination
      /\ json_truthy drive_destination = true
      /\ py_get drive_destination (lit "fileId") = Returns file_id
      /\ json_truthy file_id = true.

(** A service with one conference record and three recordings, of which
    the first has a file, the second is not generated yet and the third
    has no file. *)
Definition sample_recording (name recording_state file : string) : json :=
  JObj [(lit "name", JStr (lit name));
        (lit "state", JStr (lit recording_state));
        (lit "startTime", JStr (lit "2025-01-01T10:00:00Z"));
        (lit "driveDestination",
         JObj [(lit "fileId", JStr (lit file));
               (lit "exportUri", JStr (lit "https://drive.google.com/x"))])].

Definition sample_parent : json := JStr (lit "conferenceRecords/abc").

Definition sample_records : json :=
  JObj [(lit "conferenceRecords", JArr [JObj [(lit "name", sample_parent)]])].

Definition sample_recordings : json :=
  JObj [(lit "recordings",
         JArr [sample_recording "r1" "FILE_GENERATED" "f1";
               sample_recording "r2" "STARTED" "f2";
               sample_recording "r3" "FILE_GENERATED" ""])].

Definition sample_service (i : nat) (parent : json) : outcome json :=
  Returns sample_recordings.

Definition sample_listed : listed_recording :=
  Recording.Listed sample_parent (JStr (lit "r1")) (JStr (lit "FILE_GENERATED"))
         (JStr (lit "2025-01-01T10:00:00Z")) (JStr (lit "f1"))
         (JStr (lit "https://drive.google.com/x")).

(* ================================================================== *)
(** * Properties *)

(** ** Strings *)

Module PyStrFacts.

Lemma eqb_eq (s t : str) : PyStr.eqb s t = true <-> s = t.
Proof.
  revert t; induction s as [|c s IH]; intros [|d t]; simpl;
    try (split; [discriminate | congruence]); try tauto.
  rewrite andb_true_iff, N.eqb_eq, IH.
  split; [intros [-> ->]; reflexivity | intros H; inversion H; auto].
Qed.

Lemma eqb_refl (s : str) : PyStr.eqb s s = true.
Proof. apply eqb_eq; reflexivity. Qed.

Lemma eqb_neq (s t : str) : PyStr.eqb s t = false <-> s <> t.
Proof.
  rewrite <- eqb_eq. destruct (PyStr.eqb s t); split; congruence.
Qed.

End PyStrFacts.

(** ** Subsequences and enumerations *)

Lemma Subseq_refl {A : Type} (l : list A) : Subseq l l.
Proof. induction l; constructor; assumption. Qed.

Lemma Subseq_filter_enumerate {A : Type} (p : nat * A -> bool) (l : list A) (i : nat) :
  Subseq (map snd (filter p (enumerate i l))) l.
Proof.
  revert i; induction l as [|x l IH]; intros i; unfold enumerate in *; simpl.
  - constructor.
  - destruct (p (i, x)); simpl; constructor; apply IH.
Qed.

Lemma enumerate_cons {A : Type} (i : nat) (x : A) (l : list A) :
  enumerate i (x :: l) = (i, x) :: enumerate (S i) l.
Proof. reflexivity. Qed.

Lemma enumerate_snoc {A : Type} (i : nat) (l : list A) (x : A) :
  enumerate i (l ++ [x]) = enumerate i l ++ [((i + length l)%nat, x)].
Proof.
  revert i; induction l as [|y l IH]; intros i.
  - simpl. unfold enumerate; simpl. rewrite Nat.add_0_r. reflexivity.
  - change ((y :: l) ++ [x]) with (y :: (l ++ [x])).
    rewrite !enumerate_cons, IH. simpl. repeat f_equal. lia.
Qed.

Lemma last_error_snoc {A : Type} (l : list A) (x : A) : last_error (l ++ [x]) = Some x.
Proof. unfold last_error. rewrite rev_app_distr. reflexivity. Qed.

(** ** The denoiser *)

Section DenoiserFacts.

Variable tl : list observation.

(** On a position of the timeline, the test of the loop is the negation
    of [flicker]. *)
Lemma loop_test_flicker (pre rest : list observation) (record : observation) :
  tl = pre ++ record :: rest ->
  let i := length pre in
  (if (i =? 0)%nat || (i =? length tl - 1)%nat then true
   else negb (negb (PyStr.eqb (snd record) (snd (nth (i - 1) tl record)))
              && negb (PyStr.eqb (snd record) (snd (nth (i + 1) tl record)))))
  = negb (flicker tl i).
Proof.
  intros E i. unfold flicker, label_at.
  assert (Hlen : length tl = (i + S (length rest))%nat)
    by (subst tl i; rewrite length_app; reflexivity).
  assert (Hi : nth_error tl i = Some record).
  { subst tl i. rewrite nth_error_app2 by lia. rewrite Nat.sub_diag. reflexivity. }
  rewrite Hi; simpl.
  destruct (Nat.eqb_spec i 0) as [Z0|NZ]; simpl.
  { rewrite Z0. reflexivity. }
  destruct (Nat.eqb_spec i (length tl - 1)) as [L|NL]; simpl.
  { replace (S i <? length tl)%nat with false
      by (symmetry; apply Nat.ltb_ge; lia).
    rewrite andb_false_r. reflexivity. }
  replace (0 <? i)%nat with true by (symmetry; apply Nat.ltb_lt; lia).
  replace (S i <? length tl)%nat with true by (symmetry; apply Nat.ltb_lt; lia).
  rewrite (nth_error_nth' tl record (n := i - 1)) by lia.
  rewrite (nth_error_nth' tl record (n := i + 1)) by lia.
  simpl. rewrite negb_andb. reflexivity.
Qed.

Lemma filter_loop_spec (rest pre filtered : list observation) :
  tl = pre ++ rest ->
  filter_loop tl (length pre) rest filtered
  = filtered ++ map snd (filter (fun p => negb (flicker tl (fst p)))
                           (enumerate (length pre) rest)).
Proof.
  revert pre filtered; induction rest as [|record rest IH]; intros pre filtered E.
  - simpl. rewrite app_nil_r. reflexivity.
  - pose proof (loop_test_flicker pre rest record E) as T. simpl in T.
    assert (E' : tl = (pre ++ [record]) ++ rest)
      by (rewrite <- app_assoc; exact E).
    assert (L : length (pre ++ [record]) = S (length pre))
      by (rewrite length_app; simpl; lia).
    rewrite enumerate_cons. cbn [filter_loop filter fst].
    rewrite <- T.
    destruct ((length pre =? 0)%nat || (length pre =? length tl - 1)%nat).
    + rewrite <- L, (IH _ _ E'). simpl. rewrite <- app_assoc. reflexivity.
    + destruct (negb (PyStr.eqb (snd record) (snd (nth (length pre - 1) tl record)))
                && negb (PyStr.eqb (snd record) (snd (nth (length pre + 1) tl record))));
        simpl; rewrite <- L, (IH _ _ E').
      * reflexivity.
      * simpl. rewrite <- app_assoc. reflexivity.
Qed.

End DenoiserFacts.

Lemma filter_noisy_speakers_spec (tl : list observation) :
  filter_noisy_speakers tl = remove_flickers tl.
Proof.
  unfold filter_noisy_speakers, remove_flickers.
  apply (filter_loop_spec (tl := tl) tl [] []). reflexivity.
Qed.

Lemma remove_flickers_head (tl : list observation) :
  hd_error (remove_flickers tl) = hd_error tl.
Proof.
  unfold remove_flickers. destruct tl as [|x tl]; [reflexivity|].
  rewrite enumerate_cons. cbn [filter fst]. unfold flicker at 1. simpl. reflexivity.
Qed.

Lemma last_filter_enumerate {A : Type} (p : nat * A -> bool) (l : list A)
  (x : A) (i : nat) :
  p ((i + length l)%nat, x) = true ->
  last_error (map snd (filter p (enumerate i (l ++ [x])))) = Some x.
Proof.
  intros K. rewrite enumerate_snoc, filter_app, map_app.
  cbn [filter]. rewrite K. apply last_error_snoc.
Qed.

Lemma remove_flickers_last (tl : list observation) :
  last_error (remove_flickers tl) = last_error tl.
Proof.
  unfold remove_flickers.
  destruct (rev tl) as [|x r] eqn:R.
  - apply (f_equal (@rev _)) in R. rewrite rev_involutive in R. subst tl. reflexivity.
  - apply (f_equal (@rev _)) in R. rewrite rev_involutive in R. simpl in R.
    set (keep := fun p : nat * observation => negb (flicker tl (fst p))).
    assert (K : keep ((0 + length (rev r))%nat, x) = true).
    { unfold keep, flicker. cbn [fst].
      replace (S (0 + length (rev r)) <? length tl)%nat with false.
      - rewrite andb_false_r. reflexivity.
      - symmetry. apply Nat.ltb_ge. rewrite R, length_app. simpl. lia. }
    clearbody keep. subst tl.
    rewrite (last_filter_enumerate keep (rev r) x 0 K), last_error_snoc.
    reflexivity.
Qed.

(** C4. The denoiser keeps, in one pass and in order, every observation
    but the flickers: the interior observations whose label differs from
    the label just before and from the label just after in the raw
    timeline.  The cleaned timeline starts and ends as the raw one does,
    and it is a subsequence of the raw one. *)
Theorem denoiser_removes_flickers (raw : list observation) :
  filter_noisy_speakers raw
  = map snd (filter (fun p => negb (flicker raw (fst p))) (enumerate 0 raw))
  /\ hd_error (filter_noisy_speakers raw) = hd_error raw
  /\ last_error (filter_noisy_speakers raw) = last_error raw
  /\ Subseq (filter_noisy_speakers raw) raw.
Proof.
  rewrite filter_noisy_speakers_spec. repeat split.
  - apply remove_flickers_head.
  - apply remove_flickers_last.
  - apply Subseq_filter_enumerate.
Qed.

(** ** Speaker of a word: [get_current_speaker] *)

Lemma last_cons_default {A : Type} (l : list A) (y d d' : A) :
  last (y :: l) d = last (y :: l) d'.
Proof.
  revert y; induction l as [|z l IH]; intros y; [reflexivity|].
  change (last (z :: l) d = last (z :: l) d'). apply IH.
Qed.

Lemma last_cons {A : Type} (l : list A) (y d : A) : last (y :: l) d = last l y.
Proof.
  destruct l as [|z l]; [reflexivity|].
  change (last (z :: l) d = last (z :: l) y). apply last_cons_default.
Qed.

Lemma filter_last_split {A : Type} (p : A -> bool) (l : list A) (c : A) (cs : list A) :
  filter p l = c :: cs ->
  exists pre post, l = pre ++ last cs c :: post
                   /\ p (last cs c) = true
                   /\ Forall (fun x => p x = false) post.
Proof.
  revert c cs; induction l as [|x l IH]; intros c cs F; [discriminate|].
  simpl in F. destruct (filter p l) as [|c' cs'] eqn:Fl.
  - destruct (p x) eqn:Px; [|discriminate]. inversion F; subst c cs.
    exists [], l. simpl. repeat split; trivial.
    apply Forall_forall. intros y Hy.
    destruct (p y) eqn:Py; trivial.
    assert (In y (filter p l)) by (apply filter_In; auto).
    rewrite Fl in H. contradiction.
  - destruct (IH c' cs' eq_refl) as (pre & post & E & P & Fa).
    exists (x :: pre), post.
    assert (L : last cs c = last cs' c').
    { destruct (p x); inversion F; subst; [apply last_cons | reflexivity]. }
    rewrite L. simpl. rewrite <- E. auto.
Qed.

Lemma Qle_bool_false (a b : Q) : Qle_bool a b = false <-> ~ a <= b.
Proof.
  rewrite <- Qle_bool_iff. destruct (Qle_bool a b); split; congruence.
Qed.

(** C7. On a non-empty cleaned timeline, the speaker of a word is the
    label of the latest observation whose timestamp is at most the word's
    start; when there is none, it is the label of the first observation. *)
Theorem word_speaker_most_recent (w : timed_word) (intervals : list interval)
  (tl : list observation) :
  tl <> [] ->
  (exists pre s post,
      tl = pre ++ s :: post
      /\ obs_time s <= word_start w
      /\ Forall (fun o => ~ obs_time o <= word_start w) post
      /\ get_current_speaker (word_start w) intervals tl = Ok (obs_label s))
  \/ (Forall (fun o => ~ obs_time o <= word_start w) tl
      /\ exists s rest, tl = s :: rest
         /\ get_current_speaker (word_start w) intervals tl = Ok (obs_label s)).
Proof.
  intros NE. unfold get_current_speaker, obs_time, obs_label.
  destruct (filter (fun s => Qle_bool (fst s) (word_start w)) tl) as [|c cs] eqn:F.
  - right. split.
    + apply Forall_forall. intros o Ho. apply Qle_bool_false.
      destruct (Qle_bool (fst o) (word_start w)) eqn:Le; trivial.
      assert (In o (filter (fun s => Qle_bool (fst s) (word_start w)) tl))
        by (apply filter_In; auto).
      rewrite F in H. contradiction.
    + destruct tl as [|s rest]; [contradiction|]. exists s, rest. auto.
  - left. destruct (filter_last_split _ _ F) as (pre & post & E & P & Fa).
    exists pre, (last cs c), post. repeat split; trivial.
    + apply Qle_bool_iff; exact P.
    + eapply Forall_impl; [|exact Fa]. intros o Ho. apply Qle_bool_false; exact Ho.
Qed.

Lemma word_speaker_most_recent_witness :
  let tl := [(0, lit "Alice"); (5, lit "Bob")] in
  let w := Word (lit " hello") 5 (11 # 2) in
  tl <> []
  /\ ((exists pre s post,
          tl = pre ++ s :: post
          /\ obs_time s <= word_start w
          /\ Forall (fun o => ~ obs_time o <= word_start w) post
          /\ get_current_speaker (word_start w) [] tl = Ok (obs_label s))
      \/ (Forall (fun o => ~ obs_time o <= word_start w) tl
          /\ exists s rest, tl = s :: rest
             /\ get_current_speaker (word_start w) [] tl = Ok (obs_label s))).
Proof.
  intros tl w. split; [discriminate|].
  apply (word_speaker_most_recent w [] (tl := tl)). discriminate.
Defined.

(** On a non-empty timeline every time has a speaker, whatever the
    intervals are. *)
Lemma get_current_speaker_total (t : Q) (intervals : list interval)
  (tl : list observation) :
  tl <> [] ->
  exists l, speaker_at tl t = Some l
            /\ get_current_speaker t intervals tl = Ok l.
Proof.
  intros NE. unfold speaker_at, get_current_speaker.
  destruct (filter (fun s => Qle_bool (fst s) t) tl) as [|c cs].
  - destruct tl as [|s rest]; [contradiction|]. eauto.
  - eauto.
Qed.

Lemma get_current_speaker_empty (t : Q) (intervals : list interval) :
  get_current_speaker t intervals [] = Raise IndexError.
Proof. reflexivity. Qed.

(** ** Transcript assembly *)

Section AssemblyFacts.

Variable tl : list observation.
Variable intervals : list interval.
Hypothesis tl_nonempty : tl <> [].

Lemma get_current_speaker_label_of (t : Q) :
  get_current_speaker t intervals tl = Ok (label_of tl t).
Proof.
  destruct (get_current_speaker_total t intervals tl_nonempty) as (l & S & G).
  unfold label_of. rewrite S. exact G.
Qed.

Lemma speaker_at_label_of (t : Q) : speaker_at tl t = Some (label_of tl t).
Proof.
  destruct (get_current_speaker_total t [] tl_nonempty) as (l & S & G).
  unfold label_of. rewrite S. reflexivity.
Qed.

Lemma assemble_loop_open (ws : list timed_word) (acc : list transcript_line)
  (cs txt : str) (t0 : Q) :
  (a <- assemble_loop intervals tl ws (Assembly acc (Some cs) txt (Some t0)) ;;
   close_line a)
  = Ok (acc ++ lines_of tl cs txt t0 ws).
Proof.
  revert acc cs txt t0; induction ws as [|w ws IH]; intros acc cs txt t0.
  - reflexivity.
  - cbn [assemble_loop lines_of]. unfold assemble_word.
    rewrite get_current_speaker_label_of. cbn [bind differs current_speaker].
    destruct (PyStr.eqb (label_of tl (word_start w)) cs); cbn [negb].
    + cbn [bind transcript_lines current_text start_time]. apply IH.
    + unfold close_line; cbn [bind current_speaker start_time transcript_lines
                                current_text].
      rewrite IH, <- app_assoc. reflexivity.
Qed.

Lemma speaker_runs_nonempty (ws : list timed_word) :
  Forall (fun run => run <> []) (speaker_runs tl ws).
Proof.
  induction ws as [|w ws IH]; simpl; [constructor|].
  destruct (speaker_runs tl ws) as [|[|w' run] runs].
  - repeat constructor; discriminate.
  - constructor; [discriminate | assumption].
  - destruct (same_label _ _).
    + inversion IH; subst. constructor; [discriminate | assumption].
    + constructor; [discriminate | assumption].
Qed.

Lemma speaker_runs_concat (ws : list timed_word) :
  concat (speaker_runs tl ws) = ws.
Proof.
  induction ws as [|w ws IH]; simpl; [reflexivity|].
  destruct (speaker_runs tl ws) as [|[|w' run] runs]; simpl in *.
  - rewrite <- IH. reflexivity.
  - rewrite <- IH. reflexivity.
  - destruct (same_label _ _); simpl; rewrite <- IH; reflexivity.
Qed.

Lemma run_line_cons (w : timed_word) (run : list timed_word) :
  run_line tl (w :: run)
  = (seconds_to_hms (word_start w), label_of tl (word_start w),
     PyStr.strip (run_text (w :: run))).
Proof. reflexivity. Qed.

Lemma lines_of_runs (ws : list timed_word) (cs txt : str) (t0 : Q) :
  lines_of tl cs txt t0 ws = open_then_runs tl cs txt t0 (speaker_runs tl ws).
Proof.
  revert cs txt t0; induction ws as [|w ws IH]; intros cs txt t0; [reflexivity|].
  cbn [lines_of speaker_runs]. rewrite !IH.
  pose proof (speaker_runs_nonempty ws) as NE.
  destruct (speaker_runs tl ws) as [|[|w' run] runs].
  - cbn [open_then_runs].
    destruct (PyStr.eqb (label_of tl (word_start w)) cs); cbn [map];
      rewrite ?run_line_cons; unfold run_text; simpl; rewrite ?app_nil_r;
      reflexivity.
  - inversion NE; subst. congruence.
  - rewrite !speaker_at_label_of. cbn [same_label open_then_runs].
    destruct (PyStr.eqb (label_of tl (word_start w)) cs) eqn:Ew.
    + destruct (PyStr.eqb (label_of tl (word_start w)) (label_of tl (word_start w'))) eqn:Ew'.
      * apply PyStrFacts.eqb_eq in Ew, Ew'. cbn [open_then_runs].
        rewrite <- Ew', Ew, PyStrFacts.eqb_refl.
        unfold run_text; simpl. rewrite <- app_assoc. reflexivity.
      * cbn [open_then_runs]. rewrite Ew.
        apply PyStrFacts.eqb_eq in Ew. rewrite Ew in Ew'.
        replace (PyStr.eqb (label_of tl (word_start w')) cs) with false.
        2:{ symmetry. apply PyStrFacts.eqb_neq. apply PyStrFacts.eqb_neq in Ew'.
            congruence. }
        unfold run_text at 1; simpl. rewrite app_nil_r. reflexivity.
    + destruct (PyStr.eqb (label_of tl (word_start w)) (label_of tl (word_start w'))) eqn:Ew'.
      * cbn [open_then_runs]. rewrite Ew.
        apply PyStrFacts.eqb_eq in Ew'. rewrite <- Ew', PyStrFacts.eqb_refl.
        cbn [map]. rewrite run_line_cons. reflexivity.
      * cbn [open_then_runs]. rewrite Ew.
        replace (PyStr.eqb (label_of tl (word_start w')) (label_of tl (word_start w)))
          with false.
        2:{ symmetry. apply PyStrFacts.eqb_neq. apply PyStrFacts.eqb_neq in Ew'.
            congruence. }
        cbn [map]. rewrite !run_line_cons.
        unfold run_text at 2; simpl. rewrite app_nil_r. reflexivity.
Qed.

End AssemblyFacts.

(** The assembler builds one line for each maximal run of words with the
    same speaker. *)
Lemma assemble_transcript_runs (tl : list observation) (segments : list segment)
  (words : list timed_word) :
  tl <> [] ->
  assemble_transcript tl segments words
  = Ok (map (run_line tl) (speaker_runs tl words)).
Proof.
  intros NE. unfold assemble_transcript.
  set (intervals := extract_speech_intervals segments words). clearbody intervals.
  destruct words as [|w ws]; [reflexivity|].
  cbn [assemble_loop]. unfold assemble_word.
  rewrite (@get_current_speaker_label_of tl intervals NE).
  cbn [bind differs current_speaker close_line transcript_lines].
  rewrite (@assemble_loop_open tl intervals NE), (@lines_of_runs tl NE).
  cbn [app speaker_runs].
  pose proof (speaker_runs_nonempty tl ws) as NEr.
  destruct (speaker_runs tl ws) as [|[|w' run] runs].
  - cbn [open_then_runs map]. rewrite run_line_cons.
    unfold run_text; simpl. rewrite app_nil_r. reflexivity.
  - inversion NEr; subst. congruence.
  - rewrite !(@speaker_at_label_of tl NE). cbn [same_label open_then_runs].
    destruct (PyStr.eqb (label_of tl (word_start w)) (label_of tl (word_start w'))) eqn:E.
    + apply PyStrFacts.eqb_eq in E. rewrite <- E, PyStrFacts.eqb_refl. reflexivity.
    + replace (PyStr.eqb (label_of tl (word_start w')) (label_of tl (word_start w)))
        with false.
      2:{ symmetry. apply PyStrFacts.eqb_neq. apply PyStrFacts.eqb_neq in E.
          congruence. }
      cbn [map]. rewrite !run_line_cons.
      unfold run_text; simpl. rewrite app_nil_r. reflexivity.
Qed.

(** C2, as amended.  On a non-empty cleaned timeline the assembler makes
    one line for each maximal run of consecutive words with the same
    speaker; the text of a line is the concatenation of the texts of the
    words of its run with the whitespace at its two ends stripped; and the
    runs, one after the other, are the input words in their order. *)
Theorem transcript_text_of_runs (tl : list observation) (segments : list segment)
  (words : list timed_word) :
  tl <> [] ->
  exists lines,
    assemble_transcript tl segments words = Ok lines
    /\ map line_text lines
       = map (fun run => PyStr.strip (run_text run)) (speaker_runs tl words)
    /\ concat (speaker_runs tl words) = words.
Proof.
  intros NE. exists (map (run_line tl) (speaker_runs tl words)).
  split; [apply assemble_transcript_runs; exact NE|].
  split; [|apply speaker_runs_concat].
  rewrite map_map. apply map_ext_in. intros run Hrun.
  pose proof (speaker_runs_nonempty tl words) as NEr.
  rewrite Forall_forall in NEr. specialize (NEr run Hrun).
  destruct run as [|w run]; [congruence | reflexivity].
Qed.

Lemma transcript_text_of_runs_witness :
  let tl := [(0, lit "Alice"); (5, lit "Bob")] in
  let words := [Word (lit " a") 0 (1 # 2); Word (lit " b") (3 # 5) 1;
                Word (lit " c") 5 (11 # 2)] in
  tl <> []
  /\ exists lines,
      assemble_transcript tl [] words = Ok lines
      /\ map line_text lines
         = map (fun run => PyStr.strip (run_text run)) (speaker_runs tl words)
      /\ concat (speaker_runs tl words) = words.
Proof.
  intros tl words. split; [discriminate|].
  apply (transcript_text_of_runs (tl := tl) [] words). discriminate.
Defined.

(** C2, as stated, fails: the word [" hi"] of speaker Alice gives the line
    text ["hi"], which is not the text of the word. *)
Lemma transcript_text_not_verbatim :
  let tl := [(0, lit "Alice")] in
  let words := [Word (lit " hi") 0 1] in
  tl <> []
  /\ ~ (exists lines,
           assemble_transcript tl [Segment 0 1 words] words = Ok lines
           /\ concat (map line_text lines) = concat (map word_text words)).
Proof.
  intros tl words. split; [discriminate|].
  intros (lines & A & E).
  assert (R : assemble_transcript tl [Segment 0 1 words] words
              = Ok [(lit "0:00:00", lit "Alice", lit "hi")])
    by (vm_compute; reflexivity).
  rewrite R in A. inversion A; subst lines.
  vm_compute in E. discriminate.
Qed.

(** With no observation at all, the first word already fails. *)
Lemma assemble_transcript_empty_timeline (segments : list segment)
  (w : timed_word) (ws : list timed_word) :
  assemble_transcript [] segments (w :: ws) = Raise IndexError.
Proof. reflexivity. Qed.

(** C3.  On the empty timeline and the one word [" hi"], assembly raises
    [IndexError] and the workflow ends with no file written. *)
Theorem empty_timeline_raises :
  let words := [Word (lit " hi") 0 1] in
  assemble_transcript [] [Segment 0 1 words] words = Raise IndexError
  /\ forall endpoint format can_open expanduser path_join st w,
      transcribe_with_speakers endpoint format can_open expanduser path_join
        [] [Segment 0 1 words] st w = (Raise IndexError, w).
Proof.
  intros words. split; [reflexivity|]. intros. reflexivity.
Qed.

(** ** Interval speaker resolution *)

Lemma Qeq_bool_sym (a b : Q) : Qeq_bool a b = Qeq_bool b a.
Proof.
  destruct (Qeq_bool a b) eqn:E, (Qeq_bool b a) eqn:E'; trivial.
  - apply Qeq_bool_iff in E. symmetry in E. apply Qeq_bool_iff in E. congruence.
  - apply Qeq_bool_iff in E'. symmetry in E'. apply Qeq_bool_iff in E'. congruence.
Qed.

Lemma interval_eqb_refl (k : interval) : interval_eqb k k = true.
Proof.
  unfold interval_eqb. apply andb_true_iff; split; apply Qeq_bool_iff; reflexivity.
Qed.

Lemma interval_eqb_eq (k k' : interval) :
  interval_eqb k k' = true <-> fst k == fst k' /\ snd k == snd k'.
Proof.
  unfold interval_eqb. rewrite andb_true_iff, !Qeq_bool_iff. tauto.
Qed.

Lemma interval_eqb_trans_l (k0 k k' : interval) :
  interval_eqb k0 k = true -> interval_eqb k0 k' = interval_eqb k k'.
Proof.
  intros E. apply interval_eqb_eq in E. destruct E as [E1 E2].
  destruct (interval_eqb k k') eqn:K.
  - apply interval_eqb_eq in K. destruct K as [K1 K2].
    apply interval_eqb_eq. split; [rewrite E1 | rewrite E2]; assumption.
  - destruct (interval_eqb k0 k') eqn:K0; trivial.
    apply interval_eqb_eq in K0. destruct K0 as [K1 K2].
    assert (interval_eqb k k' = true).
    { apply interval_eqb_eq. split; [rewrite <- E1 | rewrite <- E2]; assumption. }
    congruence.
Qed.

Lemma dict_get_set (d : list (interval * option str)) (k k' : interval)
  (v : option str) :
  dict_get (dict_set d k v) k'
  = if interval_eqb k k' then Some v else dict_get d k'.
Proof.
  induction d as [|[k0 v0] d IH]; simpl; [reflexivity|].
  destruct (interval_eqb k0 k) eqn:E0; simpl.
  - rewrite (@interval_eqb_trans_l k0 k k' E0).
    destruct (interval_eqb k k'); reflexivity.
  - rewrite IH. destruct (interval_eqb k0 k') eqn:E1; trivial.
    destruct (interval_eqb k k') eqn:E2; trivial.
    apply interval_eqb_eq in E1, E2.
    assert (interval_eqb k0 k = true).
    { apply interval_eqb_eq. destruct E1 as [A B], E2 as [C D].
      split; [rewrite A, C | rewrite B, D]; reflexivity. }
    congruence.
Qed.

Lemma Qle_bool_compat (a a' b b' : Q) :
  a == a' -> b == b' -> Qle_bool a b = Qle_bool a' b'.
Proof.
  intros Ea Eb.
  destruct (Qle_bool a b) eqn:L, (Qle_bool a' b') eqn:L'; trivial.
  - apply Qle_bool_iff in L. rewrite Ea, Eb in L. apply Qle_bool_iff in L. congruence.
  - apply Qle_bool_iff in L'. rewrite <- Ea, <- Eb in L'. apply Qle_bool_iff in L'.
    congruence.
Qed.

Lemma in_interval_compat (k k' : interval) (s : observation) :
  interval_eqb k k' = true -> in_interval k s = in_interval k' s.
Proof.
  intros E. apply interval_eqb_eq in E. destruct E as [E1 E2]. unfold in_interval.
  rewrite (@Qle_bool_compat _ _ _ _ E1 (Qeq_refl (fst s))).
  rewrite (@Qle_bool_compat _ _ _ _ (Qeq_refl (fst s)) E2). reflexivity.
Qed.

Lemma in_interval_iff (iv : interval) (s : observation) :
  in_interval iv s = true <-> fst iv <= obs_time s /\ obs_time s <= snd iv.
Proof.
  unfold in_interval, obs_time. rewrite andb_true_iff, !Qle_bool_iff. tauto.
Qed.

Section ResolverFacts.

Variable set_list : list str -> list str.
Variable tl : list observation.

Lemma resolve_compat (k k' : interval) :
  interval_eqb k k' = true -> resolve_interval set_list tl k = resolve_interval set_list tl k'.
Proof.
  intros E. unfold resolve_interval, speakers_in.
  rewrite (filter_ext _ _ (fun s => @in_interval_compat k k' s E)). reflexivity.
Qed.

Lemma assign_fold_get (iv : interval) (intervals : list interval)
  (d : list (interval * option str)) :
  In iv intervals \/ dict_get d iv = Some (resolve_interval set_list tl iv) ->
  dict_get
    (fold_left (fun d k => dict_set d k (resolve_interval set_list tl k)) intervals d) iv
  = Some (resolve_interval set_list tl iv).
Proof.
  revert d; induction intervals as [|k ks IH]; intros d H; simpl.
  - destruct H as [[]|H]; exact H.
  - apply IH. rewrite dict_get_set.
    destruct (interval_eqb k iv) eqn:E.
    + right. rewrite (@resolve_compat k iv E). reflexivity.
    + destruct H as [[->|H]|H]; auto.
      rewrite interval_eqb_refl in E. discriminate.
Qed.

Lemma assign_get (iv : interval) (intervals : list interval) :
  In iv intervals ->
  dict_get (assign_speakers_to_intervals set_list intervals tl) iv
  = Some (get_majority_speaker (speakers_in set_list iv tl)).
Proof.
  intros H. unfold assign_speakers_to_intervals.
  apply (@assign_fold_get iv intervals []). auto.
Qed.

Hypothesis set_list_perm : set_list_ok set_list.

Lemma speakers_in_NoDup (iv : interval) : NoDup (speakers_in set_list iv tl).
Proof.
  unfold speakers_in.
  eapply Permutation_NoDup; [symmetry; apply set_list_perm | apply NoDup_nodup].
Qed.

Lemma speakers_in_spec (iv : interval) (l : str) :
  In l (speakers_in set_list iv tl)
  <-> exists s, In s tl
                /\ (fst iv <= obs_time s /\ obs_time s <= snd iv)
                /\ obs_label s = l.
Proof.
  unfold speakers_in. split.
  - intros H. apply (Permutation_in _ (set_list_perm _)) in H.
    apply nodup_In, in_map_iff in H. destruct H as (s & E & H).
    apply filter_In in H. destruct H as [H R]. apply in_interval_iff in R.
    exists s. auto.
  - intros (s & H & R & E).
    apply (Permutation_in _ (Permutation_sym (set_list_perm _))).
    apply nodup_In, in_map_iff. exists s. split; [exact E|].
    apply filter_In. split; [exact H | apply in_interval_iff; exact R].
Qed.

End ResolverFacts.

(** C6.  For an interval of the list, the labels collected are the distinct
    labels of the observations whose timestamp lies in the closed span of
    the interval; when there is none the interval resolves to [None], and
    when there is exactly one the interval resolves to it. *)
Theorem interval_speaker_resolution (set_list : list str -> list str)
  (intervals : list interval) (tl : list observation) (iv : interval) :
  set_list_ok set_list ->
  In iv intervals ->
  let labels := speakers_in set_list iv tl in
  let resolved := dict_get (assign_speakers_to_intervals set_list intervals tl) iv in
  NoDup labels
  /\ (forall l, In l labels
                <-> exists s, In s tl
                              /\ (fst iv <= obs_time s /\ obs_time s <= snd iv)
                              /\ obs_label s = l)
  /\ (labels = [] -> resolved = Some None)
  /\ (forall l, labels = [l] -> resolved = Some (Some l)).
Proof.
  intros Hs Hi labels resolved.
  split; [apply speakers_in_NoDup; exact Hs|].
  split; [intros l; apply speakers_in_spec; exact Hs|].
  unfold resolved. rewrite (@assign_get set_list tl iv intervals Hi).
  fold labels. split; [intros -> | intros l ->]; reflexivity.
Qed.

Lemma interval_speaker_resolution_witness :
  let set_list := nodup str_eq_dec in
  let intervals := [(0, 1); (1, 9 # 2); (9 # 2, 11 # 2)] in
  let tl := [(0, lit "Alice"); (1 # 2, lit "Alice"); (5, lit "Bob")] in
  (set_list_ok set_list /\ In (1, 9 # 2) intervals /\ In (0, 1) intervals)
  /\ dict_get (assign_speakers_to_intervals set_list intervals tl) (1, 9 # 2)
     = Some None
  /\ dict_get (assign_speakers_to_intervals set_list intervals tl) (0, 1)
     = Some (Some (lit "Alice")).
Proof.
  intros set_list intervals tl.
  assert (Hs : set_list_ok set_list) by (intros l; apply Permutation_refl).
  assert (H1 : In (1, 9 # 2) intervals) by (simpl; auto).
  assert (H0 : In (0, 1) intervals) by (simpl; auto).
  split; [auto|]. split.
  - apply (@interval_speaker_resolution set_list intervals tl (1, 9 # 2) Hs H1). reflexivity.
  - apply (@interval_speaker_resolution set_list intervals tl (0, 1) Hs H0). reflexivity.
Defined.

(** ** Interval segmentation *)

Lemma In_InQ (x : Q) (l : list Q) : In x l -> InQ x l.
Proof. intros H. apply Exists_exists. exists x. split; [exact H | reflexivity]. Qed.

Lemma Forall_set_add (P : Q -> Prop) (x : Q) (s : list Q) :
  Forall P s -> P x -> Forall P (set_add x s).
Proof.
  intros Fs Px. induction s as [|y s IH]; simpl.
  - auto.
  - inversion Fs; subst. destruct (Qeq_bool y x); auto.
Qed.

Lemma InQ_set_add_new (x : Q) (s : list Q) : InQ x (set_add x s).
Proof.
  induction s as [|y s IH]; simpl.
  - left. reflexivity.
  - destruct (Qeq_bool y x) eqn:E.
    + left. apply Qeq_bool_iff; exact E.
    + right. exact IH.
Qed.

Lemma InQ_set_add_old (x z : Q) (s : list Q) : InQ z s -> InQ z (set_add x s).
Proof.
  induction s as [|y s IH]; simpl; intros H.
  - inversion H.
  - destruct (Qeq_bool y x); [exact H|].
    inversion H; subst; [left; assumption | right; apply IH; assumption].
Qed.

Lemma In_set_add (x z : Q) (s : list Q) : In z (set_add x s) -> z = x \/ In z s.
Proof.
  induction s as [|y s IH]; simpl.
  - intros [->|[]]; auto.
  - destruct (Qeq_bool y x); simpl; [auto|].
    intros [->|H]; auto. destruct (IH H); auto.
Qed.

Lemma DistinctQ_set_add (x : Q) (s : list Q) : DistinctQ s -> DistinctQ (set_add x s).
Proof.
  unfold DistinctQ. induction s as [|y s IH]; simpl; intros D.
  - repeat constructor.
  - destruct (Qeq_bool y x) eqn:E; [exact D|].
    inversion D; subst. constructor; [auto|].
    apply Forall_set_add; [assumption|].
    intros Q'. apply Qeq_bool_iff in Q'. congruence.
Qed.

Lemma py_set_fold (l s : list Q) :
  DistinctQ s ->
  let r := fold_left (fun s x => set_add x s) l s in
  DistinctQ r
  /\ (forall x, InQ x s \/ In x l -> InQ x r)
  /\ (forall x, In x r -> In x s \/ In x l).
Proof.
  revert s; induction l as [|y l IH]; intros s D; simpl.
  - repeat split; [exact D | intros x [H|[]]; exact H | auto].
  - destruct (IH (set_add y s) (DistinctQ_set_add y D)) as (D' & I & J).
    repeat split; [exact D'| |].
    + intros x [H|[->|H]]; apply I; auto using InQ_set_add_old, InQ_set_add_new.
    + intros x H. destruct (J x H) as [K|K]; auto.
      destruct (In_set_add _ _ _ K) as [->|K']; auto.
Qed.

Lemma py_set_spec (l : list Q) :
  DistinctQ (py_set l)
  /\ (forall x, In x l -> InQ x (py_set l))
  /\ (forall x, In x (py_set l) -> In x l).
Proof.
  destruct (@py_set_fold l []) as (D & I & J); [constructor|].
  repeat split; [exact D | intros x H; apply I; auto |].
  intros x H. destruct (J x H) as [[]|K]; exact K.
Qed.

Lemma Forall_insert_sorted (P : Q -> Prop) (x : Q) (l : list Q) :
  Forall P (insert_sorted x l) <-> P x /\ Forall P l.
Proof.
  induction l as [|y l IH]; simpl.
  - split; [intros H; inversion H; auto | intros [H _]; auto].
  - destruct (Qle_bool x y).
    + split; [intros H; inversion H; auto | intros [H H']; auto].
    + split.
      * intros H. inversion H; subst. apply IH in H3. destruct H3. auto.
      * intros [H H']. inversion H'; subst. constructor; [assumption|].
        apply IH; auto.
Qed.

Lemma Forall_sorted (P : Q -> Prop) (l : list Q) :
  Forall P (sorted l) <-> Forall P l.
Proof.
  induction l as [|x l IH]; simpl; [tauto|].
  rewrite Forall_insert_sorted, IH.
  split; [intros [H H']; auto | intros H; inversion H; auto].
Qed.

Lemma Exists_insert_sorted (P : Q -> Prop) (x : Q) (l : list Q) :
  Exists P (insert_sorted x l) <-> P x \/ Exists P l.
Proof.
  induction l as [|y l IH]; simpl.
  - split; [intros H; inversion H; auto | intros [H|H]; auto].
  - destruct (Qle_bool x y).
    + split; [intros H; inversion H; auto | intros [H|H]; auto].
    + split.
      * intros H. inversion H; subst; [auto|]. apply IH in H1. destruct H1; auto.
      * intros [H|H]; [right; apply IH; auto|].
        inversion H; subst; [left; assumption | right; apply IH; auto].
Qed.

Lemma Exists_sorted (P : Q -> Prop) (l : list Q) :
  Exists P (sorted l) <-> Exists P l.
Proof.
  induction l as [|x l IH]; simpl; [tauto|].
  rewrite Exists_insert_sorted, IH.
  split; [intros [H|H]; auto | intros H; inversion H; auto].
Qed.

Lemma insert_sorted_strict (x : Q) (l : list Q) :
  StronglySorted Qlt l -> Forall (fun y => ~ x == y) l ->
  StronglySorted Qlt (insert_sorted x l).
Proof.
  induction l as [|y l IH]; simpl; intros S D.
  - repeat constructor.
  - inversion S; subst. inversion D; subst.
    destruct (Qle_bool x y) eqn:L.
    + apply Qle_bool_iff in L.
      assert (x < y) by (apply Qle_lteq in L; tauto).
      constructor; [exact S|]. constructor; [assumption|].
      eapply Forall_impl; [|exact H2]. intros z Hz. simpl in Hz. lra.
    + apply Qle_bool_false in L. constructor; [auto|].
      apply Forall_insert_sorted. split; [lra | assumption].
Qed.

Lemma sorted_strict (l : list Q) : DistinctQ l -> StronglySorted Qlt (sorted l).
Proof.
  unfold DistinctQ. induction l as [|x l IH]; simpl; intros D.
  - constructor.
  - inversion D; subst. apply insert_sorted_strict; [auto|].
    apply Forall_sorted. assumption.
Qed.

(** The switch points of the segmenter are strictly ascending. *)
Lemma switch_points_strict (pts : list Q) : StronglySorted Qlt (sorted (py_set pts)).
Proof. apply sorted_strict, py_set_spec. Qed.

Lemma switch_points_InQ (pts : list Q) (x : Q) :
  In x pts -> InQ x (sorted (py_set pts)).
Proof. intros H. apply Exists_sorted. apply py_set_spec; exact H. Qed.

Lemma consecutive_pairs_In (l : list Q) (p q : Q) :
  In (p, q) (consecutive_pairs l) -> In p l /\ In q l.
Proof.
  induction l as [|x [|y l] IH]; simpl; try tauto.
  intros [E|H]; [inversion E; subst; auto|].
  destruct (IH H) as [A B]. simpl in *. tauto.
Qed.

(** Consecutive pairs of a strictly ascending list: each pair has a
    positive length, starts after the start of every earlier pair and not
    before the end of it. *)
Lemma consecutive_pairs_ordered (l : list Q) :
  StronglySorted Qlt l ->
  Forall (fun iv => fst iv < snd iv) (consecutive_pairs l)
  /\ StronglySorted (fun a b => fst a < fst b /\ snd a <= fst b)
       (consecutive_pairs l).
Proof.
  induction l as [|x [|y l] IH]; intros S.
  - split; constructor.
  - split; constructor.
  - change (consecutive_pairs (x :: y :: l))
      with ((x, y) :: consecutive_pairs (y :: l)).
    inversion S; subst. inversion H2; subst.
    destruct (IH H1) as [P O]. split.
    + constructor; [exact H3 | exact P].
    + constructor; [exact O|].
      apply Forall_forall. intros [p q] Hpq. cbn [fst snd].
      apply consecutive_pairs_In in Hpq. destruct Hpq as [Hp _].
      inversion H1; subst.
      destruct Hp as [<-|Hp]; [lra|].
      rewrite Forall_forall in H6. specialize (H6 p Hp). lra.
Qed.

(** The pairs leave no hole between the first point and any later point. *)
Lemma consecutive_pairs_cover (l : list Q) (x b t : Q) :
  StronglySorted Qlt (x :: l) -> InQ b (x :: l) ->
  x <= t -> t <= b -> x < b ->
  exists iv, In iv (consecutive_pairs (x :: l)) /\ covers iv t.
Proof.
  revert x; induction l as [|y l IH]; intros x S Hb Lo Hi Lt.
  - inversion Hb; subst; [lra|]. inversion H0.
  - destruct (Qlt_le_dec y t) as [Gt|Le].
    + inversion S; subst.
      destruct (IH y H1) as (iv & Hiv & C); try lra.
      * inversion Hb; subst; [lra | assumption].
      * exists iv. split; [right; exact Hiv | exact C].
    + exists (x, y). split; [left; reflexivity | split; simpl; assumption].
Qed.

Lemma strict_head_least (x a : Q) (l : list Q) :
  StronglySorted Qlt (x :: l) -> InQ a (x :: l) -> x <= a.
Proof.
  intros S H. inversion S; subst. inversion H; subst; [lra|].
  apply Exists_exists in H1. destruct H1 as (z & Hz & E).
  rewrite Forall_forall in H3. specialize (H3 z Hz). lra.
Qed.

Lemma extract_speech_intervals_points (segments : list segment)
  (words : list timed_word) :
  extract_speech_intervals segments words
  = consecutive_pairs (sorted (py_set (segment_points segments))).
Proof.
  unfold extract_speech_intervals.
  destruct (scan_words words None []). reflexivity.
Qed.

(** The words have no part in the intervals. *)
Lemma extract_speech_intervals_ignores_words (segments : list segment)
  (words words' : list timed_word) :
  extract_speech_intervals segments words
  = extract_speech_intervals segments words'.
Proof. rewrite !extract_speech_intervals_points. reflexivity. Qed.

Lemma StronglySorted_impl {A : Type} (R R' : A -> A -> Prop) (l : list A) :
  (forall a b, R a b -> R' a b) -> StronglySorted R l -> StronglySorted R' l.
Proof.
  intros I S. induction S; constructor; [assumption|].
  eapply Forall_impl; [|eassumption]. intros; apply I; assumption.
Qed.

(** What the intervals are by construction: sorted ascending by start,
    no two of them overlapping, each of positive length; and they cover
    what lies between the start of a segment and the later end of a
    segment. *)
Lemma intervals_sorted_disjoint_covering (segments : list segment)
  (words : list timed_word) :
  let ivs := extract_speech_intervals segments words in
  StronglySorted (fun a b => fst a < fst b) ivs
  /\ StronglySorted (fun a b => snd a <= fst b) ivs
  /\ Forall (fun iv => fst iv < snd iv) ivs
  /\ forall w s1 s2,
      In w words -> In s1 segments -> In s2 segments ->
      seg_start s1 <= word_start w -> word_start w <= seg_end s2 ->
      seg_start s1 < seg_end s2 ->
      exists iv, In iv ivs /\ covers iv (word_start w).
Proof.
  intros ivs. unfold ivs. rewrite extract_speech_intervals_points.
  set (pts := segment_points segments).
  pose proof (switch_points_strict pts) as S.
  destruct (consecutive_pairs_ordered S) as [P O].
  split; [eapply StronglySorted_impl; [|exact O]; simpl; tauto|].
  split; [eapply StronglySorted_impl; [|exact O]; simpl; tauto|].
  split; [exact P|].
  intros w s1 s2 _ H1 H2 Lo Hi Lt.
  assert (A : InQ (seg_start s1) (sorted (py_set pts))).
  { apply switch_points_InQ. unfold pts, segment_points.
    apply in_flat_map. exists s1. simpl. auto. }
  assert (B : InQ (seg_end s2) (sorted (py_set pts))).
  { apply switch_points_InQ. unfold pts, segment_points.
    apply in_flat_map. exists s2. simpl. auto. }
  destruct (sorted (py_set pts)) as [|x l]; [inversion A|].
  pose proof (strict_head_least S A) as Hx.
  apply (@consecutive_pairs_cover l x (seg_end s2) (word_start w) S B); lra.
Qed.

Lemma intervals_sorted_disjoint_covering_witness :
  let a := Word (lit " a") 0 (1 # 2) in
  let b := Word (lit " b") (3 # 5) 1 in
  let c := Word (lit " c") 5 (11 # 2) in
  let s1 := Segment 0 1 [a; b] in
  let s2 := Segment 5 (11 # 2) [c] in
  (In c [a; b; c] /\ In s1 [s1; s2] /\ In s2 [s1; s2]
   /\ seg_start s1 <= word_start c /\ word_start c <= seg_end s2
   /\ seg_start s1 < seg_end s2)
  /\ exists iv, In iv (extract_speech_intervals [s1; s2] [a; b; c])
                /\ covers iv (word_start c).
Proof.
  intros a b c s1 s2.
  assert (Hc : In c [a; b; c]) by (simpl; auto).
  assert (H1 : In s1 [s1; s2]) by (simpl; auto).
  assert (H2 : In s2 [s1; s2]) by (simpl; auto).
  assert (Lo : seg_start s1 <= word_start c) by (simpl; lra).
  assert (Hi : word_start c <= seg_end s2) by (simpl; lra).
  assert (Lt : seg_start s1 < seg_end s2) by (simpl; lra).
  split; [tauto|].
  apply (intervals_sorted_disjoint_covering [s1; s2] [a; b; c]) with (s1 := s1) (s2 := s2);
    assumption.
Defined.

(** A lone segment of no length yields one switch point and so no
    interval, and the start of its word is in no span; the same holds of
    the pooled switch points. *)
Lemma lone_instant_uncovered :
  let words := [Word (lit " a") 1 1] in
  let segments := [Segment 1 1 words] in
  ~ (forall w, In w words ->
               exists iv, In iv (extract_speech_intervals segments words)
                          /\ covers iv (word_start w)).
Proof.
  intros words segments H.
  destruct (H (Word (lit " a") 1 1)) as (iv & Hin & _); [left; reflexivity|].
  vm_compute in Hin. exact Hin.
Qed.

(** C5.  The intervals are sorted ascending by start and no two of them
    overlap, on every input.  They do not cover every word: one segment
    from 1 to 2 comes with a word from 0.5 to 2; the scan of the words
    finds the switch point 0.5, and the pairs of the pooled list
    0.5, 1, 2 cover the word; the intervals are built from the segment
    bounds alone, there is the one interval from 1 to 2, and the word is
    in no interval. *)
Theorem intervals_miss_word_outside_segments :
  (forall segments words,
      let ivs := extract_speech_intervals segments words in
      StronglySorted (fun a b => fst a < fst b) ivs
      /\ StronglySorted (fun a b => snd a <= fst b) ivs)
  /\ let w := Word (lit " hi") (1 # 2) 2 in
     let words := [w] in
     let segments := [Segment 1 2 words] in
     fst (scan_words words None []) = [Some (1 # 2)]
     /\ consecutive_pairs (pooled_switch_points segments words)
        = [(1 # 2, 1); (1, 2)]
     /\ covers (1 # 2, 1) (word_start w)
     /\ extract_speech_intervals segments words = [(1, 2)]
     /\ ~ (exists iv, In iv (extract_speech_intervals segments words)
                      /\ covers iv (word_start w)).
Proof.
  split.
  - intros segments words.
    destruct (intervals_sorted_disjoint_covering segments words) as (A & B & _).
    split; assumption.
  - intros w words segments.
    split; [vm_compute; reflexivity|]. split; [vm_compute; reflexivity|].
    split; [unfold covers; simpl; lra|]. split; [vm_compute; reflexivity|].
    intros (iv & Hin & C).
    assert (E : extract_speech_intervals segments words = [(1, 2)])
      by (vm_compute; reflexivity).
    rewrite E in Hin. destruct Hin as [<-|[]].
    unfold covers in C. simpl in C. lra.
Qed.

(** C1.  One segment from 0 to 10 holds the words [a] (0 to 0.5) and [b]
    (5 to 10).  The scan of the words finds the switch point 5, and the
    pooled list is 0, 5, 10; the intervals are built from the segment
    bounds alone and there is one of them, not two. *)
Theorem word_switch_points_dropped :
  let words := [Word (lit " a") 0 (1 # 2); Word (lit " b") 5 10] in
  let segments := [Segment 0 10 words] in
  fst (scan_words words None []) = [Some 0; Some 5]
  /\ pooled_switch_points segments words = [0; 5; 10]
  /\ consecutive_pairs (pooled_switch_points segments words) = [(0, 5); (5, 10)]
  /\ extract_speech_intervals segments words = [(0, 10)].
Proof.
  intros words segments. repeat split; vm_compute; reflexivity.
Qed.

(** ** Regular expressions: the matcher decides the language *)

Module ReFacts.
Import Re.

Lemma app_nil_both {A : Type} (x y : list A) : x ++ y = [] -> x = [] /\ y = [].
Proof. destruct x; simpl; [auto | discriminate]. Qed.

Lemma nullable_spec (r : re) : nullable r = true <-> Matches r [].
Proof.
split.
- induction r; simpl; intros H; try discriminate.
  + constructor.
  + apply andb_true_iff in H. destruct H.
    change (@nil N) with (@nil N ++ []). constructor; auto.
  + apply orb_true_iff in H. destruct H; [apply MAltL | apply MAltR]; auto.
  + constructor.
- intros H. remember (@nil N) as s eqn:E.
  induction H; simpl; trivial; try discriminate.
  + apply app_nil_both in E. destruct E.
    rewrite IHMatches1, IHMatches2; auto.
  + rewrite IHMatches; auto.
  + rewrite IHMatches; auto using orb_true_r.
Qed.

Lemma deriv_sound (r : re) (c : N) (s : str) :
Matches (deriv c r) s -> Matches r (c :: s).
Proof.
revert s; induction r; simpl; intros s H.
- inversion H.
- inversion H.
- destruct (p c) eqn:P; inversion H; subst. constructor; exact P.
- destruct (nullable r1) eqn:Nu.
  + inversion H; subst.
    * inversion H3; subst.
      change (c :: x ++ y) with ((c :: x) ++ y). constructor; auto.
    * change (c :: s) with ([] ++ c :: s). constructor; auto.
      apply nullable_spec; exact Nu.
  + inversion H; subst.
    change (c :: x ++ y) with ((c :: x) ++ y). constructor; auto.
- inversion H; subst; [apply MAltL | apply MAltR]; auto.
- inversion H; subst.
  change (c :: x ++ y) with ((c :: x) ++ y). constructor; auto.
Qed.

Lemma deriv_complete (r : re) (c : N) (s : str) :
Matches r (c :: s) -> Matches (deriv c r) s.
Proof.
intros H. remember (c :: s) as cs eqn:E. revert c s E.
induction H; intros c0 s0 E; simpl; try discriminate.
- inversion E; subst. rewrite H. constructor.
- destruct x as [|d x]; simpl in E.
  + subst y. pose proof (proj2 (nullable_spec r) H) as Nu. rewrite Nu.
    apply MAltR. apply IHMatches2. reflexivity.
  + inversion E; subst.
    pose proof (IHMatches1 c0 x eq_refl) as D.
    destruct (nullable r); [apply MAltL|]; constructor; auto.
- apply MAltL. auto.
- apply MAltR. auto.
- destruct x as [|d x]; simpl in E.
  + apply IHMatches2. exact E.
  + inversion E; subst. constructor; auto.
Qed.

Theorem fullmatch_spec (r : re) (s : str) : fullmatch r s = true <-> Matches r s.
Proof.
revert r; induction s as [|c s IH]; intros r; simpl.
- apply nullable_spec.
- rewrite IH. split; [apply deriv_sound | apply deriv_complete].
Qed.

(** *** Languages of the constructions *)

Lemma class_inv (p : N -> bool) (s : str) :
Matches (Class p) s <-> exists c, s = [c] /\ p c = true.
Proof.
split.
- intros H. inversion H; subst. eauto.
- intros (c & -> & P). constructor; exact P.
Qed.

Lemma cat_inv (r1 r2 : re) (s : str) :
Matches (Cat r1 r2) s <-> exists x y, s = x ++ y /\ Matches r1 x /\ Matches r2 y.
Proof.
split.
- intros H. inversion H; subst. eauto.
- intros (x & y & -> & H1 & H2). constructor; auto.
Qed.

Lemma star_inv (r : re) (s : str) :
Matches (Star r) s <-> exists parts, s = concat parts /\ Forall (Matches r) parts.
Proof.
split.
- intros H. remember (Star r) as sr eqn:E.
  induction H; try discriminate; inversion E; subst.
  + exists []. auto.
  + destruct (IHMatches2 eq_refl) as (parts & -> & F).
    exists (x :: parts). auto.
- intros (parts & -> & F). induction F; simpl; constructor; auto.
Qed.

Lemma plus_inv (r : re) (s : str) :
Matches (Plus r) s
<-> exists parts, s = concat parts /\ parts <> [] /\ Forall (Matches r) parts.
Proof.
unfold Plus. rewrite cat_inv. split.
- intros (x & y & -> & Hx & Hy). apply star_inv in Hy.
  destruct Hy as (parts & -> & F).
  exists (x :: parts). repeat split; [discriminate | auto].
- intros (parts & -> & NE & F). destruct parts as [|x parts]; [congruence|].
  inversion F; subst. exists x, (concat parts).
  repeat split; [assumption|]. apply star_inv. eauto.
Qed.

Lemma star_class_inv (p : N -> bool) (s : str) :
Matches (Star (Class p)) s <-> Forall (fun c => p c = true) s.
Proof.
rewrite star_inv. split.
- intros (parts & -> & F). induction F; simpl; [constructor|].
  apply class_inv in H. destruct H as (c & -> & P). simpl. auto.
- intros F. exists (map (fun c => [c]) s). split.
  + induction s; simpl; [reflexivity|]. inversion F; subst. f_equal; auto.
  + induction F; simpl; constructor; auto. constructor; assumption.
Qed.

End ReFacts.

(** ** The name pattern *)

Lemma joined_re_spec (w : str) : Re.Matches joined_re w <-> joined_part w.
Proof.
  unfold joined_re, joined_part, capitalized, Re.Plus.
  rewrite ReFacts.cat_inv. split.
  - intros (x & y & -> & Hx & Hy).
    apply ReFacts.class_inv in Hx. destruct Hx as (j & -> & J).
    apply ReFacts.cat_inv in Hy. destruct Hy as (x & z & -> & Hx & Hz).
    apply ReFacts.class_inv in Hx. destruct Hx as (c & -> & U).
    apply ReFacts.cat_inv in Hz. destruct Hz as (x & z' & -> & Hx & Hz).
    apply ReFacts.class_inv in Hx. destruct Hx as (d & -> & L).
    apply ReFacts.star_class_inv in Hz.
    exists j, (c :: d :: z'). repeat split; trivial.
    exists c, (d :: z'). repeat split; trivial; [constructor; assumption|].
    simpl; lia.
  - intros (j & v & -> & J & c & rest & -> & U & F & Len).
    destruct rest as [|d rest]; [simpl in Len; lia|]. inversion F; subst.
    exists [j], (c :: d :: rest). repeat split; [constructor; exact J|].
    apply ReFacts.cat_inv. exists [c], (d :: rest).
    repeat split; [constructor; exact U|].
    apply ReFacts.cat_inv. exists [d], rest.
    repeat split; [constructor; assumption|].
    apply ReFacts.star_class_inv; assumption.
Qed.

Lemma Forall_iff_ext {A : Type} (P P' : A -> Prop) (l : list A) :
  (forall x, P x <-> P' x) -> Forall P l <-> Forall P' l.
Proof.
  intros E. split; intros F; (eapply Forall_impl; [|exact F]); intros x; apply E.
Qed.

Lemma token_re_spec (t : str) : Re.Matches token_re t <-> name_token t.
Proof.
  unfold token_re, name_token, capitalized.
  rewrite ReFacts.cat_inv. split.
  - intros (x & y & -> & Hx & Hy).
    apply ReFacts.class_inv in Hx. destruct Hx as (c & -> & U).
    apply ReFacts.cat_inv in Hy. destruct Hy as (lows & z & -> & Hl & Hz).
    apply ReFacts.star_class_inv in Hl.
    apply ReFacts.star_inv in Hz. destruct Hz as (parts & -> & F).
    exists (c :: lows), parts. repeat split.
    + exists c, lows. repeat split; trivial. lia.
    + eapply Forall_iff_ext; [|exact F]. intros w. symmetry. apply joined_re_spec.
  - intros (h & parts & -> & (c & lows & -> & U & L & _) & F).
    exists [c], (lows ++ concat parts). repeat split; [constructor; exact U|].
    apply ReFacts.cat_inv. exists lows, (concat parts).
    repeat split; [apply ReFacts.star_class_inv; exact L|].
    apply ReFacts.star_inv. exists parts. split; [reflexivity|].
    eapply Forall_iff_ext; [|exact F]. intros w. apply joined_re_spec.
Qed.

Lemma spaced_token_spec (w : str) :
  Re.Matches (Re.Cat token_re (Re.Class PyStr.isspace)) w <-> spaced_token w.
Proof.
  unfold spaced_token. rewrite ReFacts.cat_inv. split.
  - intros (x & y & -> & Hx & Hy). apply token_re_spec in Hx.
    apply ReFacts.class_inv in Hy. destruct Hy as (c & -> & S). eauto.
  - intros (t & c & -> & T & S). exists t, [c].
    repeat split; [apply token_re_spec; exact T | constructor; exact S].
Qed.

(** The validator accepts the strings of the shape, and no other. *)
Lemma is_valid_name_shape (s : str) : is_valid_name s = true <-> name_shape s.
Proof.
  unfold is_valid_name, name_re, name_shape.
  rewrite ReFacts.fullmatch_spec, ReFacts.cat_inv. split.
  - intros (x & y & -> & Hx & Hy). apply ReFacts.plus_inv in Hx.
    destruct Hx as (front & -> & NE & F).
    exists front, y. repeat split; trivial.
    + eapply Forall_iff_ext; [|exact F]. intros w. symmetry. apply spaced_token_spec.
    + apply token_re_spec; exact Hy.
  - intros (front & final & -> & NE & F & T).
    exists (concat front), final. repeat split; [|apply token_re_spec; exact T].
    apply ReFacts.plus_inv. exists front. repeat split; trivial.
    eapply Forall_iff_ext; [|exact F]. intros w. apply spaced_token_spec.
Qed.

(** C8, as amended.  The validator accepts the two names and rejects the
    three other strings; in general it accepts exactly the strings made of
    two tokens or more, each followed by one whitespace character but the
    last, where a token is a capital letter with any number of lowercase
    letters after it, then any number of parts made of a hyphen or an
    apostrophe, a capital letter and one lowercase letter or more. *)
Theorem name_validator_shape :
  is_valid_name (lit "Jean-Paul Sartre") = true
  /\ is_valid_name (lit "Ana María López") = true
  /\ is_valid_name (lit "hello world") = false
  /\ is_valid_name (lit "A") = false
  /\ is_valid_name (lit "JOHN SMITH") = false
  /\ forall s, is_valid_name s = true <-> name_shape s.
Proof.
  repeat split; try (vm_compute; reflexivity); apply is_valid_name_shape.
Qed.

(** C8, as stated, fails whichever way a capitalised word is read.  If a
    single capital is a capitalised word, ["A-B C"] has the claimed shape
    and is rejected; if it is not, ["A B"] has not the claimed shape and is
    accepted. *)
Lemma claimed_name_shape_differs :
  (claimed_name_shape 0 (lit "A-B C") = true
   /\ is_valid_name (lit "A-B C") = false)
  /\ (claimed_name_shape 1 (lit "A B") = false
      /\ is_valid_name (lit "A B") = true).
Proof. repeat split; vm_compute; reflexivity. Qed.

(** ** Floats *)

Unset Implicit Arguments.

Lemma pow2_pos (k : Z) : 0 < pow2 k.
Proof. apply Qpower_0_lt. reflexivity. Qed.

Lemma pow2_add (a b : Z) : pow2 (a + b) == pow2 a * pow2 b.
Proof. apply Qpower_plus. discriminate. Qed.

Lemma pow2_le (a b : Z) : (a <= b)%Z -> pow2 a <= pow2 b.
Proof. intros H. apply Qpower_le_compat_l; [exact H | discriminate]. Qed.

Lemma pow2_lt_inv (a b : Z) : pow2 a < pow2 b -> (a < b)%Z.
Proof. intros H. apply (Qpower_lt_compat_l_inv 2); [exact H | reflexivity]. Qed.

Lemma pow2_int (k : Z) : (0 <= k)%Z -> pow2 k == inject_Z (2 ^ k).
Proof. intros H. symmetry. apply (Zpower_Qpower 2 k H). Qed.

Lemma inject_Z_pos (z : Z) : (0 < z)%Z -> 0 < inject_Z z.
Proof. intros H. unfold Qlt. simpl. lia. Qed.

Lemma Qdiv_lt_cross (a b c d : Q) :
  0 < b -> 0 < d -> a * d < c * b -> a / b < c / d.
Proof.
  intros Hb Hd H.
  apply Qlt_shift_div_r; [exact Hb|].
  assert (E : c / d * b == c * b / d) by (field; lra).
  rewrite E. apply Qlt_shift_div_l; [exact Hd | exact H].
Qed.

Lemma Qdiv_le_cross (a b c d : Q) :
  0 < b -> 0 < d -> a * d <= c * b -> a / b <= c / d.
Proof.
  intros Hb Hd H.
  apply Qle_shift_div_r; [exact Hb|].
  assert (E : c / d * b == c * b / d) by (field; lra).
  rewrite E. apply Qle_shift_div_l; [exact Hd | exact H].
Qed.

Lemma ilog2_spec (q : Q) :
  0 < q -> pow2 (ilog2 q) <= q /\ q < pow2 (ilog2 q + 1).
Proof.
  intros Hq. destruct q as [n d]. unfold ilog2. cbn [Qnum Qden].
  assert (Hn : (0 < n)%Z).
  { unfold Qlt in Hq. simpl in Hq. lia. }
  set (ln := Z.log2 n). set (ld := Z.log2 (Z.pos d)).
  assert (Ln : (0 <= ln)%Z) by apply Z.log2_nonneg.
  assert (Ld : (0 <= ld)%Z) by apply Z.log2_nonneg.
  destruct (Z.log2_spec n Hn) as [N1 N2]. fold ln in N1, N2.
  destruct (Z.log2_spec (Z.pos d) (Pos2Z.is_pos d)) as [D1 D2]. fold ld in D1, D2.
  assert (Q : n # d == inject_Z n / inject_Z (Z.pos d)) by apply Qmake_Qdiv.
  assert (Pd : 0 < inject_Z (Z.pos d)) by (apply inject_Z_pos; lia).
  assert (E1 : pow2 (ln - ld + 1) == inject_Z (2 ^ Z.succ ln) / inject_Z (2 ^ ld)).
  { replace (ln - ld + 1)%Z with (Z.succ ln + - ld)%Z by lia.
    rewrite pow2_add. unfold pow2 at 2. rewrite Qpower_opp.
    fold (pow2 ld). rewrite !pow2_int by lia. reflexivity. }
  assert (E2 : pow2 (ln - ld - 1) == inject_Z (2 ^ ln) / inject_Z (2 ^ Z.succ ld)).
  { replace (ln - ld - 1)%Z with (ln + - Z.succ ld)%Z by lia.
    rewrite pow2_add. unfold pow2 at 2. rewrite Qpower_opp.
    fold (pow2 (Z.succ ld)). rewrite !pow2_int by lia. reflexivity. }
  assert (P1 : 0 < inject_Z (2 ^ ld)) by (apply inject_Z_pos; lia).
  assert (P2 : 0 < inject_Z (2 ^ Z.succ ld)) by (apply inject_Z_pos; lia).
  assert (Up : n # d < pow2 (ln - ld + 1)).
  { rewrite Q, E1. apply Qdiv_lt_cross; trivial.
    rewrite <- !inject_Z_mult, <- Zlt_Qlt. nia. }
  assert (Lo : pow2 (ln - ld - 1) <= n # d).
  { rewrite Q, E2. apply Qdiv_le_cross; trivial.
    rewrite <- !inject_Z_mult, <- Zle_Qle. nia. }
  destruct (Qle_bool (pow2 (ln - ld)) (n # d)) eqn:T.
  - apply Qle_bool_iff in T. split; [exact T | exact Up].
  - split; [exact Lo|].
    replace (ln - ld - 1 + 1)%Z with (ln - ld)%Z by lia.
    apply Qnot_le_lt. intros C. apply Qle_bool_iff in C. congruence.
Qed.

Lemma ilog2_le (x y : Q) : 0 < x -> x <= y -> (ilog2 x <= ilog2 y)%Z.
Proof.
  intros Hx Hxy.
  destruct (ilog2_spec x Hx) as [Lx _].
  destruct (ilog2_spec y) as [_ Uy]; [lra|].
  assert (H : pow2 (ilog2 x) < pow2 (ilog2 y + 1)) by lra.
  apply pow2_lt_inv in H. lia.
Qed.

Lemma round_half_even_bounds (q : Q) :
  (Qfloor q <= round_half_even q <= Qfloor q + 1)%Z.
Proof.
  unfold round_half_even.
  destruct (Qcompare (q - inject_Z (Qfloor q)) (1 # 2));
    [destruct (Z.even (Qfloor q))| |]; lia.
Qed.

Lemma round_half_even_Z (z : Z) : round_half_even (inject_Z z) = z.
Proof.
  unfold round_half_even. rewrite Qfloor_Z.
  assert (E : inject_Z z - inject_Z z == 0) by ring.
  rewrite E. reflexivity.
Qed.

Lemma round_half_even_mono (x y : Q) :
  x <= y -> (round_half_even x <= round_half_even y)%Z.
Proof.
  intros H. pose proof (Qfloor_resp_le _ _ H) as F.
  destruct (Z.eq_dec (Qfloor x) (Qfloor y)) as [E|NE].
  - unfold round_half_even. rewrite <- E.
    destruct (Qcompare_spec (x - inject_Z (Qfloor x)) (1 # 2)) as [X|X|X];
      destruct (Qcompare_spec (y - inject_Z (Qfloor x)) (1 # 2)) as [Y|Y|Y];
      try destruct (Z.even (Qfloor x)); try lia; exfalso; lra.
  - pose proof (round_half_even_bounds x). pose proof (round_half_even_bounds y).
    lia.
Qed.

Lemma round_half_even_le_Z (x : Q) (z : Z) :
  x <= inject_Z z -> (round_half_even x <= z)%Z.
Proof.
  intros H. rewrite <- (round_half_even_Z z). apply round_half_even_mono, H.
Qed.

Lemma round_half_even_ge_Z (x : Q) (z : Z) :
  inject_Z z <= x -> (z <= round_half_even x)%Z.
Proof.
  intros H. rewrite <- (round_half_even_Z z). apply round_half_even_mono, H.
Qed.

Lemma pow2_quotient (a b : Z) :
  (b <= a)%Z -> pow2 a / pow2 b == inject_Z (2 ^ (a - b)).
Proof.
  intros H. rewrite <- pow2_int by lia.
  replace a with ((a - b) + b)%Z at 1 by lia. rewrite pow2_add.
  field. pose proof (pow2_pos b). lra.
Qed.

Lemma scaled_le_Z (x : Q) (e : Z) (z : Z) :
  x <= inject_Z z * pow2 e -> x / pow2 e <= inject_Z z.
Proof.
  intros H. apply Qle_shift_div_r; [apply pow2_pos | exact H].
Qed.

Lemma scaled_ge_Z (x : Q) (e : Z) (z : Z) :
  inject_Z z * pow2 e <= x -> inject_Z z <= x / pow2 e.
Proof.
  intros H. apply Qle_shift_div_l; [apply pow2_pos | exact H].
Qed.

Lemma pow2_split (a b : Z) :
  (b <= a)%Z -> pow2 a == inject_Z (2 ^ (a - b)) * pow2 b.
Proof.
  intros H. rewrite <- pow2_quotient by exact H.
  field. pose proof (pow2_pos b). lra.
Qed.

Lemma round_positive_nonneg (x : Q) : 0 < x -> 0 <= round_positive x.
Proof.
  intros Hx. unfold round_positive.
  set (e := Z.max (ilog2 x - 52) (-1074)).
  assert (P : 0 < pow2 e) by apply pow2_pos.
  assert (Z0 : (0 <= round_half_even (x / pow2 e))%Z).
  { apply round_half_even_ge_Z. change (inject_Z 0) with 0.
    apply Qle_shift_div_l; [exact P | lra]. }
  apply Qmult_le_0_compat; [|lra].
  change 0 with (inject_Z 0). rewrite <- Zle_Qle. exact Z0.
Qed.

Lemma round_positive_mono (x y : Q) :
  0 < x -> x <= y -> round_positive x <= round_positive y.
Proof.
  intros Hx Hxy. assert (Hy : 0 < y) by lra.
  pose proof (ilog2_le x y Hx Hxy) as L.
  destruct (ilog2_spec x Hx) as [_ Ux]. destruct (ilog2_spec y Hy) as [Ly _].
  unfold round_positive.
  set (ex := Z.max (ilog2 x - 52) (-1074)).
  set (ey := Z.max (ilog2 y - 52) (-1074)).
  assert (Px : 0 < pow2 ex) by apply pow2_pos.
  assert (Py : 0 < pow2 ey) by apply pow2_pos.
  destruct (Z.eq_dec ex ey) as [E|NE].
  - rewrite <- E. apply Qmult_le_compat_r; [|lra].
    rewrite <- Zle_Qle. apply round_half_even_mono.
    apply Qmult_le_compat_r; [exact Hxy|].
    apply Qlt_le_weak, Qinv_lt_0_compat, Px.
  - assert (Lt : (ex < ey)%Z) by lia.
    assert (Ey : ey = (ilog2 y - 52)%Z) by lia.
    assert (Lxy : (ilog2 x + 1 <= ilog2 y)%Z) by lia.
    assert (B : x <= pow2 (ilog2 y)).
    { pose proof (pow2_le _ _ Lxy). lra. }
    apply Qle_trans with (pow2 (ilog2 y)).
    + rewrite (pow2_split (ilog2 y) ex) by lia.
      apply Qmult_le_compat_r; [|lra]. rewrite <- Zle_Qle.
      apply round_half_even_le_Z, scaled_le_Z.
      rewrite <- pow2_split by lia. exact B.
    + rewrite (pow2_split (ilog2 y) ey) at 1 by lia.
      apply Qmult_le_compat_r; [|lra]. rewrite <- Zle_Qle.
      apply round_half_even_ge_Z, scaled_ge_Z.
      rewrite <- pow2_split by lia. exact Ly.
Qed.

Lemma round_double_mono (x y : Q) : x <= y -> round_double x <= round_double y.
Proof.
  intros H. unfold round_double.
  destruct (Qcompare_spec x 0) as [X|X|X]; destruct (Qcompare_spec y 0) as [Y|Y|Y];
    try (exfalso; lra); try lra.
  - apply round_positive_nonneg. exact Y.
  - pose proof (round_positive_nonneg (- x)). lra.
  - pose proof (round_positive_mono (- y) (- x)). lra.
  - pose proof (round_positive_nonneg (- x)).
    pose proof (round_positive_nonneg y). lra.
  - apply round_positive_mono; assumption.
Qed.

Lemma round_double_0 : round_double 0 = 0.
Proof. reflexivity. Qed.

Set Implicit Arguments.

(** ** The sampler *)

Lemma py_max_floor (x : Q) : py_max 0 x == Qmax 0 x /\ 0 <= py_max 0 x.
Proof.
  unfold py_max. destruct (Qle_bool x 0) eqn:L.
  - apply Qle_bool_iff in L. split; [|lra].
    symmetry. apply Q.max_l. exact L.
  - apply Qle_bool_false in L. split; [|lra].
    symmetry. apply Q.max_r. lra.
Qed.

Lemma frame_timestamp_shifted (fps : Q) (frame_idx : Z) :
  frame_timestamp fps frame_idx == shifted_time fps frame_idx
  /\ 0 <= frame_timestamp fps frame_idx.
Proof.
  unfold frame_timestamp, shifted_time, VOICE_TIMESTAMP_OFFSET.
  apply py_max_floor.
Qed.

(** The time is the one that float arithmetic gives: at 2.5 frames per
    second, frame 8 is stamped 0.7000000000000002, which is neither 7/10
    nor the float nearest to it. *)
Lemma frame_timestamp_rounded :
  frame_timestamp (5 # 2) 8 == 6305039478318696 # 9007199254740992
  /\ ~ frame_timestamp (5 # 2) 8 == 7 # 10
  /\ round_double (7 # 10) == 6305039478318694 # 9007199254740992.
Proof.
  split; [vm_compute; reflexivity|].
  split; [vm_compute; discriminate | vm_compute; reflexivity].
Qed.

Section SamplerFacts.

Variable fps : Q.
Variable video : list frame.
Variable frame_skip : Z.

Lemma read_in_range (frame_idx : Z) (fr : frame) :
read video frame_idx = Some fr ->
(0 <= frame_idx < Z.of_nat (length video))%Z.
Proof.
unfold read. destruct (Z.ltb_spec frame_idx 0) as [Neg|Pos]; [discriminate|].
intros H. assert (nth_error video (Z.to_nat frame_idx) <> None) by congruence.
apply nth_error_Some in H0. lia.
Qed.

Lemma sample_step_results (frame_idx : Z) (fr : frame)
(results : list observation) (last_valid_speaker : option str) :
fst (sample_step fps frame_idx fr results last_valid_speaker) = results
\/ exists l, fst (sample_step fps frame_idx fr results last_valid_speaker)
             = results ++ [(frame_timestamp fps frame_idx, l)].
Proof.
unfold sample_step.
assert (C : forall r : list observation * option str,
           r = match last_valid_speaker with
               | Some l => (results ++ [(frame_timestamp fps frame_idx, l)],
                            last_valid_speaker)
               | None => (results, last_valid_speaker)
               end ->
           fst r = results
           \/ exists l, fst r = results ++ [(frame_timestamp fps frame_idx, l)]).
{ intros r ->. destruct last_valid_speaker; simpl; eauto. }
destruct (if negb (PyStr.truthy (try_ocr fr PRIMARY_CROP_BOX))
          then try_ocr fr SECONDARY_CROP_BOX
          else try_ocr fr PRIMARY_CROP_BOX) as [[|c t]|]; try (apply C; reflexivity).
destruct (is_valid_name (PyStr.replace 48 79 (c :: t)));
  [right; simpl; eauto | apply C; reflexivity].
Qed.

Lemma sample_loop_spec (fuel : nat) :
forall (frame_idx : Z) (results : list observation)
       (last_valid_speaker : option str),
  (0 < fuel)%nat ->
  ((0 <= frame_idx < Z.of_nat (length video))%Z ->
   (0 < frame_skip /\ Z.of_nat (length video) - frame_idx < Z.of_nat fuel)%Z
   \/ (frame_skip < 0 /\ frame_idx + 1 < Z.of_nat fuel)%Z) ->
  (exists k : Z, (frame_idx = k * frame_skip)%Z) ->
  Forall (emitted fps video frame_skip) results ->
  exists r,
    sample_loop fps video frame_skip fuel frame_idx results last_valid_speaker
    = Some r
    /\ Forall (emitted fps video frame_skip) r.
Proof.
induction fuel as [|fuel IH]; intros frame_idx results last Pos Bound Mul Inv;
  [lia|].
cbn [sample_loop]. destruct (read video frame_idx) as [fr|] eqn:R; [|eauto].
pose proof (read_in_range _ R) as Range.
pose proof (sample_step_results frame_idx fr results last) as Step.
destruct (sample_step fps frame_idx fr results last) as [results' last'].
cbn [fst] in Step.
assert (Inv' : Forall (emitted fps video frame_skip) results').
{ destruct Step as [->|(l & ->)]; [exact Inv|].
  apply Forall_app. split; [exact Inv|]. constructor; [|constructor].
  destruct (frame_timestamp_shifted fps frame_idx) as [E NN].
  split; [|exact NN]. exists frame_idx. split; [split; assumption | exact E]. }
destruct (Bound Range) as [[Sk B]|[Sk B]].
- apply IH; trivial; try lia.
  destruct Mul as (k & ->). exists (k + 1)%Z. lia.
- apply IH; trivial; try lia.
  destruct Mul as (k & ->). exists (k + 1)%Z. lia.
Qed.

End SamplerFacts.

Unset Implicit Arguments.

(** What one iteration does to [results] and [last_valid_speaker]: it
    accepts the text read, or carries the last speaker forward, or, with
    no speaker yet, appends nothing. *)
Lemma sample_step_cases (fps : Q) (frame_idx : Z) (fr : frame)
  (results : list observation) (last : option str) :
  let ts := frame_timestamp fps frame_idx in
  (exists box t,
      try_ocr fr box = Some t
      /\ is_valid_name (PyStr.replace 48 79 t) = true
      /\ sample_step fps frame_idx fr results last
         = (results ++ [(ts, PyStr.replace 48 79 t)],
            Some (PyStr.replace 48 79 t)))
  \/ (exists l, last = Some l
                /\ sample_step fps frame_idx fr results last
                   = (results ++ [(ts, l)], Some l))
  \/ (last = None /\ sample_step fps frame_idx fr results last = (results, None)).
Proof.
  intros ts. unfold sample_step. fold ts.
  assert (C : (exists l, last = Some l
                         /\ match last with
                            | Some l0 => (results ++ [(ts, l0)], last)
                            | None => (results, last)
                            end = (results ++ [(ts, l)], Some l))
              \/ (last = None
                  /\ match last with
                     | Some l0 => (results ++ [(ts, l0)], last)
                     | None => (results, last)
                     end = (results, None))).
  { destruct last as [l|]; [left; exists l | right]; auto. }
  destruct (PyStr.truthy (try_ocr fr PRIMARY_CROP_BOX)) eqn:T; cbn [negb].
  - destruct (try_ocr fr PRIMARY_CROP_BOX) as [[|c t]|] eqn:O; try discriminate.
    destruct (is_valid_name (PyStr.replace 48 79 (c :: t))) eqn:V; [|right; exact C].
    left. exists PRIMARY_CROP_BOX, (c :: t). auto.
  - destruct (try_ocr fr SECONDARY_CROP_BOX) as [[|c t]|] eqn:O;
      try (right; exact C).
    destruct (is_valid_name (PyStr.replace 48 79 (c :: t))) eqn:V; [|right; exact C].
    left. exists SECONDARY_CROP_BOX, (c :: t). auto.
Qed.

Section SamplerStamps.

Variable fps : Q.
Variable video : list frame.
Variable frame_skip : Z.
Hypothesis skip_positive : (0 < frame_skip)%Z.

Lemma read_beyond (frame_idx : Z) :
(Z.of_nat (length video) <= frame_idx)%Z -> read video frame_idx = None.
Proof.
intros H. unfold read. destruct (Z.ltb_spec frame_idx 0) as [_|_]; [reflexivity|].
apply nth_error_None. lia.
Qed.

Lemma read_within (frame_idx : Z) :
(0 <= frame_idx < Z.of_nat (length video))%Z ->
exists fr, read video frame_idx = Some fr.
Proof.
intros H. unfold read. destruct (Z.ltb_spec frame_idx 0) as [Neg|_]; [lia|].
destruct (nth_error video (Z.to_nat frame_idx)) as [fr|] eqn:E; [eauto|].
apply nth_error_None in E. lia.
Qed.

(** The frame indices from [frame_idx] on, in steps of [frame_skip], below
  the number of frames. *)
Lemma indices_from_beyond (frame_idx : Z) :
(Z.of_nat (length video) <= frame_idx)%Z ->
Z.to_nat ((Z.of_nat (length video) - frame_idx + frame_skip - 1) / frame_skip)
= 0%nat.
Proof.
intros H.
assert ((Z.of_nat (length video) - frame_idx + frame_skip - 1) / frame_skip < 1)%Z
  by (apply Z.div_lt_upper_bound; lia).
lia.
Qed.

Lemma indices_from_within (frame_idx : Z) :
(frame_idx < Z.of_nat (length video))%Z ->
Z.to_nat ((Z.of_nat (length video) - frame_idx + frame_skip - 1) / frame_skip)
= S (Z.to_nat ((Z.of_nat (length video) - (frame_idx + frame_skip)
               + frame_skip - 1) / frame_skip)).
Proof.
intros H.
replace (Z.of_nat (length video) - frame_idx + frame_skip - 1)%Z
  with ((Z.of_nat (length video) - frame_idx - 1) + 1 * frame_skip)%Z by lia.
rewrite Z.div_add by lia.
replace (Z.of_nat (length video) - (frame_idx + frame_skip) + frame_skip - 1)%Z
  with (Z.of_nat (length video) - frame_idx - 1)%Z by lia.
assert (0 <= (Z.of_nat (length video) - frame_idx - 1) / frame_skip)%Z
  by (apply Z.div_pos; lia).
lia.
Qed.

(** The observations that the loop appends bear, one after the other, the
  times of the frames that it reads from the first speaker on. *)
Lemma sample_loop_stamps (fuel : nat) :
forall (frame_idx : Z) (results : list observation) (last : option str),
  (0 < fuel)%nat ->
  (0 <= frame_idx)%Z ->
  (Z.of_nat (length video) - frame_idx < Z.of_nat fuel)%Z ->
  exists new n,
    sample_loop fps video frame_skip fuel frame_idx results last
    = Some (results ++ new)
    /\ Forall2 (stamped fps) new
         (skipn n
            (map (fun k => (frame_idx + Z.of_nat k * frame_skip)%Z)
               (seq 0 (Z.to_nat ((Z.of_nat (length video) - frame_idx
                                  + frame_skip - 1) / frame_skip)))))
    /\ (last <> None -> n = 0%nat).
Proof.
induction fuel as [|fuel IH]; intros frame_idx results last Pf Pos Fuel; [lia|].
- cbn [sample_loop].
  destruct (Z_lt_ge_dec frame_idx (Z.of_nat (length video))) as [In|Out].
  + destruct (read_within frame_idx) as (fr & R); [lia|]. rewrite R.
    rewrite (indices_from_within frame_idx In).
    cbn [seq map]. rewrite <- seq_shift, map_map.
    rewrite (map_ext (fun k => (frame_idx + Z.of_nat (S k) * frame_skip)%Z)
                     (fun k => (frame_idx + frame_skip + Z.of_nat k * frame_skip)%Z))
      by (intros k; lia).
    replace (frame_idx + Z.of_nat 0 * frame_skip)%Z with frame_idx by lia.
    destruct (frame_timestamp_shifted fps frame_idx) as [St _].
    destruct (sample_step_cases fps frame_idx fr results last)
      as [(box & t & _ & _ & ->)|[(l & _ & ->)|(Ln & ->)]].
    * destruct (IH (frame_idx + frame_skip)%Z
                   (results ++ [(frame_timestamp fps frame_idx,
                                 PyStr.replace 48 79 t)])
                   (Some (PyStr.replace 48 79 t)))
        as (new & n & E & F & N0); [lia | lia | lia |].
      rewrite (N0 ltac:(discriminate)) in F. cbn [skipn] in F.
      exists ((frame_timestamp fps frame_idx, PyStr.replace 48 79 t) :: new), 0%nat.
      rewrite E, <- app_assoc. split; [reflexivity|]. split; [|reflexivity].
      constructor; [exact St | exact F].
    * destruct (IH (frame_idx + frame_skip)%Z
                   (results ++ [(frame_timestamp fps frame_idx, l)]) (Some l))
        as (new & n & E & F & N0); [lia | lia | lia |].
      rewrite (N0 ltac:(discriminate)) in F. cbn [skipn] in F.
      exists ((frame_timestamp fps frame_idx, l) :: new), 0%nat.
      rewrite E, <- app_assoc. split; [reflexivity|]. split; [|reflexivity].
      constructor; [exact St | exact F].
    * destruct (IH (frame_idx + frame_skip)%Z results None)
        as (new & n & E & F & _); [lia | lia | lia |].
      exists new, (S n). rewrite E. split; [reflexivity|].
      split; [exact F | congruence].
  + rewrite read_beyond by lia. rewrite indices_from_beyond by lia.
    exists [], 0%nat. rewrite app_nil_r. repeat split. constructor.
Qed.

End SamplerStamps.

(** The timeline that the loop builds from the first frame on. *)
Lemma sample_loop_read_indices (fps : Q) (video : list frame) (frame_skip : Z) :
  frame_skip <> 0%Z ->
  exists raw n,
    sample_loop fps video frame_skip (S (length video)) 0 [] None = Some raw
    /\ Forall2 (stamped fps) raw (skipn n (read_indices video frame_skip)).
Proof.
  intros NZ. unfold read_indices.
  destruct (Z.ltb_spec 0 frame_skip) as [Pos|Neg].
  - destruct (sample_loop_stamps fps video frame_skip Pos (S (length video))
                0%Z [] None) as (new & n & E & F & _); [lia | lia | lia |].
    exists new, n. split; [exact E|].
    rewrite Z.sub_0_r in F.
    rewrite (map_ext (fun k => (0 + Z.of_nat k * frame_skip)%Z)
                     (fun k => (Z.of_nat k * frame_skip)%Z)) in F
      by (intros k; lia).
    exact F.
  - destruct video as [|fr video].
    + exists [], 0%nat. split; [reflexivity | constructor].
    + cbn [sample_loop length]. change (read (fr :: video) 0) with (Some fr).
      destruct (frame_timestamp_shifted fps 0) as [St _].
      assert (R : read (fr :: video) (0 + frame_skip) = None).
      { unfold read. destruct (Z.ltb_spec (0 + frame_skip) 0); [reflexivity | lia]. }
      destruct (sample_step_cases fps 0 fr [] None)
        as [(box & t & _ & _ & ->)|[(l & Bad & _)|(_ & ->)]];
        [|discriminate|]; rewrite R.
      * exists [(frame_timestamp fps 0, PyStr.replace 48 79 t)], 0%nat.
        split; [reflexivity|]. constructor; [exact St | constructor].
      * exists [], 1%nat. split; [reflexivity | constructor].
Qed.

Lemma Forall2_Subseq {A B : Type} (R : A -> B -> Prop) (l l' : list A) (m : list B) :
  Forall2 R l m -> Subseq l' l ->
  exists m', Subseq m' m /\ Forall2 R l' m'.
Proof.
  intros F. revert l'. induction F as [|a b l m Rab F IH]; intros l' S.
  - inversion S; subst. exists []. split; constructor.
  - inversion S; subst.
    + destruct (IH _ H1) as (m' & Sm & Fm). exists m'.
      split; [constructor; exact Sm | exact Fm].
    + destruct (IH _ H1) as (m' & Sm & Fm). exists (b :: m').
      split; [constructor; exact Sm | constructor; assumption].
Qed.

Lemma Subseq_skipn {A : Type} (n : nat) (s l : list A) :
  Subseq s (skipn n l) -> Subseq s l.
Proof.
  revert l; induction n as [|n IH]; intros l H; [exact H|].
  destruct l as [|x l]; [exact H|]. constructor. apply IH. exact H.
Qed.

(** C9.  The sampler comes to an end.  When it returns a timeline, its
    observations bear, one after the other, the times of the frames that
    the loop reads, from the first frame that gives an observation to the
    last frame read; the time of a frame is its index divided by the frame
    rate, less 2.5 seconds and floored at 0, in float arithmetic, and so it
    is not negative.  The denoised timeline bears the times of some of
    these frames, in the same order.  The sampler raises only when the
    frame rate truncates to 0 frames per step. *)
Theorem sampler_timestamps (fps : Q) (video : list frame) :
  exists raw cleaned,
    sample_frames fps video = Some raw
    /\ extract_speaker_labels fps video = Some cleaned
    /\ match raw, cleaned with
       | Ok raw_timeline, Ok timeline =>
           let indices := read_indices video (py_int (fps * FRAME_INTERVAL)) in
           (exists n, Forall2 (stamped fps) raw_timeline (skipn n indices))
           /\ (exists kept, Subseq kept indices
                            /\ Forall2 (stamped fps) timeline kept)
           /\ Forall (fun o => 0 <= obs_time o) raw_timeline
           /\ Forall (fun o => 0 <= obs_time o) timeline
       | Raise e, Raise e' =>
           e = ZeroDivisionError /\ e' = ZeroDivisionError
           /\ py_int (fps * FRAME_INTERVAL) = 0%Z
       | _, _ => False
       end.
Proof.
  unfold extract_speaker_labels, sample_frames.
  destruct (Z.eqb_spec (py_int (fps * FRAME_INTERVAL)) 0) as [Z0|NZ].
  - exists (Raise ZeroDivisionError), (Raise ZeroDivisionError). auto.
  - destruct (sample_loop_read_indices fps video _ NZ) as (r & n & E & F).
    rewrite E. exists (Ok r), (Ok (filter_noisy_speakers r)).
    split; [reflexivity|]. split; [reflexivity|].
    assert (Sub : Subseq (filter_noisy_speakers r) r).
    { rewrite filter_noisy_speakers_spec. apply Subseq_filter_enumerate. }
    assert (NN : forall tl idxs,
               Forall2 (stamped fps) tl idxs -> Forall (fun o => 0 <= obs_time o) tl).
    { intros tl idxs F2. induction F2 as [|o i tl idxs St _ IH]; constructor;
        [|exact IH].
      unfold stamped, shifted_time in St. rewrite St. apply Q.le_max_l. }
    destruct (Forall2_Subseq _ _ _ _ F Sub) as (kept & Sk & Fk).
    split; [exists n; exact F|].
    split; [exists kept; split; [exact (Subseq_skipn _ _ _ Sk) | exact Fk]|].
    split; [exact (NN _ _ F) | exact (NN _ _ Fk)].
Qed.

Set Implicit Arguments.

(** ** The summariser adapter *)

Lemma bind_Ok {A B : Type} (m : result A) (k : A -> result B) (b : B) :
  bind m k = Ok b <-> exists a, m = Ok a /\ k a = Ok b.
Proof.
  destruct m as [a|e]; simpl.
  - split; [eauto | intros (a' & E & H); inversion E; subst; exact H].
  - split; [discriminate | intros (a' & E & _); discriminate].
Qed.

Lemma find_key (key : str) (members : list (str * json)) (m : str * json) :
  find (fun m => PyStr.eqb (fst m) key) members = Some m ->
  m = (key, snd m).
Proof.
  intros H. apply find_some in H. destruct H as [_ E].
  apply PyStrFacts.eqb_eq in E. destruct m; simpl in *; subst; reflexivity.
Qed.

Lemma getitem_key_Ok (v x : json) (key : str) :
  getitem_key v key = Ok x
  <-> exists members,
      v = JObj members
      /\ find (fun m => PyStr.eqb (fst m) key) members = Some (key, x).
Proof.
  split.
  - destruct v; simpl; try discriminate.
    destruct (find (fun m => PyStr.eqb (fst m) key) members) as [m|] eqn:F;
      [|discriminate].
    intros H. inversion H; subst. exists members. split; [reflexivity|].
    pose proof (find_key _ _ F) as K. rewrite F. f_equal. exact K.
  - intros (members & -> & F). simpl. rewrite F. reflexivity.
Qed.

Lemma getitem_0_Ok (v x : json) :
  getitem_0 v = Ok x
  <-> (exists rest, v = JArr (x :: rest))
      \/ (exists c s, v = JStr (c :: s) /\ x = JStr [c]).
Proof.
  split.
  - destruct v as [| | |[|c s]|[|y rest]|]; simpl; try discriminate;
      intros H; inversion H; subst; eauto.
  - intros [(rest & ->)|(c & s & -> & ->)]; reflexivity.
Qed.

(** The subscripts [["choices"][0]["message"]["content"]] succeed exactly
    on a document that holds a text at that place. *)
Lemma reply_path (doc text : json) :
  (choices <- getitem_key doc (lit "choices") ;;
   choice <- getitem_0 choices ;;
   message <- getitem_key choice (lit "message") ;;
   getitem_key message (lit "content")) = Ok text
  <-> reply_text doc text.
Proof.
  unfold reply_text. rewrite bind_Ok. split.
  - intros (choices & H1 & H). apply bind_Ok in H. destruct H as (choice & H2 & H).
    apply bind_Ok in H. destruct H as (message & H3 & H4).
    apply getitem_key_Ok in H1, H3, H4.
    destruct H1 as (members & -> & F1), H3 as (fields & -> & F3),
             H4 as (msg & -> & F4).
    apply getitem_0_Ok in H2. destruct H2 as [(rest & ->)|(c & s & _ & Bad)];
      [|discriminate].
    exists members, (JObj fields), rest, fields, msg. auto.
  - intros (members & choice & rest & fields & message & -> & F1 & -> & F3 & F4).
    exists (JArr (JObj fields :: rest)). split.
    + apply getitem_key_Ok. eauto.
    + cbn [bind getitem_0 getitem_key]. rewrite F3.
      cbn [bind snd getitem_key]. rewrite F4. reflexivity.
Qed.

Section WorkflowFacts.

Variable endpoint : request -> http_outcome.
Variable format : str -> str -> result str.
Variable can_open : str -> bool.
Variable expanduser : str -> str.
Variable path_join : str -> str -> str.

(** A template that [format] refuses ends the call before the request. *)
Lemma summarize_format_raises (transcript : str) (st : settings) (w : world)
(e : exn) :
format (summary_prompt_format st) transcript = Raise e ->
summarize_transcript endpoint format transcript st w = (Raise e, w).
Proof. intros F. unfold summarize_transcript. rewrite F. reflexivity. Qed.

Lemma summarize_world (transcript : str) (st : settings) (w : world)
(summary_prompt : str) :
format (summary_prompt_format st) transcript = Ok summary_prompt ->
snd (summarize_transcript endpoint format transcript st w)
= World (files w) (posted w ++ [payload_of summary_prompt st]).
Proof.
intros F. unfold summarize_transcript. rewrite F.
fold (payload_of summary_prompt st).
destruct (endpoint (payload_of summary_prompt st)); reflexivity.
Qed.

Lemma summarize_files (transcript : str) (st : settings) (w : world) :
files (snd (summarize_transcript endpoint format transcript st w)) = files w.
Proof.
destruct (format (summary_prompt_format st) transcript) as [prompt|e] eqn:F.
- rewrite (@summarize_world transcript st w prompt F). reflexivity.
- rewrite (@summarize_format_raises transcript st w e F). reflexivity.
Qed.

Lemma summarize_Ok (transcript : str) (st : settings) (w : world)
(summary_prompt : str) (text : json) :
format (summary_prompt_format st) transcript = Ok summary_prompt ->
(fst (summarize_transcript endpoint format transcript st w) = Ok text
 <-> exists status doc,
     endpoint (payload_of summary_prompt st) = Response status (Some doc)
     /\ (status < 400 \/ 600 <= status)%Z
     /\ reply_text doc text).
Proof.
intros F. unfold summarize_transcript. rewrite F.
fold (payload_of summary_prompt st).
destruct (endpoint (payload_of summary_prompt st)) as [|status body]; cbn [fst].
- split; [discriminate | intros (s & d & E & _); discriminate].
- unfold raise_for_status.
  destruct (Z.leb_spec 400 status) as [A|A], (Z.ltb_spec status 600) as [B|B];
    cbn [andb bind];
    try (destruct body as [doc|]; cbn [bind];
         [rewrite reply_path; split;
          [intros R; exists status, doc; repeat split; trivial; lia
          |intros (s & d & E & _ & R); inversion E; subst; exact R]
         |split; [discriminate | intros (s & d & E & _); discriminate]]).
  split; [discriminate|]. intros (s & d & E & R & _). inversion E; subst. lia.
Qed.

Lemma summarize_raises (transcript : str) (st : settings) (w : world)
(summary_prompt : str) :
format (summary_prompt_format st) transcript = Ok summary_prompt ->
(raises (fst (summarize_transcript endpoint format transcript st w))
 <-> endpoint (payload_of summary_prompt st) = Unreachable
     \/ exists status body,
         endpoint (payload_of summary_prompt st) = Response status body
         /\ ((400 <= status < 600)%Z
             \/ body = None
             \/ exists doc, body = Some doc /\ forall text, ~ reply_text doc text)).
Proof.
intros F.
pose proof (fun text => @summarize_Ok transcript st w summary_prompt text F) as OkIff.
destruct (fst (summarize_transcript endpoint format transcript st w))
  as [text|e] eqn:R.
- destruct (proj1 (OkIff text) eq_refl) as (status & doc & E & S & T).
  split; [intros (e & Bad); discriminate|].
  intros [U|(s & b & E' & Bad)].
  + rewrite E in U. discriminate.
  + rewrite E in E'. inversion E'; subst s b.
    destruct Bad as [Bad|[Bad|(d & Bd & Bad)]]; [lia | discriminate |].
    inversion Bd; subst d. destruct (Bad text T).
- split; [intros _ | intros _; exists e; reflexivity].
  destruct (endpoint (payload_of summary_prompt st)) as [|status body] eqn:E;
    [left; reflexivity|].
  right. exists status, body. split; [reflexivity|].
  destruct (Z_le_gt_dec 400 status) as [A|A];
    [destruct (Z_lt_ge_dec status 600) as [B|B]; [left; lia|]|];
    (right; destruct body as [doc|]; [right | left; reflexivity];
     exists doc; split; [reflexivity|]; intros text T;
     assert (Bad : Raise e = Ok text)
       by (apply OkIff; exists status, doc; repeat split; trivial; lia);
     discriminate).
Qed.

Lemma read_write_file (path content : str) (w : world) :
read_file path (write_file path content w) = Some content.
Proof.
unfold read_file, write_file. simpl. rewrite PyStrFacts.eqb_refl. reflexivity.
Qed.

Lemma write_chunks_encodable (chunks : list str) (written : str) :
forallb encodable chunks = true ->
write_chunks chunks written = (Ok tt, written ++ concat chunks).
Proof.
revert written; induction chunks as [|c chunks IH]; intros written E; simpl.
- rewrite app_nil_r. reflexivity.
- simpl in E. apply andb_true_iff in E. destruct E as [Ec Er].
  rewrite Ec, IH by exact Er. rewrite <- app_assoc. reflexivity.
Qed.

Lemma write_chunks_Ok (chunks : list str) (written written' : str) :
write_chunks chunks written = (Ok tt, written') ->
forallb encodable chunks = true.
Proof.
revert written; induction chunks as [|c chunks IH]; intros written E; simpl in *;
  [reflexivity|].
destruct (encodable c); [|discriminate]. exact (IH _ E).
Qed.

(** A file that can be opened, and chunks that can be encoded, give the
  file that holds the chunks one after the other. *)
Lemma open_and_write_Ok (path : str) (chunks : list str) (w : world) :
can_open path = true -> forallb encodable chunks = true ->
open_and_write can_open path chunks w
= (Ok tt, write_file path (concat chunks) w).
Proof.
intros O E. unfold open_and_write. rewrite O.
rewrite (@write_chunks_encodable chunks [] E). reflexivity.
Qed.

Lemma open_and_write_closed (path : str) (chunks : list str) (w : world) :
can_open path = false ->
open_and_write can_open path chunks w = (Raise OSError, w).
Proof. intros O. unfold open_and_write. rewrite O. reflexivity. Qed.

(** A failed summary leaves the world as the transcript write left it,
  but for the request posted. *)
Lemma failed_summary_keeps_transcript (tl : list observation)
(segments : list segment) (st : settings) (w : world)
(lines : list transcript_line) (e : exn) :
let transcript_path :=
  path_join (expanduser (output_dir st)) (transcript_file_name st) in
let rendered := concat (map (render_line) lines) in
let w1 := write_file transcript_path rendered w in
assemble_transcript tl segments (flat_map seg_words segments) = Ok lines ->
can_open transcript_path = true ->
forallb encodable (map render_line lines) = true ->
summarize_transcript_flag st = true ->
fst (summarize_transcript endpoint format
       (join_lines (map summary_line lines)) st w1) = Raise e ->
exists w2,
  transcribe_with_speakers endpoint format can_open expanduser path_join
    tl segments st w
  = (Raise e, w2)
  /\ files w2 = files w1
  /\ read_file transcript_path w2 = Some rendered.
Proof.
intros transcript_path rendered w1 A O Enc Fl R.
unfold transcribe_with_speakers. rewrite A.
fold transcript_path.
rewrite (@open_and_write_Ok transcript_path (map render_line lines) w O Enc).
fold rendered. fold w1. rewrite Fl. cbn [negb].
pose proof (summarize_files (join_lines (map summary_line lines)) st w1) as W.
destruct (summarize_transcript endpoint format
            (join_lines (map summary_line lines)) st w1) as [r w2].
cbn [fst snd] in R, W. subst r.
exists w2. split; [reflexivity|]. split; [exact W|].
unfold read_file. rewrite W. apply read_write_file.
Qed.

End WorkflowFacts.




(* ================================================================== *)
(** * Further properties of the code *)

Unset Implicit Arguments.

(** ** Majority speaker *)

Lemma str_eqb_sym (s t : str) : PyStr.eqb s t = PyStr.eqb t s.
Proof.
  destruct (PyStr.eqb s t) eqn:E, (PyStr.eqb t s) eqn:E'; trivial.
  - apply PyStrFacts.eqb_eq in E. subst. rewrite PyStrFacts.eqb_refl in E'.
    discriminate.
  - apply PyStrFacts.eqb_eq in E'. subst. rewrite PyStrFacts.eqb_refl in E.
    discriminate.
Qed.

Lemma counted_counter_add (y x : str) (c : list (str * nat)) :
  counted (counter_add y c) x
  = if PyStr.eqb y x then S (counted c x) else counted c x.
Proof.
  unfold counted. induction c as [|[k n] c IH]; simpl.
  - destruct (PyStr.eqb y x); reflexivity.
  - destruct (PyStr.eqb k y) eqn:Eky; simpl.
    + apply PyStrFacts.eqb_eq in Eky. subst k.
      destruct (PyStr.eqb y x); reflexivity.
    + destruct (PyStr.eqb k x) eqn:Ekx; simpl; [|exact IH].
      apply PyStrFacts.eqb_eq in Ekx. subst k.
      rewrite (str_eqb_sym y x), Eky. reflexivity.
Qed.

Lemma counted_fold (l : list str) (c : list (str * nat)) (x : str) :
  counted (fold_left (fun c x => counter_add x c) l c) x
  = (counted c x + count_occ str_eq_dec l x)%nat.
Proof.
  revert c; induction l as [|y l IH]; intros c; simpl; [lia|].
  rewrite IH, counted_counter_add.
  destruct (str_eq_dec y x) as [E|NE].
  - subst y. rewrite PyStrFacts.eqb_refl. lia.
  - apply PyStrFacts.eqb_neq in NE. rewrite NE. lia.
Qed.

Lemma keys_counter_add (y : str) (c : list (str * nat)) :
  NoDup (map fst c) ->
  NoDup (map fst (counter_add y c))
  /\ forall k, In k (map fst (counter_add y c)) <-> In k (map fst c) \/ k = y.
Proof.
  induction c as [|[k n] c IH]; simpl; intros ND.
  - split; [constructor; [simpl; tauto | constructor]
           | intros k; simpl; intuition congruence].
  - inversion ND; subst. destruct (IH H2) as [ND' K].
    destruct (PyStr.eqb k y) eqn:E; simpl.
    + apply PyStrFacts.eqb_eq in E. subst k.
      split; [exact ND | intros k; split; [tauto | intros [H|H]; auto]].
    + apply PyStrFacts.eqb_neq in E. split.
      * constructor; [|exact ND']. rewrite K. intros [H|H]; [auto | congruence].
      * intros k'. rewrite K. tauto.
Qed.

Lemma keys_fold (l : list str) (c : list (str * nat)) :
  NoDup (map fst c) ->
  let r := fold_left (fun c x => counter_add x c) l c in
  NoDup (map fst r)
  /\ forall k, In k (map fst r) <-> In k (map fst c) \/ In k l.
Proof.
  revert c; induction l as [|y l IH]; intros c ND; simpl.
  - split; [exact ND | intros k; tauto].
  - destruct (keys_counter_add y c ND) as [ND' K].
    destruct (IH _ ND') as [ND'' K'].
    split; [exact ND''|]. intros k. rewrite K', K. simpl. intuition (subst; auto).
Qed.

Lemma counted_entry (c : list (str * nat)) (e : str * nat) :
  NoDup (map fst c) -> In e c -> counted c (fst e) = snd e.
Proof.
  unfold counted. induction c as [|[k n] c IH]; simpl; intros ND H;
    [destruct H | destruct H as [E|H]].
  - subst e. simpl. rewrite PyStrFacts.eqb_refl. reflexivity.
  - inversion ND; subst.
    destruct (PyStr.eqb k (fst e)) eqn:E; [|apply IH; assumption].
    apply PyStrFacts.eqb_eq in E. subst k.
    exfalso. apply H2. apply in_map. exact H.
Qed.

(** The entries of [Counter(l)]: the labels of [l], each once, with the
    number of times it occurs in [l]. *)
Lemma Counter_entries (l : list str) (e : str * nat) :
  In e (Counter l) -> In (fst e) l /\ snd e = count_occ str_eq_dec l (fst e).
Proof.
  intros H. unfold Counter in *.
  destruct (@keys_fold l [] (NoDup_nil _)) as [ND K]. simpl in ND, K.
  split.
  - apply (in_map fst) in H. apply K in H. tauto.
  - rewrite <- (counted_entry _ _ ND H), counted_fold. reflexivity.
Qed.

Lemma Counter_has (l : list str) (x : str) :
  In x l -> In (x, count_occ str_eq_dec l x) (Counter l).
Proof.
  intros H. unfold Counter.
  destruct (@keys_fold l [] (NoDup_nil _)) as [ND K]. simpl in ND, K.
  assert (Hk : In x (map fst (fold_left (fun c x => counter_add x c) l [])))
    by (apply K; auto).
  apply in_map_iff in Hk. destruct Hk as ([k n] & E & Hin). simpl in E. subst k.
  pose proof (counted_entry _ _ ND Hin) as C. rewrite counted_fold in C. simpl in C.
  rewrite C. exact Hin.
Qed.

Lemma max_count_ge (items : list (str * nat)) (best : str * nat) :
  (snd best <= snd (max_count best items))%nat.
Proof.
  revert best; induction items as [|it items IH]; intros best; simpl; [lia|].
  destruct (Nat.ltb_spec (snd best) (snd it)) as [Lt|Ge].
  - specialize (IH it). lia.
  - apply IH.
Qed.

(** [max] returns the first item of greatest count. *)
Lemma max_count_first (items : list (str * nat)) (best : str * nat) :
  exists pre post,
    best :: items = pre ++ max_count best items :: post
    /\ Forall (fun it => (snd it < snd (max_count best items))%nat) pre
    /\ Forall (fun it => (snd it <= snd (max_count best items))%nat) post.
Proof.
  revert best; induction items as [|it items IH]; intros best; simpl.
  - exists [], []. repeat split; constructor.
  - destruct (Nat.ltb_spec (snd best) (snd it)) as [Lt|Ge].
    + destruct (IH it) as (pre & post & E & Fpre & Fpost).
      exists (best :: pre), post. split; [simpl; rewrite E; reflexivity|].
      split; [|exact Fpost]. constructor; [|exact Fpre].
      pose proof (max_count_ge items it). lia.
    + destruct (IH best) as (pre & post & E & Fpre & Fpost).
      destruct pre as [|p pre]; simpl in E.
      * exists [], (it :: post). split; [simpl; congruence|].
        split; [constructor|]. constructor; [|exact Fpost].
        injection E as E1 E2. rewrite <- E1. lia.
      * injection E as E1 E2. subst p.
        exists (best :: it :: pre), post.
        split; [simpl; do 2 f_equal; exact E2|].
        split; [|exact Fpost]. inversion Fpre; subst.
        constructor; [assumption|]. constructor; [lia | assumption].
Qed.

Lemma max_count_greatest (items : list (str * nat)) (best : str * nat) :
  In (max_count best items) (best :: items)
  /\ Forall (fun it => (snd it <= snd (max_count best items))%nat) (best :: items).
Proof.
  destruct (max_count_first items best) as (pre & post & E & Fpre & Fpost).
  rewrite E. split.
  - apply in_or_app. right. left. reflexivity.
  - apply Forall_app. split.
    + eapply Forall_impl; [|exact Fpre]. simpl. intros; lia.
    + constructor; [lia | exact Fpost].
Qed.

(** X1.  [get_majority_speaker] returns [None] on the empty list and on no
    other; the label it returns occurs in the list, and no label occurs
    more often. *)
Theorem majority_speaker_most_frequent (speakers : list str) :
  (get_majority_speaker speakers = None <-> speakers = [])
  /\ forall x, get_majority_speaker speakers = Some x ->
               In x speakers
               /\ forall y, (count_occ str_eq_dec speakers y
                             <= count_occ str_eq_dec speakers x)%nat.
Proof.
  destruct speakers as [|a [|b l]].
  - split; [tauto | discriminate].
  - split; [split; discriminate|]. intros x H. inversion H; subst x.
    split; [left; reflexivity|]. intros y. simpl.
    destruct (str_eq_dec a y), (str_eq_dec a a); try congruence; lia.
  - set (l0 := a :: b :: l).
    assert (Ha : In a l0) by (left; reflexivity).
    pose proof (Counter_has l0 a Ha) as Hin.
    unfold get_majority_speaker. fold l0. unfold most_common_1.
    destruct (Counter l0) as [|it items] eqn:C; [destruct Hin|].
    split; [split; discriminate|].
    intros x H. inversion H; subst x.
    destruct (max_count_greatest items it) as [M G]. rewrite <- C in M, G.
    destruct (Counter_entries l0 _ M) as [I S]. split; [exact I|].
    intros y. destruct (in_dec str_eq_dec y l0) as [Hy|Hy].
    + pose proof (Counter_has l0 y Hy) as Ey.
      rewrite Forall_forall in G. specialize (G _ Ey). cbn [snd] in G. lia.
    + rewrite (proj1 (count_occ_not_In str_eq_dec l0 y) Hy). lia.
Qed.

Lemma majority_speaker_most_frequent_witness :
  let speakers := [lit "Alice"; lit "Bob"; lit "Bob"] in
  get_majority_speaker speakers = Some (lit "Bob")
  /\ In (lit "Bob") speakers
  /\ (count_occ str_eq_dec speakers (lit "Alice")
      <= count_occ str_eq_dec speakers (lit "Bob"))%nat.
Proof.
  intros speakers.
  assert (H : get_majority_speaker speakers = Some (lit "Bob"))
    by (vm_compute; reflexivity).
  split; [exact H|].
  destruct (majority_speaker_most_frequent speakers) as [_ M].
  destruct (M _ H) as [I C]. split; [exact I | apply C].
Defined.

Lemma Counter_NoDup_fold (l : list str) (c : list (str * nat)) :
  NoDup (map fst c ++ l) ->
  fold_left (fun c x => counter_add x c) l c = c ++ map (fun x => (x, 1%nat)) l.
Proof.
  revert c; induction l as [|y l IH]; intros c ND; simpl.
  - rewrite app_nil_r. reflexivity.
  - assert (A : counter_add y c = c ++ [(y, 1%nat)]).
    { apply NoDup_remove_2 in ND.
      assert (Hy : ~ In y (map fst c)) by (intros H; apply ND, in_or_app; auto).
      clear -Hy. induction c as [|[k n] c IHc]; simpl; [reflexivity|].
      simpl in Hy. destruct (PyStr.eqb k y) eqn:E.
      - apply PyStrFacts.eqb_eq in E. tauto.
      - rewrite IHc; [reflexivity | tauto]. }
    rewrite A, IH.
    + rewrite <- app_assoc. reflexivity.
    + rewrite map_app. simpl. rewrite <- app_assoc. simpl.
      apply NoDup_Add with (a := y) (l := map fst c ++ l).
      * apply Add_app.
      * apply NoDup_remove in ND. exact ND.
Qed.

Lemma max_count_ones (l : list str) (best : str * nat) :
  (1 <= snd best)%nat -> max_count best (map (fun x => (x, 1%nat)) l) = best.
Proof.
  revert best; induction l as [|y l IH]; intros best H; simpl; [reflexivity|].
  replace (snd best <? 1)%nat with false by (symmetry; apply Nat.ltb_ge; lia).
  apply IH. exact H.
Qed.

Lemma get_majority_speaker_NoDup (speakers : list str) :
  NoDup speakers -> get_majority_speaker speakers = hd_error speakers.
Proof.
  intros ND. destruct speakers as [|a [|b l]]; try reflexivity.
  unfold get_majority_speaker, Counter.
  rewrite Counter_NoDup_fold by exact ND.
  cbn [app].
  change (map (fun x : str => (x, 1%nat)) (a :: b :: l))
    with ((a, 1%nat) :: map (fun x : str => (x, 1%nat)) (b :: l)).
  cbn [most_common_1]. rewrite max_count_ones by (simpl; lia). reflexivity.
Qed.

(** X2.  On a list without repetition, as [list(set(...))] is, the
    majority speaker is the first element of the list. *)
Theorem majority_speaker_of_set (speakers : list str) :
  NoDup speakers -> get_majority_speaker speakers = hd_error speakers.
Proof. apply get_majority_speaker_NoDup. Qed.

Lemma majority_speaker_of_set_witness :
  NoDup [lit "Bob"; lit "Alice"; lit "Carol"]
  /\ get_majority_speaker [lit "Bob"; lit "Alice"; lit "Carol"] = Some (lit "Bob").
Proof.
  assert (ND : NoDup [lit "Bob"; lit "Alice"; lit "Carol"]).
  { repeat constructor; simpl; intuition discriminate. }
  split; [exact ND|]. apply (majority_speaker_of_set _ ND).
Defined.

(** ** Interval speaker assignment *)

Lemma assign_fold_none (set_list : list str -> list str) (tl : list observation)
  (k : interval) (intervals : list interval) (d : list (interval * option str)) :
  dict_get
    (fold_left (fun d iv => dict_set d iv (resolve_interval set_list tl iv))
       intervals d) k = None
  <-> dict_get d k = None
      /\ forall iv, In iv intervals -> interval_eqb iv k = false.
Proof.
  revert d; induction intervals as [|iv ivs IH]; intros d; simpl.
  - split; [intros H; split; [exact H | intros iv []] | tauto].
  - rewrite IH, dict_get_set. destruct (interval_eqb iv k) eqn:E.
    + split; [intros [H _]; discriminate|].
      intros [_ H]. specialize (H iv (or_introl eq_refl)). congruence.
    + split.
      * intros [H1 H2]. split; [exact H1|]. intros iv' [<-|H]; auto.
      * intros [H1 H2]. split; [exact H1|]. intros iv' H. apply H2. auto.
Qed.

(** X3.  The dictionary built by [assign_speakers_to_intervals] has an
    entry for a key exactly when the key equals, bound for bound, an
    interval of the list; and the entry of an interval of the list is the
    first label of the set collected for it, whatever the number of
    observations that carry each label. *)
Theorem assignment_keys_and_values (set_list : list str -> list str)
  (intervals : list interval) (tl : list observation) :
  set_list_ok set_list ->
  (forall k,
      dict_get (assign_speakers_to_intervals set_list intervals tl) k = None
      <-> forall iv, In iv intervals -> interval_eqb iv k = false)
  /\ (forall iv,
         In iv intervals ->
         dict_get (assign_speakers_to_intervals set_list intervals tl) iv
         = Some (hd_error (speakers_in set_list iv tl))).
Proof.
  intros Hs. split.
  - intros k. unfold assign_speakers_to_intervals.
    change (fun (interval_to_speaker : list (interval * option str)) iv =>
              dict_set interval_to_speaker iv
                (get_majority_speaker (speakers_in set_list iv tl)))
      with (fun d iv => dict_set d iv (resolve_interval set_list tl iv)).
    rewrite assign_fold_none. simpl. tauto.
  - intros iv Hin. rewrite (@assign_get set_list tl iv intervals Hin).
    f_equal. apply get_majority_speaker_NoDup.
    apply (@speakers_in_NoDup set_list tl Hs).
Qed.

Lemma assignment_keys_and_values_witness :
  let set_list := nodup str_eq_dec in
  let intervals := [(0, 1); (1, 5)] in
  let tl := [(0, lit "Alice"); (1, lit "Bob"); (2, lit "Bob"); (3, lit "Alice")] in
  set_list_ok set_list
  /\ dict_get (assign_speakers_to_intervals set_list intervals tl) (1, 5)
     = Some (hd_error (speakers_in set_list (1, 5) tl))
  /\ (dict_get (assign_speakers_to_intervals set_list intervals tl) (0, 5) = None
      <-> forall iv, In iv intervals -> interval_eqb iv (0, 5) = false).
Proof.
  intros set_list intervals tl.
  assert (Hs : set_list_ok set_list) by (intros l; apply Permutation_refl).
  destruct (assignment_keys_and_values set_list intervals tl Hs) as [K V].
  split; [exact Hs|]. split; [apply V; simpl; auto | apply K].
Defined.

(** X4.  An observation whose timestamp is the bound shared by two
    neighbouring intervals is collected for both of them. *)
Theorem boundary_observation_in_both (set_list : list str -> list str)
  (tl : list observation) (a b c : Q) (s : observation) :
  set_list_ok set_list ->
  In s tl -> obs_time s == b -> a <= b -> b <= c ->
  In (obs_label s) (speakers_in set_list (a, b) tl)
  /\ In (obs_label s) (speakers_in set_list (b, c) tl).
Proof.
  intros Hs Hin E Hab Hbc.
  split; apply (@speakers_in_spec set_list tl Hs); exists s; simpl;
    (split; [exact Hin|]); (split; [|reflexivity]); rewrite E; split;
    try assumption; apply Qle_refl.
Qed.

Lemma boundary_observation_in_both_witness :
  let set_list := nodup str_eq_dec in
  let tl := [(0, lit "Alice"); (5, lit "Bob")] in
  (set_list_ok set_list /\ In (5, lit "Bob") tl /\ obs_time (5, lit "Bob") == 5
   /\ 1 <= 5 /\ 5 <= 11 # 2)
  /\ In (lit "Bob") (speakers_in set_list (1, 5) tl)
  /\ In (lit "Bob") (speakers_in set_list (5, 11 # 2) tl).
Proof.
  intros set_list tl.
  assert (Hs : set_list_ok set_list) by (intros l; apply Permutation_refl).
  assert (Hin : In (5, lit "Bob") tl) by (simpl; auto).
  assert (E : obs_time (5, lit "Bob") == 5) by reflexivity.
  assert (H1 : 1 <= 5) by lra.
  assert (H2 : 5 <= 11 # 2) by lra.
  split; [tauto|].
  apply (boundary_observation_in_both set_list tl 1 5 (11 # 2) (5, lit "Bob")
           Hs Hin E H1 H2).
Defined.

(** ** Shape of the interval list *)

Lemma consecutive_pairs_chained (l : list Q) : chained (consecutive_pairs l).
Proof.
  unfold chained. induction l as [|x [|y l] IH]; intros i a b Ha Hb.
  - destruct i; discriminate.
  - destruct i; discriminate.
  - change (consecutive_pairs (x :: y :: l))
      with ((x, y) :: consecutive_pairs (y :: l)) in Ha, Hb.
    destruct i as [|i].
    + simpl in Ha. injection Ha as <-. simpl in Hb.
      destruct l as [|z l]; [discriminate|].
      change (consecutive_pairs (y :: z :: l))
        with ((y, z) :: consecutive_pairs (z :: l)) in Hb.
      simpl in Hb. injection Hb as <-. reflexivity.
    + simpl in Ha, Hb. exact (IH i a b Ha Hb).
Qed.

Lemma consecutive_pairs_length (l : list Q) :
  length (consecutive_pairs l) = (length l - 1)%nat.
Proof.
  induction l as [|x [|y l] IH]; try reflexivity.
  change (consecutive_pairs (x :: y :: l))
    with ((x, y) :: consecutive_pairs (y :: l)).
  simpl length in *. rewrite IH. lia.
Qed.

Lemma insert_sorted_length (x : Q) (l : list Q) :
  length (insert_sorted x l) = S (length l).
Proof.
  induction l as [|y l IH]; simpl; [reflexivity|].
  destruct (Qle_bool x y); simpl; [reflexivity | rewrite IH; reflexivity].
Qed.

Lemma sorted_length (l : list Q) : length (sorted l) = length l.
Proof.
  induction l as [|x l IH]; simpl; [reflexivity|].
  rewrite insert_sorted_length, IH. reflexivity.
Qed.

Lemma set_add_length (x : Q) (s : list Q) :
  (length (set_add x s) <= S (length s))%nat.
Proof.
  induction s as [|y s IH]; simpl; [lia|].
  destruct (Qeq_bool y x); simpl; lia.
Qed.

Lemma py_set_length (l : list Q) : (length (py_set l) <= length l)%nat.
Proof.
  unfold py_set.
  assert (G : forall s, (length (fold_left (fun s x => set_add x s) l s)
                         <= length s + length l)%nat).
  { induction l as [|x l IH]; intros s; simpl; [lia|].
    specialize (IH (set_add x s)). pose proof (set_add_length x s). lia. }
  apply (G []).
Qed.

Lemma sorted_In (l : list Q) (x : Q) : In x (sorted l) -> In x l.
Proof.
  intros H.
  assert (E : Exists (eq x) (sorted l)) by (apply Exists_exists; eauto).
  apply (proj1 (Exists_sorted (eq x) l)) in E.
  apply Exists_exists in E. destruct E as (y & Hy & ->). exact Hy.
Qed.

Lemma segment_points_length (segments : list segment) :
  length (segment_points segments) = (2 * length segments)%nat.
Proof.
  unfold segment_points. induction segments as [|s segs IH]; [reflexivity|].
  cbn [flat_map app length]. rewrite IH. lia.
Qed.

(** X5.  The intervals are chained: each ends where the next one starts.
    Both bounds of every interval are bounds of segments, [n] segments
    give at most [2n - 1] intervals, and no segment gives no interval. *)
Theorem intervals_chained_on_segment_bounds (segments : list segment)
  (words : list timed_word) :
  let ivs := extract_speech_intervals segments words in
  chained ivs
  /\ Forall (fun iv => In (fst iv) (segment_points segments)
                       /\ In (snd iv) (segment_points segments)) ivs
  /\ (length ivs <= 2 * length segments - 1)%nat.
Proof.
  intros ivs. unfold ivs. rewrite extract_speech_intervals_points.
  split; [apply consecutive_pairs_chained|]. split.
  - apply Forall_forall. intros [p q] H. simpl.
    apply consecutive_pairs_In in H. destruct H as [Hp Hq].
    destruct (py_set_spec (segment_points segments)) as (_ & _ & J).
    split; apply J, sorted_In; assumption.
  - rewrite consecutive_pairs_length, sorted_length.
    pose proof (py_set_length (segment_points segments)) as L.
    pose proof (segment_points_length segments). lia.
Qed.

(** X6.  The list of words has no part in the result of
    [extract_speech_intervals]: any two word lists give the same intervals
    for the same segments. *)
Theorem intervals_independent_of_words (segments : list segment)
  (words words' : list timed_word) :
  extract_speech_intervals segments words
  = extract_speech_intervals segments words'.
Proof.
  unfold extract_speech_intervals.
  destruct (scan_words words None []), (scan_words words' None []). reflexivity.
Qed.

(** ** More on the denoiser *)

Lemma Subseq_length {A : Type} (s l : list A) :
  Subseq s l -> (length s <= length l)%nat.
Proof. induction 1; simpl; lia. Qed.

Lemma Subseq_In {A : Type} (s l : list A) (x : A) :
  Subseq s l -> In x s -> In x l.
Proof.
  induction 1; simpl; intros Hin; auto. destruct Hin; auto.
Qed.

Lemma Subseq_StronglySorted {A : Type} (R : A -> A -> Prop) (s l : list A) :
  Subseq s l -> StronglySorted R l -> StronglySorted R s.
Proof.
  induction 1; intros S; trivial.
  - inversion S; subst. auto.
  - inversion S; subst. constructor; [auto|].
    apply Forall_forall. intros y Hy. rewrite Forall_forall in H3.
    apply H3. eapply Subseq_In; eassumption.
Qed.

Lemma filter_noisy_speakers_Subseq (raw : list observation) :
  Subseq (filter_noisy_speakers raw) raw.
Proof.
  rewrite filter_noisy_speakers_spec. apply Subseq_filter_enumerate.
Qed.

(** X7.  Denoising never lengthens the timeline, every observation it
    returns is an observation of the raw timeline, and a raw timeline
    whose timestamps never decrease is cleaned into one whose timestamps
    never decrease. *)
Theorem denoiser_keeps_time_order (raw : list observation) :
  (length (filter_noisy_speakers raw) <= length raw)%nat
  /\ (forall o, In o (filter_noisy_speakers raw) -> In o raw)
  /\ (time_ordered raw -> time_ordered (filter_noisy_speakers raw)).
Proof.
  pose proof (filter_noisy_speakers_Subseq raw) as S.
  split; [apply Subseq_length; exact S|].
  split; [intros o; apply Subseq_In; exact S|].
  apply Subseq_StronglySorted; exact S.
Qed.

Lemma denoiser_keeps_time_order_witness :
  let raw := [(0, lit "Al Bo"); (1, lit "Cy Di"); (2, lit "Al Bo");
              (3, lit "Al Bo")] in
  time_ordered raw /\ time_ordered (filter_noisy_speakers raw).
Proof.
  intros raw.
  assert (T : time_ordered raw).
  { unfold time_ordered, raw, obs_time.
    repeat (constructor; simpl; try lra). }
  split; [exact T|]. apply (denoiser_keeps_time_order raw). exact T.
Defined.

Lemma map_snd_enumerate {A : Type} (l : list A) (i : nat) :
  map snd (enumerate i l) = l.
Proof.
  revert i; induction l as [|x l IH]; intros i; [reflexivity|].
  rewrite enumerate_cons. simpl. rewrite IH. reflexivity.
Qed.

Lemma filter_all {A : Type} (p : A -> bool) (l : list A) :
  Forall (fun x => p x = true) l -> filter p l = l.
Proof.
  induction 1; simpl; [reflexivity|]. rewrite H, IHForall. reflexivity.
Qed.

Lemma filter_same_length {A : Type} (p : A -> bool) (l : list A) :
  length (filter p l) = length l -> Forall (fun x => p x = true) l.
Proof.
  induction l as [|x l IH]; simpl; intros H; [constructor|].
  pose proof (filter_length_le p l) as L.
  destruct (p x) eqn:P; simpl in H; [|lia].
  constructor; [exact P | apply IH; lia].
Qed.

Lemma enumerate_In {A : Type} (l : list A) (k i : nat) (x : A) :
  nth_error l i = Some x -> In ((k + i)%nat, x) (enumerate k l).
Proof.
  revert k i; induction l as [|y l IH]; intros k i H; [destruct i; discriminate|].
  rewrite enumerate_cons. destruct i as [|i]; simpl in H.
  - injection H as ->. left. f_equal. lia.
  - right. replace (k + S i)%nat with (S k + i)%nat by lia. apply IH. exact H.
Qed.

Lemma enumerate_length {A : Type} (l : list A) (k : nat) :
  length (enumerate k l) = length l.
Proof.
  unfold enumerate. rewrite length_combine, length_seq. lia.
Qed.

Lemma enumerate_bound {A : Type} (l : list A) (k i : nat) (x : A) :
  In (i, x) (enumerate k l) -> (k <= i < k + length l)%nat.
Proof.
  unfold enumerate. intros H. apply in_combine_l in H. apply in_seq in H. lia.
Qed.

Lemma flicker_out_of_range (tl : list observation) (i : nat) :
  (length tl <= S i)%nat -> flicker tl i = false.
Proof.
  intros H. unfold flicker.
  replace (S i <? length tl)%nat with false by (symmetry; apply Nat.ltb_ge; lia).
  rewrite andb_false_r. reflexivity.
Qed.

(** The denoiser returns its argument exactly when no position of it is a
    flicker. *)
Lemma remove_flickers_fixed (tl : list observation) :
  remove_flickers tl = tl <-> forall i, flicker tl i = false.
Proof.
  unfold remove_flickers. split.
  - intros E i.
    destruct (Nat.lt_ge_cases (S i) (length tl)) as [Lt|Ge];
      [|apply flicker_out_of_range; lia].
    assert (L : length (filter (fun p => negb (flicker tl (fst p))) (enumerate 0 tl))
                = length (enumerate 0 tl)).
    { rewrite enumerate_length. rewrite <- E at 2. rewrite length_map. reflexivity. }
    apply filter_same_length in L. rewrite Forall_forall in L.
    destruct (nth_error tl i) as [x|] eqn:N.
    + specialize (L _ (enumerate_In tl 0 i x N)). simpl in L.
      destruct (flicker tl i); [discriminate | reflexivity].
    + apply nth_error_None in N. lia.
  - intros H. rewrite filter_all; [apply map_snd_enumerate|].
    apply Forall_forall. intros [i x] _. simpl. rewrite H. reflexivity.
Qed.

Lemma nth_middle' {A : Type} (pre post : list A) (x d : A) (i : nat) :
  i = length pre -> nth i (pre ++ x :: post) d = x.
Proof. intros ->. apply nth_middle. Qed.

Lemma filter_loop_clean (tl : list observation) :
  forall (rest pre : list observation) (p : observation)
         (filtered : list observation),
    tl = pre ++ p :: rest ->
    filter_loop tl (S (length pre)) rest filtered
    = filtered ++ clean_from (snd p) rest.
Proof.
  induction rest as [|x rest IH]; intros pre p filtered E.
  - simpl. rewrite app_nil_r. reflexivity.
  - assert (E' : tl = (pre ++ [p]) ++ x :: rest)
      by (rewrite <- app_assoc; exact E).
    assert (L' : length (pre ++ [p]) = S (length pre))
      by (rewrite length_app; simpl; lia).
    assert (Len : length tl = (length pre + 2 + length rest)%nat)
      by (rewrite E, length_app; simpl; lia).
    cbn [filter_loop clean_from].
    replace (S (length pre) =? 0)%nat with false by reflexivity.
    destruct rest as [|y rest].
    + replace (S (length pre) =? length tl - 1)%nat with true
        by (symmetry; apply Nat.eqb_eq; simpl in Len; lia).
      reflexivity.
    + replace (S (length pre) =? length tl - 1)%nat with false
        by (symmetry; apply Nat.eqb_neq; simpl in Len; lia).
      cbn [orb].
      replace (nth (S (length pre) - 1) tl x) with p.
      2:{ rewrite E. symmetry. apply nth_middle'. lia. }
      replace (nth (S (length pre) + 1) tl x) with y.
      2:{ replace tl with ((pre ++ [p; x]) ++ y :: rest)
            by (rewrite E, <- app_assoc; reflexivity).
          symmetry. apply nth_middle'. rewrite length_app. simpl. lia. }
      rewrite <- L'.
      destruct (negb (PyStr.eqb (snd x) (snd p))
                && negb (PyStr.eqb (snd x) (snd y))).
      * apply (IH (pre ++ [p]) x filtered E').
      * rewrite (IH (pre ++ [p]) x (filtered ++ [x]) E'), <- app_assoc.
        reflexivity.
Qed.

Lemma filter_noisy_speakers_cons (x : observation) (r : list observation) :
  filter_noisy_speakers (x :: r) = x :: clean_from (snd x) r.
Proof.
  unfold filter_noisy_speakers. cbn [filter_loop Nat.eqb orb].
  apply (filter_loop_clean (x :: r) r [] x [x]). reflexivity.
Qed.

Lemma clean_from_head (prev : str) (y : observation) (r : list observation) :
  snd y = prev -> exists r', clean_from prev (y :: r) = y :: r'.
Proof.
  intros E. destruct r as [|z r]; simpl; [eauto|].
  rewrite E, PyStrFacts.eqb_refl. simpl. eauto.
Qed.

Lemma clean_from_nonempty (prev : str) (y : observation) (r : list observation) :
  clean_from prev (y :: r) <> [].
Proof.
  revert prev y; induction r as [|z r IH]; intros prev y; [discriminate|].
  cbn [clean_from].
  destruct (negb (PyStr.eqb (snd y) prev) && negb (PyStr.eqb (snd y) (snd z)));
    [apply IH | discriminate].
Qed.

Lemma clean_from_cons2 (prev : str) (x y : observation) (r : list observation) :
  clean_from prev (x :: y :: r)
  = if negb (PyStr.eqb (snd x) prev) && negb (PyStr.eqb (snd x) (snd y))
    then clean_from (snd x) (y :: r)
    else x :: clean_from (snd x) (y :: r).
Proof. reflexivity. Qed.

(** Cleaning what was cleaned changes nothing.  [p] is the raw label before
    [l] and [q] the label kept last before it; they differ only when the
    raw label was dropped, and then it is not the label at the head. *)
Lemma clean_from_again (l : list observation) :
  forall p q : str,
    (q = p \/ match l with x :: _ => snd x <> p | [] => True end) ->
    clean_from q (clean_from p l) = clean_from p l.
Proof.
  induction l as [|x l IH]; intros p q H; [reflexivity|].
  destruct l as [|y r]; [reflexivity|].
  rewrite (clean_from_cons2 p x y r).
  destruct (PyStr.eqb (snd x) p) eqn:Exp; cbn [negb andb].
  - (* the head has the label before it: it is kept *)
    apply PyStrFacts.eqb_eq in Exp.
    assert (Q : q = p) by (destruct H as [H|H]; [exact H | contradiction]).
    destruct (clean_from (snd x) (y :: r)) as [|z o] eqn:C;
      [exfalso; exact (clean_from_nonempty _ _ _ C)|].
    rewrite (clean_from_cons2 q x z o).
    rewrite Q, <- Exp, PyStrFacts.eqb_refl. cbn [negb andb].
    f_equal. rewrite <- C. apply IH. left. reflexivity.
  - destruct (PyStr.eqb (snd x) (snd y)) eqn:Exy; cbn [negb].
    + (* the head has the label after it: it is kept *)
      apply PyStrFacts.eqb_eq in Exy.
      destruct (clean_from_head (snd x) y r (eq_sym Exy)) as (o & C).
      rewrite C. rewrite (clean_from_cons2 q x y o).
      rewrite Exy, PyStrFacts.eqb_refl, andb_false_r.
      f_equal. rewrite <- C. rewrite <- Exy. apply IH. left. reflexivity.
    + (* the head is a flicker: it is dropped *)
      apply IH. right. apply PyStrFacts.eqb_neq in Exy. congruence.
Qed.

(** X8.  One pass of the denoiser is enough: cleaning a cleaned timeline
    returns it unchanged, and no position of a cleaned timeline is a
    flicker. *)
Theorem denoiser_idempotent (raw : list observation) :
  filter_noisy_speakers (filter_noisy_speakers raw) = filter_noisy_speakers raw
  /\ forall i, flicker (filter_noisy_speakers raw) i = false.
Proof.
  assert (I : filter_noisy_speakers (filter_noisy_speakers raw)
              = filter_noisy_speakers raw).
  { destruct raw as [|x r]; [reflexivity|].
    rewrite (filter_noisy_speakers_cons x r), filter_noisy_speakers_cons.
    f_equal. apply clean_from_again. left. reflexivity. }
  split; [exact I|].
  apply remove_flickers_fixed. rewrite <- filter_noisy_speakers_spec. exact I.
Qed.

(** X9.  The denoiser returns a timeline unchanged exactly when no
    position of it is a flicker; a timeline of two observations or fewer
    is always returned unchanged. *)
Theorem denoiser_fixed_points (raw : list observation) :
  (filter_noisy_speakers raw = raw <-> forall i, flicker raw i = false)
  /\ ((length raw <= 2)%nat -> filter_noisy_speakers raw = raw).
Proof.
  rewrite filter_noisy_speakers_spec.
  split; [apply remove_flickers_fixed|].
  intros L. apply remove_flickers_fixed. intros i.
  destruct i as [|i]; [reflexivity|]. apply flicker_out_of_range. lia.
Qed.

Lemma denoiser_fixed_points_witness :
  let raw := [(0, lit "Al Bo"); (1, lit "Cy Di")] in
  (length raw <= 2)%nat /\ filter_noisy_speakers raw = raw.
Proof.
  intros raw. assert (L : (length raw <= 2)%nat) by (simpl; lia).
  split; [exact L|]. apply (denoiser_fixed_points raw). exact L.
Defined.

(** ** More on the sampler *)

(** A property of the loop variables that every iteration keeps holds when
    the loop is left. *)
Lemma sample_loop_invariant (fps : Q) (video : list frame) (frame_skip : Z)
  (P : Z -> list observation -> option str -> Prop) :
  (forall frame_idx fr results last,
      read video frame_idx = Some fr ->
      P frame_idx results last ->
      P (frame_idx + frame_skip)%Z
        (fst (sample_step fps frame_idx fr results last))
        (snd (sample_step fps frame_idx fr results last))) ->
  forall fuel frame_idx results last r,
    P frame_idx results last ->
    sample_loop fps video frame_skip fuel frame_idx results last = Some r ->
    exists frame_idx' last', P frame_idx' r last'.
Proof.
  intros Step. induction fuel as [|fuel IH]; intros frame_idx results last r H E;
    [discriminate|].
  cbn [sample_loop] in E. destruct (read video frame_idx) as [fr|] eqn:R.
  - specialize (Step frame_idx fr results last R H).
    destruct (sample_step fps frame_idx fr results last) as [results' last'].
    exact (IH _ _ _ _ Step E).
  - injection E as <-. eauto.
Qed.

Lemma sample_frames_loop (fps : Q) (video : list frame) (raw : list observation) :
  sample_frames fps video = Some (Ok raw) ->
  py_int (fps * FRAME_INTERVAL) <> 0%Z
  /\ sample_loop fps video (py_int (fps * FRAME_INTERVAL)) (S (length video))
       0 [] None = Some raw.
Proof.
  unfold sample_frames.
  destruct (Z.eqb_spec (py_int (fps * FRAME_INTERVAL)) 0) as [Z0|NZ];
    [discriminate|].
  destruct (sample_loop fps video (py_int (fps * FRAME_INTERVAL))
              (S (length video)) 0 [] None) as [r|]; [|discriminate].
  intros H. injection H as ->. auto.
Qed.

Lemma extract_speaker_labels_raw (fps : Q) (video : list frame)
  (timeline : list observation) :
  extract_speaker_labels fps video = Some (Ok timeline) ->
  exists raw, sample_frames fps video = Some (Ok raw)
              /\ timeline = filter_noisy_speakers raw.
Proof.
  unfold extract_speaker_labels.
  destruct (sample_frames fps video) as [[raw|e]|]; try discriminate.
  simpl. intros H. injection H as <-. eauto.
Qed.

(** X10.  Every label of the timeline that [extract_speaker_labels]
    returns is a string that [is_valid_name] accepts: a text that fails
    the validation is never stored, neither at once nor as the speaker
    carried forward. *)
Theorem timeline_labels_valid (fps : Q) (video : list frame)
  (timeline : list observation) :
  extract_speaker_labels fps video = Some (Ok timeline) ->
  Forall (fun o => is_valid_name (obs_label o) = true) timeline.
Proof.
  intros H. destruct (extract_speaker_labels_raw _ _ _ H) as (raw & Sf & ->).
  destruct (sample_frames_loop _ _ _ Sf) as [_ L].
  set (valid := fun o : observation => is_valid_name (obs_label o) = true).
  assert (Fr : Forall valid raw).
  { destruct (sample_loop_invariant fps video (py_int (fps * FRAME_INTERVAL))
                (fun _ results last =>
                   Forall valid results
                   /\ forall l, last = Some l -> is_valid_name l = true))
      with (fuel := S (length video)) (frame_idx := 0%Z)
           (results := @nil observation) (last := @None str) (r := raw)
      as (i & l & F & _); trivial.
    - intros idx fr results last _ [F V].
      destruct (sample_step_cases fps idx fr results last)
        as [(box & t & _ & Vt & ->)|[(l & -> & ->)|(-> & ->)]]; cbn [fst snd].
      + split; [|intros l E; injection E as <-; exact Vt].
        apply Forall_app. split; [exact F|]. repeat constructor. exact Vt.
      + split; [|exact V].
        apply Forall_app. split; [exact F|]. repeat constructor.
        apply V. reflexivity.
      + split; [exact F | exact V].
    - split; [constructor | discriminate]. }
  apply Forall_forall. intros o Ho. rewrite Forall_forall in Fr. apply Fr.
  exact (Subseq_In _ _ o (filter_noisy_speakers_Subseq raw) Ho).
Qed.

Lemma py_int_fps_positive (fps : Q) :
  1 <= fps -> (1 <= py_int (fps * FRAME_INTERVAL))%Z.
Proof.
  intros H. unfold py_int, FRAME_INTERVAL.
  assert (E : fps * 1 == fps) by ring.
  replace (Qle_bool 0 (fps * 1)) with true
    by (symmetry; apply Qle_bool_iff; rewrite E; lra).
  rewrite (Qfloor_comp _ _ E).
  change 1%Z with (Qfloor 1). apply Qfloor_resp_le. exact H.
Qed.

Lemma frame_timestamp_monotone (fps : Q) (i j : Z) :
  0 < fps -> (i <= j)%Z -> frame_timestamp fps i <= frame_timestamp fps j.
Proof.
  intros Hf Hij. unfold frame_timestamp. cbn [VOICE_TIMESTAMP_OFFSET].
  assert (I : float_of_int i <= float_of_int j).
  { apply round_double_mono. rewrite <- Zle_Qle. exact Hij. }
  assert (P : 0 <= round_double fps).
  { rewrite <- round_double_0. apply round_double_mono. lra. }
  assert (D : float_div (float_of_int i) fps <= float_div (float_of_int j) fps).
  { apply round_double_mono. unfold Qdiv.
    apply Qmult_le_compat_r; [apply round_double_mono; exact I|].
    apply Qinv_le_0_compat. exact P. }
  assert (S : float_sub (float_div (float_of_int i) fps) (5 # 2)
              <= float_sub (float_div (float_of_int j) fps) (5 # 2)).
  { apply round_double_mono.
    pose proof (round_double_mono _ _ D). lra. }
  set (a := float_sub (float_div (float_of_int i) fps) (5 # 2)) in *.
  set (b := float_sub (float_div (float_of_int j) fps) (5 # 2)) in *.
  clearbody a b. unfold py_max.
  destruct (Qle_bool a 0) eqn:A;
    [apply Qle_bool_iff in A | apply Qle_bool_false in A];
    (destruct (Qle_bool b 0) eqn:B;
     [apply Qle_bool_iff in B | apply Qle_bool_false in B]); lra.
Qed.

Lemma time_ordered_snoc (tl : list observation) (o : observation) :
  time_ordered tl -> Forall (fun a => obs_time a <= obs_time o) tl ->
  time_ordered (tl ++ [o]).
Proof.
  unfold time_ordered. induction tl as [|a tl IH]; simpl; intros S F.
  - repeat constructor.
  - inversion S; subst. inversion F; subst. constructor; [auto|].
    apply Forall_app. split; [assumption|]. repeat constructor. assumption.
Qed.

(** X11.  At a frame rate of one frame per second or more, the sampler
    returns a timeline, and its timestamps never decrease, before
    denoising and after. *)
Theorem timeline_time_ordered (fps : Q) (video : list frame) :
  1 <= fps ->
  exists raw timeline,
    sample_frames fps video = Some (Ok raw)
    /\ extract_speaker_labels fps video = Some (Ok timeline)
    /\ time_ordered raw /\ time_ordered timeline.
Proof.
  intros Hf. pose proof (py_int_fps_positive fps Hf) as Sk.
  set (skip := py_int (fps * FRAME_INTERVAL)) in *.
  destruct (@sample_loop_spec fps video skip (S (length video)) 0%Z [] None)
    as (raw & E & _); [lia | lia | exists 0%Z; lia | constructor |].
  assert (Sf : sample_frames fps video = Some (Ok raw)).
  { unfold sample_frames. fold skip.
    destruct (Z.eqb_spec skip 0) as [Z0|NZ]; [lia|]. rewrite E. reflexivity. }
  assert (T : time_ordered raw).
  { destruct (sample_loop_invariant fps video skip
                (fun idx results _ =>
                   time_ordered results
                   /\ Forall (fun a => obs_time a <= frame_timestamp fps idx)
                        results))
      with (fuel := S (length video)) (frame_idx := 0%Z)
           (results := @nil observation) (last := @None str) (r := raw)
      as (i & l & T & _); trivial.
    - intros idx fr results last _ [T F].
      assert (M : frame_timestamp fps idx <= frame_timestamp fps (idx + skip))
        by (apply frame_timestamp_monotone; [lra | lia]).
      assert (F' : Forall (fun a => obs_time a <= frame_timestamp fps (idx + skip))
                     results).
      { eapply Forall_impl; [|exact F]. simpl. intros a Ha. lra. }
      destruct (sample_step_cases fps idx fr results last)
        as [(box & t & _ & _ & ->)|[(l & _ & ->)|(_ & ->)]]; cbn [fst snd];
        try (split; [apply time_ordered_snoc; assumption|];
             apply Forall_app; split; [exact F'|]; repeat constructor; exact M).
      split; assumption.
    - split; constructor. }
  exists raw, (filter_noisy_speakers raw).
  split; [exact Sf|]. split; [unfold extract_speaker_labels; rewrite Sf; reflexivity|].
  split; [exact T|]. apply (Subseq_StronglySorted _ _ _ (filter_noisy_speakers_Subseq raw) T).
Qed.

(** X12.  When the frame rate does not truncate to 0 and no crop of any
    frame shows a text that passes the validation, the sampler returns the
    empty timeline: nothing is emitted before a first valid name. *)
Theorem no_valid_name_empty_timeline (fps : Q) (video : list frame) :
  py_int (fps * FRAME_INTERVAL) <> 0%Z ->
  (forall fr box t,
      In fr video -> try_ocr fr box = Some t ->
      is_valid_name (PyStr.replace 48 79 t) = false) ->
  extract_speaker_labels fps video = Some (Ok []).
Proof.
  intros NZ Bad.
  set (skip := py_int (fps * FRAME_INTERVAL)) in *.
  destruct (@sample_loop_spec fps video skip (S (length video)) 0%Z [] None)
    as (raw & E & _); [lia | lia | exists 0%Z; lia | constructor |].
  assert (R : raw = []).
  { destruct (sample_loop_invariant fps video skip
                (fun _ results last => results = [] /\ last = None))
      with (fuel := S (length video)) (frame_idx := 0%Z)
           (results := @nil observation) (last := @None str) (r := raw)
      as (i & l & R & _); trivial; [|auto].
    intros idx fr results last Rd [-> ->].
    assert (Hin : In fr video).
    { unfold read in Rd. destruct (idx <? 0)%Z; [discriminate|].
      eapply nth_error_In; exact Rd. }
    destruct (sample_step_cases fps idx fr [] None)
      as [(box & t & O & V & _)|[(l & Bd & _)|(_ & ->)]]; cbn [fst snd];
      [|discriminate|auto].
    rewrite (Bad fr box t Hin O) in V. discriminate. }
  subst raw. unfold extract_speaker_labels, sample_frames. fold skip.
  destruct (Z.eqb_spec skip 0) as [Z0|_]; [contradiction|].
  rewrite E. reflexivity.
Qed.

Lemma timeline_labels_valid_witness :
  let fr : frame :=
    fun box => match box with
               | PRIMARY_CROP_BOX => [lit " 0tto Hahn "]
               | SECONDARY_CROP_BOX => []
               end in
  let timeline := [(0, lit "Otto Hahn"); (0, lit "Otto Hahn"); (0, lit "Otto Hahn")] in
  extract_speaker_labels 1 [fr; fr; fr] = Some (Ok timeline)
  /\ Forall (fun o => is_valid_name (obs_label o) = true) timeline.
Proof.
  intros fr timeline.
  assert (H : extract_speaker_labels 1 [fr; fr; fr] = Some (Ok timeline))
    by (vm_compute; reflexivity).
  split; [exact H|]. exact (timeline_labels_valid 1 [fr; fr; fr] timeline H).
Defined.

Lemma timeline_time_ordered_witness :
  let fr : frame :=
    fun box => match box with
               | PRIMARY_CROP_BOX => [lit "Al Bo"]
               | SECONDARY_CROP_BOX => []
               end in
  1 <= 2
  /\ exists raw timeline,
      sample_frames 2 [fr; fr; fr; fr; fr; fr; fr] = Some (Ok raw)
      /\ extract_speaker_labels 2 [fr; fr; fr; fr; fr; fr; fr] = Some (Ok timeline)
      /\ time_ordered raw /\ time_ordered timeline.
Proof.
  intros fr. assert (H : 1 <= 2) by lra.
  split; [exact H|]. exact (timeline_time_ordered 2 [fr; fr; fr; fr; fr; fr; fr] H).
Defined.

Lemma no_valid_name_empty_timeline_witness :
  let fr : frame :=
    fun box => match box with
               | PRIMARY_CROP_BOX => [lit "hello world"]
               | SECONDARY_CROP_BOX => [lit "REC"]
               end in
  (py_int (1 * FRAME_INTERVAL) <> 0%Z
   /\ forall fr' box t,
       In fr' [fr; fr] -> try_ocr fr' box = Some t ->
       is_valid_name (PyStr.replace 48 79 t) = false)
  /\ extract_speaker_labels 1 [fr; fr] = Some (Ok []).
Proof.
  intros fr.
  assert (NZ : py_int (1 * FRAME_INTERVAL) <> 0%Z) by (vm_compute; discriminate).
  assert (Bad : forall fr' box t,
             In fr' [fr; fr] -> try_ocr fr' box = Some t ->
             is_valid_name (PyStr.replace 48 79 t) = false).
  { intros fr' box t Hin O.
    assert (E : fr' = fr) by (destruct Hin as [<-|[<-|[]]]; reflexivity).
    subst fr'. destruct box; vm_compute in O; injection O as <-;
      vm_compute; reflexivity. }
  split; [split; assumption|].
  exact (no_valid_name_empty_timeline 1 [fr; fr] NZ Bad).
Defined.

(** ** What a valid name looks like *)

Lemma small_chars_checked (P : N -> bool) :
  forallb P (map N.of_nat (seq 0 256)) = true ->
  forall c, (c < 256)%N -> P c = true.
Proof.
  intros H c Hc. rewrite forallb_forall in H. apply H.
  rewrite <- (N2Nat.id c). apply in_map. apply in_seq. lia.
Qed.

Lemma class_char_small (c : N) : class_char c = true -> (c < 256)%N.
Proof.
  unfold class_char, upper, lower, Re.in_range. intros H.
  repeat (apply orb_true_iff in H; destruct H as [H|H]);
    apply andb_true_iff in H; destruct H as [_ H]; apply N.leb_le in H; lia.
Qed.

Lemma class_char_not_space (c : N) : class_char c = true -> PyStr.isspace c = false.
Proof.
  intros H. pose proof (class_char_small c H) as S.
  pose proof (small_chars_checked
                (fun c => implb (class_char c) (negb (PyStr.isspace c)))
                ltac:(vm_compute; reflexivity) c S) as K.
  cbv beta in K. rewrite H in K. simpl in K.
  destruct (PyStr.isspace c); [discriminate | reflexivity].
Qed.

(** [t] ends with a character of the two classes. *)
Lemma capitalized_ends_in_class (n : nat) (w : str) :
  capitalized n w -> exists pre l, w = pre ++ [l] /\ class_char l = true.
Proof.
  intros (c & rest & -> & U & L & _).
  destruct (exists_last (l := c :: rest)) as (pre & l & E); [discriminate|].
  exists pre, l. split; [exact E|].
  assert (Hin : In l (c :: rest)) by (rewrite E; apply in_or_app; right; left; reflexivity).
  unfold class_char. destruct Hin as [<-|Hin]; [rewrite U; reflexivity|].
  rewrite Forall_forall in L. rewrite (L l Hin). apply orb_true_r.
Qed.

Lemma token_ends_in_class (t : str) :
  name_token t -> exists pre l, t = pre ++ [l] /\ class_char l = true.
Proof.
  intros (h & parts & -> & Hh & Hp).
  destruct parts as [|p0 ps0].
  - simpl. rewrite app_nil_r. exact (capitalized_ends_in_class 0 h Hh).
  - destruct (exists_last (l := p0 :: ps0)) as (ps & p & E); [discriminate|].
    rewrite E in *. apply Forall_app in Hp. destruct Hp as [_ Hp].
    inversion Hp as [|? ? (j & v & -> & _ & Cv) _]; subst.
    destruct (capitalized_ends_in_class 1 v Cv) as (pre & l & -> & Hl).
    exists (h ++ concat ps ++ j :: pre), l. split; [|exact Hl].
    rewrite concat_app. simpl. rewrite app_nil_r.
    rewrite <- !app_assoc. reflexivity.
Qed.

Lemma capitalized_name_chars (n : nat) (w : str) :
  capitalized n w -> Forall (fun c => class_char c = true) w.
Proof.
  intros (c & rest & -> & U & L & _). unfold class_char. constructor.
  - rewrite U. reflexivity.
  - eapply Forall_impl; [|exact L]. simpl. intros d ->. apply orb_true_r.
Qed.

Lemma token_name_chars (t : str) :
  name_token t -> Forall (fun c => name_char c = true) t.
Proof.
  intros (h & parts & -> & Hh & Hp). apply Forall_app. split.
  - eapply Forall_impl; [|exact (capitalized_name_chars 0 h Hh)].
    unfold name_char. simpl. intros c ->. reflexivity.
  - induction Hp as [|p ps (j & v & -> & J & Cv) _ IH]; simpl; [constructor|].
    constructor; [unfold name_char; rewrite J; rewrite orb_true_r; reflexivity|].
    apply Forall_app. split; [|exact IH].
    eapply Forall_impl; [|exact (capitalized_name_chars 1 v Cv)].
    unfold name_char. simpl. intros c ->. reflexivity.
Qed.

Lemma token_starts_upper (t : str) :
  name_token t -> exists c rest, t = c :: rest /\ upper c = true.
Proof.
  intros (h & parts & -> & (c & rest & -> & U & _) & _).
  exists c, (rest ++ concat parts). auto.
Qed.

Lemma strip_class_chars_at_ends (c l : N) (mid : str) :
  class_char c = true -> class_char l = true ->
  PyStr.strip (c :: mid ++ [l]) = c :: mid ++ [l].
Proof.
  intros Hc Hl. unfold PyStr.strip, PyStr.rstrip.
  cbn [PyStr.lstrip]. rewrite (class_char_not_space c Hc).
  change (c :: mid ++ [l]) with ((c :: mid) ++ [l]).
  rewrite rev_app_distr.
  assert (HX : rev (rev (c :: mid)) = c :: mid) by apply rev_involutive.
  set (X := rev (c :: mid)) in *. clearbody X.
  cbn [rev app PyStr.lstrip]. rewrite (class_char_not_space l Hl).
  cbn [rev]. rewrite HX. reflexivity.
Qed.

Lemma spaced_tokens_name_chars (front : list str) :
  Forall spaced_token front -> Forall (fun c => name_char c = true) (concat front).
Proof.
  induction 1 as [|w ws (t & c & -> & T & Sp) _ IH]; simpl; [constructor|].
  rewrite <- app_assoc. apply Forall_app. split; [exact (token_name_chars t T)|].
  constructor; [|exact IH].
  unfold name_char. rewrite Sp. apply orb_true_r.
Qed.

Lemma replace_absent (a b : N) (s : str) :
  ~ In a s -> PyStr.replace a b s = s.
Proof.
  unfold PyStr.replace. induction s as [|c s IH]; simpl; intros H; [reflexivity|].
  destruct (N.eqb_spec c a) as [E|NE]; [exfalso; apply H; auto|].
  rewrite IH; [reflexivity | tauto].
Qed.

(** X13.  A string that [is_valid_name] accepts starts with a character
    of the class [[A-ZÀ-Ý]] of the pattern (the code points 65 to 90 and
    192 to 221) and ends with a character of that class or of the class
    [[a-zà-ÿ]] (97 to 122 and 224 to 255); the classes are ranges of code
    points, and they hold the signs [×] (215) and [÷] (247) besides
    letters.  The string holds a whitespace character, and each of its
    characters is of these classes, a hyphen, an apostrophe or
    whitespace.  Stripping it, or replacing its zeros by the letter O,
    returns it unchanged, so a stored label passes again through the
    steps that produced it. *)
Theorem valid_name_facts (name : str) :
  is_valid_name name = true ->
  (exists c rest, name = c :: rest /\ upper c = true)
  /\ (exists pre l, name = pre ++ [l] /\ class_char l = true)
  /\ Exists (fun c => PyStr.isspace c = true) name
  /\ Forall (fun c => name_char c = true) name
  /\ PyStr.strip name = name
  /\ PyStr.replace 48 79 name = name.
Proof.
  intros V. apply is_valid_name_shape in V.
  destruct V as (front & final & -> & NE & Ff & Tf).
  destruct front as [|w ws]; [congruence|].
  inversion Ff as [|? ? (t & sp & -> & T & Sp) Fws]; subst.
  destruct (token_starts_upper t T) as (c & rest & -> & U).
  destruct (token_ends_in_class final Tf) as (pre & l & -> & Hl).
  set (mid := rest ++ [sp] ++ concat ws ++ pre).
  assert (E : concat (((c :: rest) ++ [sp]) :: ws) ++ pre ++ [l]
              = c :: mid ++ [l]).
  { unfold mid. simpl. rewrite <- !app_assoc. simpl.
    rewrite <- !app_assoc. reflexivity. }
  rewrite E.
  assert (A : Forall (fun c => name_char c = true) (c :: mid ++ [l])).
  { rewrite <- E. apply Forall_app. split.
    - apply spaced_tokens_name_chars. exact Ff.
    - exact (token_name_chars _ Tf). }
  split; [exists c, (mid ++ [l]); auto|].
  split; [exists (c :: mid), l; auto|].
  split.
  { apply Exists_exists. exists sp. split; [|exact Sp].
    right. apply in_or_app. left. unfold mid.
    apply in_or_app. right. left. reflexivity. }
  split; [exact A|].
  split.
  { apply strip_class_chars_at_ends; [unfold class_char; rewrite U; reflexivity | exact Hl]. }
  apply replace_absent. intros Hin.
  rewrite Forall_forall in A. specialize (A _ Hin). vm_compute in A. discriminate.
Qed.

Lemma valid_name_facts_witness :
  let name := [215; 97; 32; 66; 247]%N in
  is_valid_name name = true
  /\ (exists c rest, name = c :: rest /\ upper c = true)
  /\ PyStr.strip name = name
  /\ PyStr.replace 48 79 name = name.
Proof.
  intros name.
  assert (V : is_valid_name name = true) by (vm_compute; reflexivity).
  split; [exact V|].
  destruct (valid_name_facts _ V) as (U & _ & _ & _ & S & R).
  split; [exact U|]. split; assumption.
Defined.

(** ** The speaker of a time on an ordered timeline *)

Lemma StronglySorted_before {A : Type} (R : A -> A -> Prop) (pre post : list A)
  (s : A) :
  StronglySorted R (pre ++ s :: post) -> Forall (fun o => R o s) pre.
Proof.
  induction pre as [|a pre IH]; simpl; intros S; [constructor|].
  inversion S; subst. constructor; [|auto].
  rewrite Forall_forall in H2. apply H2. apply in_or_app. right. left. reflexivity.
Qed.

(** X14.  On a non-empty timeline whose timestamps never decrease,
    [get_current_speaker] returns the label of an observation of the
    timeline: one whose timestamp is the greatest among those not after
    the given time, or, when every observation is after the given time,
    one of the least timestamp. *)
Theorem current_speaker_nearest (t : Q) (intervals : list interval)
  (tl : list observation) :
  tl <> [] -> time_ordered tl ->
  exists s,
    In s tl
    /\ get_current_speaker t intervals tl = Ok (obs_label s)
    /\ ((obs_time s <= t
         /\ forall o, In o tl -> obs_time o <= t -> obs_time o <= obs_time s)
        \/ ((forall o, In o tl -> t < obs_time o)
            /\ forall o, In o tl -> obs_time s <= obs_time o)).
Proof.
  intros NE T. unfold get_current_speaker, obs_time, obs_label.
  destruct (filter (fun s => Qle_bool (fst s) t) tl) as [|c cs] eqn:F.
  - destruct tl as [|s rest]; [contradiction|].
    exists s. split; [left; reflexivity|]. split; [reflexivity|]. right.
    assert (All : forall o, In o (s :: rest) -> t < fst o).
    { intros o Ho. destruct (Qle_bool (fst o) t) eqn:L.
      - assert (In o (filter (fun s => Qle_bool (fst s) t) (s :: rest)))
          by (apply filter_In; auto).
        rewrite F in H. contradiction.
      - apply Qle_bool_false in L. lra. }
    split; [exact All|]. intros o [<-|Ho]; [apply Qle_refl|].
    inversion T; subst. rewrite Forall_forall in H2. exact (H2 o Ho).
  - destruct (@filter_last_split _ _ tl c cs F) as (pre & post & E & P & Fa).
    set (s := last cs c) in *. exists s.
    split; [rewrite E; apply in_or_app; right; left; reflexivity|].
    split; [reflexivity|]. left. apply Qle_bool_iff in P. split; [exact P|].
    intros o Ho Le. rewrite E in Ho, T.
    apply in_app_or in Ho. destruct Ho as [Ho|[<-|Ho]].
    + pose proof (StronglySorted_before _ pre post s T) as B.
      rewrite Forall_forall in B. exact (B o Ho).
    + apply Qle_refl.
    + rewrite Forall_forall in Fa. specialize (Fa o Ho).
      apply Qle_bool_false in Fa. contradiction.
Qed.

Lemma current_speaker_nearest_witness :
  let tl := [(0, lit "Alice"); (5, lit "Bob"); (9, lit "Alice")] in
  (tl <> [] /\ time_ordered tl)
  /\ exists s,
      In s tl
      /\ get_current_speaker 7 [] tl = Ok (obs_label s)
      /\ ((obs_time s <= 7
           /\ forall o, In o tl -> obs_time o <= 7 -> obs_time o <= obs_time s)
          \/ ((forall o, In o tl -> 7 < obs_time o)
              /\ forall o, In o tl -> obs_time s <= obs_time o)).
Proof.
  intros tl.
  assert (NE : tl <> []) by discriminate.
  assert (T : time_ordered tl).
  { unfold time_ordered, tl, obs_time. repeat (constructor; simpl; try lra). }
  split; [split; assumption|]. exact (current_speaker_nearest 7 [] tl NE T).
Defined.

(** ** Lines of the transcript *)

Lemma label_of_In (tl : list observation) (t : Q) :
  tl <> [] -> In (label_of tl t) (map obs_label tl).
Proof.
  intros NE. unfold label_of, speaker_at, get_current_speaker.
  destruct (filter (fun s => Qle_bool (fst s) t) tl) as [|c cs] eqn:F.
  - destruct tl as [|s rest]; [contradiction|]. left. reflexivity.
  - destruct (@filter_last_split _ _ tl c cs F) as (pre & post & E & _).
    rewrite E, map_app. apply in_or_app. right. left. reflexivity.
Qed.

Lemma speaker_runs_alternating (tl : list observation) (ws : list timed_word) :
  tl <> [] ->
  alternating (map (fun run => line_speaker (run_line tl run)) (speaker_runs tl ws)).
Proof.
  intros NE. induction ws as [|w ws IH]; [exact I|].
  cbn [speaker_runs]. pose proof (speaker_runs_nonempty tl ws) as NEr.
  destruct (speaker_runs tl ws) as [|[|w' run] runs];
    [exact I | inversion NEr; congruence |].
  rewrite !(@speaker_at_label_of tl NE). cbn [same_label].
  destruct (PyStr.eqb (label_of tl (word_start w)) (label_of tl (word_start w')))
    eqn:E.
  - apply PyStrFacts.eqb_eq in E. cbn [map] in *.
    rewrite run_line_cons in *. unfold line_speaker in *. cbn [fst snd] in *.
    rewrite E. exact IH.
  - apply PyStrFacts.eqb_neq in E. cbn [map alternating] in *.
    split; [|exact IH]. rewrite !run_line_cons. exact E.
Qed.

Lemma speaker_runs_length (tl : list observation) (ws : list timed_word) :
  (length (speaker_runs tl ws) <= length ws)%nat.
Proof.
  induction ws as [|w ws IH]; simpl; [lia|].
  destruct (speaker_runs tl ws) as [|[|w' run] runs]; simpl in *; try lia.
  destruct (same_label _ _); simpl; lia.
Qed.

(** X15.  On a non-empty timeline the assembler returns lines such that no
    two lines in a row have the same speaker; there are no more lines than
    words, and no line at all only when there is no word; the speaker of
    every line is a label of the timeline. *)
Theorem transcript_lines_alternate (tl : list observation)
  (segments : list segment) (words : list timed_word) :
  tl <> [] ->
  exists lines,
    assemble_transcript tl segments words = Ok lines
    /\ alternating (map line_speaker lines)
    /\ (length lines <= length words)%nat
    /\ (lines = [] <-> words = [])
    /\ Forall (fun l => In (line_speaker l) (map obs_label tl)) lines.
Proof.
  intros NE. exists (map (run_line tl) (speaker_runs tl words)).
  split; [apply assemble_transcript_runs; exact NE|].
  pose proof (speaker_runs_nonempty tl words) as NEr.
  split; [rewrite map_map; apply speaker_runs_alternating; exact NE|].
  split; [rewrite length_map; apply speaker_runs_length|].
  split.
  - split.
    + intros E. apply map_eq_nil in E.
      rewrite <- (speaker_runs_concat tl words), E. reflexivity.
    + intros ->. reflexivity.
  - apply Forall_forall. intros l Hl. apply in_map_iff in Hl.
    destruct Hl as (run & <- & Hrun).
    rewrite Forall_forall in NEr. specialize (NEr run Hrun).
    destruct run as [|w run]; [congruence|].
    rewrite run_line_cons. unfold line_speaker. cbn [fst snd].
    apply label_of_In. exact NE.
Qed.

Lemma transcript_lines_alternate_witness :
  let tl := [(0, lit "Alice"); (5, lit "Bob")] in
  let words := [Word (lit " a") 0 (1 # 2); Word (lit " b") (3 # 5) 1;
                Word (lit " c") 5 (11 # 2)] in
  tl <> []
  /\ exists lines,
      assemble_transcript tl [] words = Ok lines
      /\ alternating (map line_speaker lines)
      /\ (length lines <= length words)%nat
      /\ (lines = [] <-> words = [])
      /\ Forall (fun l => In (line_speaker l) (map obs_label tl)) lines.
Proof.
  intros tl words. assert (NE : tl <> []) by discriminate.
  split; [exact NE|]. exact (transcript_lines_alternate tl [] words NE).
Defined.

Lemma assemble_loop_intervals (intervals intervals' : list interval)
  (tl : list observation) (words : list timed_word) (a : assembly) :
  assemble_loop intervals tl words a = assemble_loop intervals' tl words a.
Proof.
  revert a; induction words as [|w ws IH]; intros a; [reflexivity|].
  cbn [assemble_loop].
  change (assemble_word intervals tl a w) with (assemble_word intervals' tl a w).
  destruct (assemble_word intervals' tl a w) as [a'|e]; [apply IH | reflexivity].
Qed.

(** X16.  The transcript does not depend on the segments: the intervals
    computed from them are handed to [get_current_speaker], which never
    reads them.  This holds on every timeline, the empty one too. *)
Theorem transcript_independent_of_segments (tl : list observation)
  (segments segments' : list segment) (words : list timed_word) :
  assemble_transcript tl segments words = assemble_transcript tl segments' words.
Proof.
  unfold assemble_transcript.
  rewrite (assemble_loop_intervals (extract_speech_intervals segments words)
             (extract_speech_intervals segments' words)).
  reflexivity.
Qed.

(** ** The files and the requests of a run *)

Lemma read_other_file (p p' content : str) (w : world) :
  p <> p' -> read_file p (write_file p' content w) = read_file p w.
Proof.
  intros NE. unfold read_file, write_file. cbn [files find fst].
  replace (PyStr.eqb p' p) with false
    by (symmetry; apply PyStrFacts.eqb_neq; congruence).
  f_equal. induction (files w) as [|f l IH]; [reflexivity|].
  simpl.
  match goal with
  | |- context [negb (PyStr.eqb ?a p')] => destruct (PyStr.eqb a p') eqn:E
  end; simpl.
  - apply PyStrFacts.eqb_eq in E.
    match goal with
    | |- context [if PyStr.eqb ?a p then _ else _] =>
        replace (PyStr.eqb a p) with false
          by (symmetry; apply PyStrFacts.eqb_neq; congruence)
    end.
    exact IH.
  - match goal with
    | |- context [if PyStr.eqb ?a p then _ else _] => destruct (PyStr.eqb a p)
    end; [reflexivity | exact IH].
Qed.

(** What [write_chunks] returns: all the chunks when each can be encoded,
    and an error otherwise. *)
Lemma write_chunks_cases (chunks : list str) :
  (forallb encodable chunks = true
   /\ write_chunks chunks [] = (Ok tt, concat chunks))
  \/ (forallb encodable chunks = false
      /\ exists written,
          write_chunks chunks [] = (Raise UnicodeEncodeError, written)).
Proof.
  destruct (forallb encodable chunks) eqn:E.
  - left. split; [reflexivity|]. exact (@write_chunks_encodable chunks [] E).
  - right. split; [reflexivity|].
    assert (G : forall written,
               exists written',
                 write_chunks chunks written = (Raise UnicodeEncodeError, written')).
    { induction chunks as [|c chunks IH]; [discriminate|]. intros written.
      simpl in *. destruct (encodable c); [apply IH; exact E | eauto]. }
    apply G.
Qed.

Section RunFacts.

Variable endpoint : request -> http_outcome.
Variable format : str -> str -> result str.
Variable can_open : str -> bool.
Variable expanduser : str -> str.
Variable path_join : str -> str -> str.
Variable st : settings.

(** On a timeline that is not empty, the workflow goes on from the
    assembled lines to the transcript file. *)
Lemma run_from_lines (tl : list observation) (segments : list segment)
  (w : world) :
  tl <> [] ->
  transcribe_with_speakers endpoint format can_open expanduser path_join
    tl segments st w
  = match open_and_write can_open (transcript_path_of expanduser path_join st)
            (map render_line (run_lines tl segments)) w with
    | (Raise e, w1) => (Raise e, w1)
    | (Ok _, w1) =>
        if negb (summarize_transcript_flag st) then (Ok tt, w1)
        else
          match summarize_transcript endpoint format
                  (join_lines (map summary_line (run_lines tl segments)))
                  st w1 with
          | (Raise e, w2) => (Raise e, w2)
          | (Ok summary, w2) =>
              match summary with
              | JStr text =>
                  open_and_write can_open
                    (summary_path_of expanduser path_join st) [text] w2
              | _ =>
                  if can_open (summary_path_of expanduser path_join st)
                  then (Raise TypeError,
                        write_file (summary_path_of expanduser path_join st) [] w2)
                  else (Raise OSError, w2)
              end
          end
    end.
Proof.
  intros NE. unfold transcribe_with_speakers, run_lines.
  rewrite (@assemble_transcript_runs tl segments (flat_map seg_words segments) NE).
  reflexivity.
Qed.




(** X20.  The run on inputs at the edge.  When the segments hold no word
    and summarisation is off, the run writes an empty transcript file, on
    any timeline, the empty one included, provided that the transcript
    path can be opened.  When they hold a word and the timeline is empty,
    the run raises [IndexError] and changes nothing.  When the lines are
    assembled, from word times that [timedelta] takes, and the transcript
    path cannot be opened, the run raises [OSError] and changes nothing,
    whether summarisation is on or off. *)
Theorem run_on_degenerate_input (segments : list segment) (w : world) :
  let tpath := transcript_path_of expanduser path_join st in
  let run tl := transcribe_with_speakers endpoint format can_open expanduser
                  path_join tl segments st w in
  (flat_map seg_words segments = [] ->
   summarize_transcript_flag st = false ->
   can_open tpath = true ->
   forall tl, run tl = (Ok tt, write_file tpath [] w))
  /\ (flat_map seg_words segments <> [] -> run [] = (Raise IndexError, w))
  /\ (can_open tpath = false ->
      stampable segments ->
      forall tl, tl <> [] \/ flat_map seg_words segments = [] ->
                 run tl = (Raise OSError, w)).
Proof.
  intros tpath run. unfold run. split; [|split].
  - intros E F O tl. unfold transcribe_with_speakers. rewrite E.
    change (assemble_transcript tl segments []) with (Ok (@nil transcript_line)).
    unfold tpath, transcript_path_of in *. unfold open_and_write.
    rewrite O, F. reflexivity.
  - intros NE. unfold transcribe_with_speakers.
    destruct (flat_map seg_words segments) as [|x ws]; [congruence|].
    rewrite assemble_transcript_empty_timeline. reflexivity.
  - intros O _ tl [NE|E].
    + rewrite (run_from_lines tl segments w NE). fold tpath.
      rewrite (@open_and_write_closed can_open tpath _ w O). reflexivity.
    + unfold transcribe_with_speakers. rewrite E.
      change (assemble_transcript tl segments []) with (Ok (@nil transcript_line)).
      unfold tpath, transcript_path_of in *.
      rewrite (@open_and_write_closed can_open _ _ w O). reflexivity.
Qed.

End RunFacts.




Lemma run_on_degenerate_input_witness :
  let endpoint := fun _ : request => Unreachable in
  let format := fun _ arg : str => Ok (lit "TRANSCRIPT " ++ arg) in
  let can_open := fun p : str => is_prefix (lit "out/") p in
  let expanduser := fun p : str => p in
  let path_join := fun d n : str => d ++ lit "/" ++ n in
  let st := Settings (lit "out") (lit "transcript.txt") false (lit "summary.txt")
              (lit "http://localhost:8000") (lit "granite32-8b")
              (lit "You are an expert meeting assistant.") (lit "TRANSCRIPT {}") in
  let nowhere := Settings (lit "gone") (lit "transcript.txt") false
                   (lit "summary.txt") (lit "http://localhost:8000")
                   (lit "granite32-8b")
                   (lit "You are an expert meeting assistant.")
                   (lit "TRANSCRIPT {}") in
  let silent := [Segment 0 1 []] in
  let spoken := [Segment 0 1 [Word (lit " hi") 0 1]] in
  let tl := [(0, lit "Alice")] in
  let w := World [] [] in
  (flat_map seg_words silent = [] /\ summarize_transcript_flag st = false
   /\ can_open (lit "out/transcript.txt") = true
   /\ flat_map seg_words spoken <> []
   /\ can_open (lit "gone/transcript.txt") = false
   /\ stampable spoken
   /\ tl <> [])
  /\ transcribe_with_speakers endpoint format can_open expanduser path_join
       [] silent st w
     = (Ok tt, write_file (lit "out/transcript.txt") [] w)
  /\ transcribe_with_speakers endpoint format can_open expanduser path_join
       [] spoken st w
     = (Raise IndexError, w)
  /\ transcribe_with_speakers endpoint format can_open expanduser path_join
       tl spoken nowhere w
     = (Raise OSError, w).
Proof.
  intros endpoint format can_open expanduser path_join st nowhere silent spoken
    tl w.
  assert (E : flat_map seg_words silent = []) by reflexivity.
  assert (F : summarize_transcript_flag st = false) by reflexivity.
  assert (O : can_open (lit "out/transcript.txt") = true) by reflexivity.
  assert (NE : flat_map seg_words spoken <> []) by discriminate.
  assert (C : can_open (lit "gone/transcript.txt") = false) by reflexivity.
  assert (St : stampable spoken) by (repeat constructor).
  assert (NT : tl <> []) by discriminate.
  split; [exact (conj E (conj F (conj O (conj NE (conj C (conj St NT))))))|].
  split; [|split].
  - exact (proj1 (run_on_degenerate_input endpoint format can_open expanduser
                    path_join st silent w) E F O []).
  - exact (proj1 (proj2 (run_on_degenerate_input endpoint format can_open
                           expanduser path_join st spoken w)) NE).
  - exact (proj2 (proj2 (run_on_degenerate_input endpoint format can_open
                           expanduser path_join nowhere spoken w)) C St tl
             (or_introl NT)).
Defined.

(** ** Drive links *)

Lemma lit_re_spec (p x : str) : Re.Matches (lit_re p) x <-> x = p.
Proof.
  revert x; induction p as [|c p IH]; intros x; simpl.
  - split; [intros H; inversion H; reflexivity | intros ->; constructor].
  - rewrite ReFacts.cat_inv. split.
    + intros (a & b & -> & Ha & Hb). apply ReFacts.class_inv in Ha.
      destruct Ha as (d & -> & E). apply N.eqb_eq in E. subst d.
      apply IH in Hb. subst b. reflexivity.
    + intros ->. exists [c], p. repeat split.
      * constructor. apply N.eqb_refl.
      * apply IH. reflexivity.
Qed.

Lemma plus_class_spec (f : N -> bool) (s : str) :
  Re.Matches (Re.Plus (Re.Class f)) s
  <-> s <> [] /\ Forall (fun c => f c = true) s.
Proof.
  unfold Re.Plus. rewrite ReFacts.cat_inv. split.
  - intros (a & b & -> & Ha & Hb). apply ReFacts.class_inv in Ha.
    destruct Ha as (c & -> & Fc). apply ReFacts.star_class_inv in Hb.
    split; [discriminate | constructor; assumption].
  - intros [NE F]. destruct s as [|c s]; [congruence|]. inversion F; subst.
    exists [c], s. repeat split; [constructor; assumption|].
    apply ReFacts.star_class_inv. assumption.
Qed.

(** The language of the pattern: a marker, then characters of the class,
    one or more. *)
Lemma drive_link_re_spec (m : str) :
  Re.Matches drive_link_re m
  <-> exists p ids, m = p ++ ids /\ link_marker p /\ ids <> []
                    /\ Forall (fun c => id_char c = true) ids.
Proof.
  unfold drive_link_re, link_marker. rewrite ReFacts.cat_inv. split.
  - intros (p & ids & -> & Hp & Hi). apply plus_class_spec in Hi.
    exists p, ids. repeat split; try tauto.
    inversion Hp; subst; [left | right]; apply lit_re_spec; assumption.
  - intros (p & ids & -> & Hp & NE & F). exists p, ids. repeat split.
    + destruct Hp as [-> | ->]; [apply Re.MAltL | apply Re.MAltR];
        apply lit_re_spec; reflexivity.
    + apply plus_class_spec. auto.
Qed.

Lemma strip_prefix_spec (p s r : str) : strip_prefix p s = Some r <-> s = p ++ r.
Proof.
  revert s; induction p as [|c p IH]; intros s; simpl.
  - split; [intros H; injection H as ->; reflexivity | intros ->; reflexivity].
  - destruct s as [|d s]; [split; discriminate|].
    destruct (N.eqb_spec c d) as [->|NE].
    + rewrite IH. split; [intros ->; reflexivity | intros H; injection H; auto].
    + split; [discriminate | intros H; injection H; intros; congruence].
Qed.

Lemma take_while_spec (f : N -> bool) (s : str) :
  exists post,
    s = take_while f s ++ post
    /\ Forall (fun c => f c = true) (take_while f s)
    /\ match post with c :: _ => f c = false | [] => True end.
Proof.
  induction s as [|c s (post & E & F & St)]; simpl.
  - exists []. repeat split; constructor.
  - destruct (f c) eqn:Fc.
    + exists post. simpl. rewrite <- E. repeat split; [constructor|]; assumption.
    + exists (c :: s). repeat split; [constructor | exact Fc].
Qed.

Lemma take_while_unique (f : N -> bool) (g post : str) :
  Forall (fun c => f c = true) g ->
  match post with c :: _ => f c = false | [] => True end ->
  take_while f (g ++ post) = g.
Proof.
  induction 1 as [|c g Fc _ IH]; simpl; intros St.
  - destruct post as [|c post]; [reflexivity | simpl; rewrite St; reflexivity].
  - rewrite Fc, IH by exact St. reflexivity.
Qed.

Lemma take_while_prefix (f : N -> bool) (g rest : str) :
  g <> [] -> Forall (fun c => f c = true) g -> take_while f (g ++ rest) <> [].
Proof.
  intros NE F. destruct g as [|c g]; [congruence|]. inversion F; subst.
  simpl. rewrite H1. discriminate.
Qed.

Lemma group_after_spec (p s g : str) :
  group_after p s = Some g
  <-> exists post, s = p ++ g ++ post /\ g <> []
                   /\ Forall (fun c => id_char c = true) g /\ stops post.
Proof.
  unfold group_after, stops. split.
  - destruct (strip_prefix p s) as [r|] eqn:S; [|discriminate].
    apply strip_prefix_spec in S. subst s.
    destruct (take_while_spec id_char r) as (post & E & F & St).
    destruct (take_while id_char r) as [|c g'] eqn:T; [discriminate|].
    intros H. injection H as <-. exists post. rewrite <- E.
    repeat split; [discriminate | exact F | exact St].
  - intros (post & -> & NE & F & St).
    rewrite (proj2 (strip_prefix_spec p (p ++ g ++ post) (g ++ post)) eq_refl).
    rewrite (take_while_unique id_char g post F St).
    destruct g; [congruence | reflexivity].
Qed.

Lemma group_after_none (p s ids rest : str) :
  s = p ++ ids ++ rest -> ids <> [] -> Forall (fun c => id_char c = true) ids ->
  group_after p s <> None.
Proof.
  intros -> NE F. unfold group_after.
  rewrite (proj2 (strip_prefix_spec p (p ++ ids ++ rest) (ids ++ rest)) eq_refl).
  pose proof (take_while_prefix id_char ids rest NE F) as T.
  destruct (take_while id_char (ids ++ rest)); [congruence | discriminate].
Qed.

Lemma match_here_spec (s g : str) :
  match_here s = Some g
  <-> exists p post, s = p ++ g ++ post /\ link_marker p /\ g <> []
                     /\ Forall (fun c => id_char c = true) g /\ stops post.
Proof.
  unfold match_here, link_marker. split.
  - destruct (group_after (lit "id=") s) as [g0|] eqn:G.
    + intros H. injection H as ->. apply group_after_spec in G.
      destruct G as (post & E & R). exists (lit "id="), post. tauto.
    + intros H. apply group_after_spec in H.
      destruct H as (post & E & R). exists (lit "/file/d/"), post. tauto.
  - intros (p & post & E & [-> | ->] & R).
    + rewrite (proj2 (group_after_spec (lit "id=") s g)); [reflexivity|].
      exists post. tauto.
    + destruct (group_after (lit "id=") s) as [g0|] eqn:G.
      * apply group_after_spec in G. destruct G as (post0 & E0 & _).
        rewrite E in E0. vm_compute in E0. discriminate.
      * apply group_after_spec. exists post. tauto.
Qed.

(** The pattern fails at the start of [s] exactly when no prefix of [s] is
    in its language. *)
Lemma match_here_none (s : str) :
  match_here s = None
  <-> forall m post, s = m ++ post -> ~ Re.Matches drive_link_re m.
Proof.
  split.
  - intros N m post E M. apply drive_link_re_spec in M.
    destruct M as (p & ids & -> & Hp & NE & F).
    rewrite <- app_assoc in E. unfold match_here in N.
    destruct Hp as [-> | ->].
    + pose proof (group_after_none _ _ _ _ E NE F) as G.
      destruct (group_after (lit "id=") s); congruence.
    + pose proof (group_after_none _ _ _ _ E NE F) as G.
      destruct (group_after (lit "id=") s); [discriminate | congruence].
  - intros H. destruct (match_here s) as [g|] eqn:M; [|reflexivity].
    apply match_here_spec in M. destruct M as (p & post & E & Hp & NE & F & _).
    exfalso. apply (H (p ++ g) post); [rewrite <- app_assoc; exact E|].
    apply drive_link_re_spec. exists p, g. auto.
Qed.

Lemma re_search_group_spec (s : str) :
  match re_search_group s with
  | Some g =>
      exists pre p post,
        s = pre ++ p ++ g ++ post /\ link_marker p /\ g <> []
        /\ Forall (fun c => id_char c = true) g /\ stops post
        /\ forall pre' m post',
            s = pre' ++ m ++ post' -> Re.Matches drive_link_re m ->
            (length pre <= length pre')%nat
  | None =>
      forall pre m post, s = pre ++ m ++ post -> ~ Re.Matches drive_link_re m
  end.
Proof.
  induction s as [|c s IH].
  - cbn [re_search_group]. destruct (match_here []) as [g|] eqn:M.
    + apply match_here_spec in M. destruct M as (p & post & E & R).
      exists [], p, post. repeat split; try tauto. intros; simpl; lia.
    + intros pre m post E. destruct pre; [|discriminate].
      exact (proj1 (match_here_none []) M m post E).
  - cbn [re_search_group]. destruct (match_here (c :: s)) as [g|] eqn:M.
    + apply match_here_spec in M. destruct M as (p & post & E & R).
      exists [], p, post. repeat split; try tauto. intros; simpl; lia.
    + pose proof (proj1 (match_here_none (c :: s)) M) as Here.
      destruct (re_search_group s) as [g|].
      * destruct IH as (pre & p & post & E & Hp & NE & F & St & Left).
        exists (c :: pre), p, post.
        split; [simpl; f_equal; exact E|]. repeat split; trivial.
        intros pre' m post' E' Mm. destruct pre' as [|d pre'].
        -- exfalso. exact (Here m post' E' Mm).
        -- simpl in E'. injection E' as _ E'.
           specialize (Left pre' m post' E' Mm). simpl. lia.
      * intros pre m post E Mm. destruct pre as [|d pre].
        -- exact (Here m post E Mm).
        -- simpl in E. injection E as _ E. exact (IH pre m post E Mm).
Qed.

(** X21.  [extract_file_id_from_drive_link] returns [None] exactly when no
    part of the link matches the pattern.  Otherwise it returns the group
    of the leftmost match, taken as long as possible: the link is some
    text, then [id=] or [/file/d/], then the identifier returned, which is
    not empty and made of letters, digits, [_] and [-], then a rest that
    does not go on with such a character; and no match starts earlier. *)
Theorem drive_link_id_leftmost_longest (drive_link : str) :
  (extract_file_id_from_drive_link drive_link = None
   <-> forall pre m post,
       drive_link = pre ++ m ++ post -> ~ Re.Matches drive_link_re m)
  /\ forall file_id,
      extract_file_id_from_drive_link drive_link = Some file_id ->
      exists pre p post,
        drive_link = pre ++ p ++ file_id ++ post /\ link_marker p
        /\ file_id <> []
        /\ Forall (fun c => id_char c = true) file_id /\ stops post
        /\ forall pre' m post',
            drive_link = pre' ++ m ++ post' -> Re.Matches drive_link_re m ->
            (length pre <= length pre')%nat.
Proof.
  unfold extract_file_id_from_drive_link.
  pose proof (re_search_group_spec drive_link) as S.
  destruct (re_search_group drive_link) as [g|]; split.
  - split; [discriminate|]. intros H.
    destruct S as (pre & p & post & E & Hp & NE & F & _).
    exfalso. apply (H pre (p ++ g) post); [rewrite <- app_assoc; exact E|].
    apply drive_link_re_spec. exists p, g. auto.
  - intros fid H. injection H as <-. exact S.
  - split; [intros _; exact S | reflexivity].
  - discriminate.
Qed.

Lemma drive_link_id_leftmost_longest_witness :
  let link := lit "https://drive.google.com/file/d/1AbC_d-9/view?usp=sharing" in
  extract_file_id_from_drive_link link = Some (lit "1AbC_d-9")
  /\ exists pre p post,
      link = pre ++ p ++ lit "1AbC_d-9" ++ post /\ link_marker p
      /\ lit "1AbC_d-9" <> []
      /\ Forall (fun c => id_char c = true) (lit "1AbC_d-9") /\ stops post
      /\ forall pre' m post',
          link = pre' ++ m ++ post' -> Re.Matches drive_link_re m ->
          (length pre <= length pre')%nat.
Proof.
  intros link.
  assert (H : extract_file_id_from_drive_link link = Some (lit "1AbC_d-9"))
    by (vm_compute; reflexivity).
  split; [exact H|].
  exact (proj2 (drive_link_id_leftmost_longest link) _ H).
Defined.

(** X22.  Round trip on the two usual shapes of a sharing link: for an
    identifier that is not empty and made of letters, digits, [_] and [-],
    and a rest that does not go on with such a character, the identifier
    is what is extracted from [https://drive.google.com/file/d/<id><rest>]
    and from [https://drive.google.com/open?id=<id><rest>]. *)
Theorem drive_link_round_trip (file_id rest : str) :
  file_id <> [] -> Forall (fun c => id_char c = true) file_id -> stops rest ->
  extract_file_id_from_drive_link
    (lit "https://drive.google.com/file/d/" ++ file_id ++ rest) = Some file_id
  /\ extract_file_id_from_drive_link
       (lit "https://drive.google.com/open?id=" ++ file_id ++ rest) = Some file_id.
Proof.
  intros NE F St.
  assert (G : forall p, group_after p (p ++ file_id ++ rest) = Some file_id).
  { intros p. apply group_after_spec. exists rest. auto. }
  split.
  - unfold extract_file_id_from_drive_link.
    change (lit "https://drive.google.com/file/d/")
      with (lit "https://drive.google.com" ++ lit "/file/d/").
    rewrite <- app_assoc.
    pose proof (G (lit "/file/d/")) as G1.
    set (tail := lit "/file/d/" ++ file_id ++ rest) in *.
    assert (T : re_search_group tail = Some file_id).
    { destruct tail as [|c t] eqn:Et; [discriminate|].
      cbn [re_search_group]. unfold match_here.
      assert (c = 47%N) by (unfold tail in Et; simpl in Et; congruence).
      subst c. change (group_after (lit "id=") (47%N :: t)) with (@None str).
      rewrite G1. reflexivity. }
    clearbody tail. cbn. exact T.
  - unfold extract_file_id_from_drive_link.
    change (lit "https://drive.google.com/open?id=")
      with (lit "https://drive.google.com/open?" ++ lit "id=").
    rewrite <- app_assoc.
    pose proof (G (lit "id=")) as G1.
    set (tail := lit "id=" ++ file_id ++ rest) in *.
    assert (T : re_search_group tail = Some file_id).
    { destruct tail as [|c t] eqn:Et; [discriminate|].
      cbn [re_search_group]. unfold match_here. rewrite G1. reflexivity. }
    clearbody tail. cbn. exact T.
Qed.

Lemma drive_link_round_trip_witness :
  (lit "1AbC_d-9" <> [] /\ Forall (fun c => id_char c = true) (lit "1AbC_d-9")
   /\ stops (lit "/view"))
  /\ extract_file_id_from_drive_link
       (lit "https://drive.google.com/file/d/" ++ lit "1AbC_d-9" ++ lit "/view")
     = Some (lit "1AbC_d-9").
Proof.
  assert (NE : lit "1AbC_d-9" <> []) by discriminate.
  assert (F : Forall (fun c => id_char c = true) (lit "1AbC_d-9"))
    by (repeat constructor).
  assert (St : stops (lit "/view")) by reflexivity.
  split; [repeat split; assumption|].
  exact (proj1 (drive_link_round_trip _ _ NE F St)).
Defined.

(** ** Meet recordings *)

Lemma and_then_Returns {A B : Type} (m : outcome A) (k : A -> outcome B) (b : B) :
  and_then m k = Returns b -> exists a, m = Returns a /\ k a = Returns b.
Proof. destruct m as [a|r]; simpl; [eauto | discriminate]. Qed.

Lemma is_str_eq (v : json) (s : str) : is_str v s = true -> v = JStr s.
Proof.
  destruct v; simpl; try discriminate. intros E.
  apply PyStrFacts.eqb_eq in E. congruence.
Qed.

Lemma for_each_invariant {A S : Type} (body : S -> A -> outcome S)
  (Inv : S -> Prop) (l : list A) :
  (forall s x s', In x l -> Inv s -> body s x = Returns s' -> Inv s') ->
  forall s s', Inv s -> for_each body l s = Returns s' -> Inv s'.
Proof.
  induction l as [|x l IH]; intros Step s s' I E; simpl in E.
  - injection E as <-. exact I.
  - apply and_then_Returns in E. destruct E as (s1 & B & E).
    apply (IH (fun s x s' Hx => Step s x s' (or_intror Hx)) s1 s'); [|exact E].
    apply (Step s x s1); [left; reflexivity | exact I | exact B].
Qed.

(** A turn of the inner loop leaves the list as it is or appends one
    record, which then has a file and describes the recording. *)
Lemma recording_step_cases (parent recording : json)
  (recordings recordings' : list listed_recording) :
  recording_step parent recordings recording = Returns recordings' ->
  recordings' = recordings
  \/ exists e, recordings' = recordings ++ [e] /\ has_file e
               /\ describes parent recording e.
Proof.
  unfold recording_step. intros E.
  apply and_then_Returns in E. destruct E as (st & Gs & E).
  destruct (is_str st (lit "FILE_GENERATED")) eqn:Is;
    [|left; congruence].
  apply and_then_Returns in E. destruct E as (dd & Gd & E).
  destruct (json_truthy dd); [|left; congruence].
  apply and_then_Returns in E. destruct E as (tested & Gt & E).
  destruct (json_truthy tested) eqn:T; [|left; congruence].
  apply and_then_Returns in E. destruct E as (fid & Gf & E).
  apply and_then_Returns in E. destruct E as (uri & Gu & E).
  apply and_then_Returns in E. destruct E as (name & Gn & E).
  apply and_then_Returns in E. destruct E as (start & Ga & E).
  injection E as <-. right. eexists. split; [reflexivity|].
  assert (fid = tested) by congruence. subst fid.
  apply is_str_eq in Is. subst st. split.
  - split; [reflexivity | exact T].
  - unfold describes; cbn. repeat split; trivial. exists dd. auto.
Qed.

Section MeetFacts.

Variable build_service : outcome unit.
Variable list_conference_records : outcome json.
Variable list_recordings : nat -> json -> outcome json.

Lemma record_step_invariant (records : list json) (i : nat) (record : json)
  (recordings recordings' : list listed_recording) :
  nth_error records i = Some record ->
  Forall (fun e => has_file e /\ comes_from list_recordings records e) recordings ->
  record_step list_recordings i recordings record = Returns recordings' ->
  Forall (fun e => has_file e /\ comes_from list_recordings records e) recordings'.
Proof.
  intros Hi I E. unfold record_step in E.
  apply and_then_Returns in E. destruct E as (parent & Gn & E).
  apply and_then_Returns in E. destruct E as (body & Gb & E).
  apply and_then_Returns in E. destruct E as (present & _ & E).
  destruct present; [|injection E as <-; exact I].
  apply and_then_Returns in E. destruct E as (listed & Gl & E).
  apply and_then_Returns in E. destruct E as (items & Gi & E).
  revert E. apply for_each_invariant; [|exact I].
  intros s x s' Hx Is St. apply recording_step_cases in St.
  destruct St as [-> | (e & -> & Hf & D)]; [exact Is|].
  apply Forall_app. split; [exact Is|]. constructor; [|constructor].
  split; [exact Hf|].
  assert (C : Recording.conference_record_id e = parent) by apply D.
  subst parent. exists x. split; [|exact D].
  exists i, record, body, items.
  split; [exact Hi|]. split; [exact Gn|]. split; [exact Gb|].
  split; [exists listed; auto | exact Hx].
Qed.

Lemma records_loop_invariant (records : list json) (rest : list json) (i : nat)
  (recordings recordings' : list listed_recording) :
  (forall k record, nth_error rest k = Some record ->
                    nth_error records (i + k) = Some record) ->
  Forall (fun e => has_file e /\ comes_from list_recordings records e) recordings ->
  records_loop list_recordings i rest recordings = Returns recordings' ->
  Forall (fun e => has_file e /\ comes_from list_recordings records e) recordings'.
Proof.
  revert i recordings; induction rest as [|record rest IH];
    intros i recordings Nth I E; simpl in E.
  - injection E as <-. exact I.
  - apply and_then_Returns in E. destruct E as (r1 & St & E).
    apply (IH (S i) r1); [| |exact E].
    + intros k rec Hk. replace (S i + k)%nat with (i + S k)%nat by lia.
      apply Nth. exact Hk.
    + apply (record_step_invariant records i record recordings); trivial.
      rewrite <- (Nat.add_0_r i). apply Nth. reflexivity.
Qed.

(** When the loop over the conference records completes, every request
    for recordings has returned. *)
Lemma records_loop_returns (rest : list json) (i : nat)
  (recordings recordings' : list listed_recording) :
  records_loop list_recordings i rest recordings = Returns recordings' ->
  forall k record, nth_error rest k = Some record ->
    exists name body,
      py_get record (lit "name") = Returns name
      /\ list_recordings (i + k) name = Returns body.
Proof.
  revert i recordings; induction rest as [|r rest IH];
    intros i recordings E k record Hk; simpl in E.
  - destruct k; discriminate.
  - apply and_then_Returns in E. destruct E as (r1 & St & E).
    destruct k as [|k].
    + injection Hk as ->. unfold record_step in St.
      apply and_then_Returns in St. destruct St as (parent & Gn & St).
      apply and_then_Returns in St. destruct St as (body & Gb & _).
      exists parent, body. rewrite Nat.add_0_r. auto.
    + replace (i + S k)%nat with (S i + k)%nat by lia.
      apply (IH (S i) r1 E k record Hk).
Qed.

(** What the function returns is what the [try] block returns, or the
    empty list of the handler. *)
Lemma list_meet_recordings_Returns (recs : list listed_recording) :
  snd (list_meet_recordings build_service list_conference_records list_recordings)
  = Returns recs ->
  list_meet_recordings_try build_service list_conference_records list_recordings
  = Returns recs
  \/ recs = [].
Proof.
  unfold list_meet_recordings.
  destruct (list_meet_recordings_try _ _ _) as [a|[e| | |status [content|]|]];
    cbn [snd]; intros E; try discriminate.
  - left. exact E.
  - right. congruence.
Qed.

(** When the [try] block returns, it has read the conference records, if
    the response has any, and run the loop over them. *)
Lemma list_meet_recordings_try_Returns (recs : list listed_recording) :
  list_meet_recordings_try build_service list_conference_records list_recordings
  = Returns recs ->
  recs = []
  \/ exists response records,
      list_conference_records = Returns response
      /\ records_of response records
      /\ records_loop list_recordings 0 records [] = Returns recs.
Proof.
  unfold list_meet_recordings_try. intros E.
  apply and_then_Returns in E. destruct E as (_ & _ & E).
  apply and_then_Returns in E. destruct E as (response & R & E).
  apply and_then_Returns in E. destruct E as (present & _ & E).
  destruct present; [|left; congruence].
  apply and_then_Returns in E. destruct E as (listed & Gl & E).
  apply and_then_Returns in E. destruct E as (records & Gi & E).
  right. exists response, records. repeat split; trivial. exists listed. auto.
Qed.

End MeetFacts.

Lemma py_getitem_in (v : json) (key : str) (x : json) :
  py_getitem v key = Returns x -> py_in key v = Returns true.
Proof.
  unfold py_getitem, getitem_key, py_in. destruct v; try discriminate.
  match goal with
  | |- context [find ?f members] => destruct (find f members) as [m|] eqn:F
  end; [|discriminate]. intros _.
  f_equal. apply existsb_exists. exists m. apply find_some in F. exact F.
Qed.

Lemma py_get_dict (v : json) (key : str) (x : json) :
  py_get v key = Returns x -> forall key', exists y, py_get v key' = Returns y.
Proof.
  unfold py_get. destruct v; try discriminate. intros _ key'.
  match goal with
  | |- context [find ?f members] => destruct (find f members)
  end; eauto.
Qed.

(** A turn of the inner loop on a recording that qualifies appends a
    record that describes it. *)
Lemma recording_step_qualifies (parent recording : json)
  (recordings : list listed_recording) :
  qualifies recording ->
  exists e, recording_step parent recordings recording = Returns (recordings ++ [e])
            /\ describes parent recording e.
Proof.
  intros (Gs & dd & fid & Gd & Td & Gf & Tf).
  destruct (py_get_dict _ _ _ Gs (lit "name")) as (name & Gn).
  destruct (py_get_dict _ _ _ Gs (lit "startTime")) as (start & Ga).
  destruct (py_get_dict _ _ _ Gf (lit "exportUri")) as (uri & Gu).
  unfold recording_step. rewrite Gs. cbn [and_then].
  replace (is_str (JStr (lit "FILE_GENERATED")) (lit "FILE_GENERATED")) with true
    by (symmetry; apply PyStrFacts.eqb_refl).
  rewrite Gd. cbn [and_then]. rewrite Td, Gf. cbn [and_then].
  rewrite Tf, Gu, Gn, Ga. cbn [and_then].
  eexists. split; [reflexivity|].
  unfold describes; cbn. repeat split; trivial. exists dd. auto.
Qed.

(** The inner loop only appends, and it appends a record for each
    recording that qualifies. *)
Lemma inner_loop_complete (parent : json) (items : list json)
  (recordings recordings' : list listed_recording) :
  for_each (recording_step parent) items recordings = Returns recordings' ->
  incl recordings recordings'
  /\ forall recording, In recording items -> qualifies recording ->
       exists e, In e recordings' /\ describes parent recording e.
Proof.
  revert recordings; induction items as [|x items IH]; intros recordings E;
    simpl in E.
  - injection E as <-. split; [apply incl_refl | intros ? []].
  - apply and_then_Returns in E. destruct E as (r1 & St & E).
    destruct (IH r1 E) as (Inc & Cov). split.
    + apply recording_step_cases in St.
      destruct St as [-> | (e & -> & _)]; [exact Inc|].
      intros y Hy. apply Inc. apply in_or_app. left. exact Hy.
    + intros recording [<- | Hin] Q; [|exact (Cov recording Hin Q)].
      destruct (recording_step_qualifies parent x recordings Q) as (e & St' & D).
      exists e. split; [|exact D]. apply Inc.
      assert (r1 = recordings ++ [e]) by congruence. subst r1.
      apply in_or_app. right. left. reflexivity.
Qed.

Lemma record_step_complete (list_recordings : nat -> json -> outcome json)
  (i : nat) (record : json) (recordings recordings' : list listed_recording) :
  record_step list_recordings i recordings record = Returns recordings' ->
  incl recordings recordings'
  /\ forall parent body items recording,
       py_get record (lit "name") = Returns parent ->
       list_recordings i parent = Returns body ->
       recordings_of body items ->
       In recording items -> qualifies recording ->
       exists e, In e recordings' /\ describes parent recording e.
Proof.
  intros E. unfold record_step in E.
  apply and_then_Returns in E. destruct E as (parent & Gn & E).
  apply and_then_Returns in E. destruct E as (body & Gb & E).
  apply and_then_Returns in E. destruct E as (present & Gp & E).
  destruct present.
  - apply and_then_Returns in E. destruct E as (listed & Gl & E).
    apply and_then_Returns in E. destruct E as (items & Gi & E).
    destruct (inner_loop_complete _ _ _ _ E) as (Inc & Cov).
    split; [exact Inc|].
    intros parent' body' items' recording Gn' Gb' (listed' & Gl' & Gi') Hin Q.
    assert (parent' = parent) by congruence. subst parent'.
    assert (body' = body) by congruence. subst body'.
    assert (listed' = listed) by congruence. subst listed'.
    assert (items' = items) by congruence. subst items'.
    exact (Cov recording Hin Q).
  - injection E as <-. split; [apply incl_refl|].
    intros parent' body' items' recording Gn' Gb' (listed' & Gl' & _) _ _.
    assert (parent' = parent) by congruence. subst parent'.
    assert (body' = body) by congruence. subst body'.
    apply py_getitem_in in Gl'. congruence.
Qed.

Lemma records_loop_complete (list_recordings : nat -> json -> outcome json)
  (rest : list json) (i : nat) (recordings recordings' : list listed_recording) :
  records_loop list_recordings i rest recordings = Returns recordings' ->
  incl recordings recordings'
  /\ forall k record parent body items recording,
       nth_error rest k = Some record ->
       py_get record (lit "name") = Returns parent ->
       list_recordings (i + k)%nat parent = Returns body ->
       recordings_of body items ->
       In recording items -> qualifies recording ->
       exists e, In e recordings' /\ describes parent recording e.
Proof.
  revert i recordings; induction rest as [|r rest IH]; intros i recordings E;
    simpl in E.
  - injection E as <-. split; [apply incl_refl|]. intros [|k]; discriminate.
  - apply and_then_Returns in E. destruct E as (r1 & St & E).
    destruct (IH (S i) r1 E) as (Inc & Cov).
    destruct (record_step_complete _ _ _ _ _ St) as (Inc1 & Cov1).
    split; [intros y Hy; apply Inc, Inc1, Hy|].
    intros [|k] record parent body items recording Hk Gn Gb Ro Hin Q.
    + injection Hk as ->. rewrite Nat.add_0_r in Gb.
      destruct (Cov1 parent body items recording Gn Gb Ro Hin Q) as (e & He & D).
      exists e. split; [apply Inc, He | exact D].
    + replace (i + S k)%nat with (S i + k)%nat in Gb by lia.
      exact (Cov k record parent body items recording Hk Gn Gb Ro Hin Q).
Qed.

(** A result that is not empty is the result of the loop over the
    conference records of the response. *)
Lemma list_meet_recordings_nonempty (build_service : outcome unit)
  (list_conference_records : outcome json)
  (list_recordings : nat -> json -> outcome json)
  (recs : list listed_recording) :
  snd (list_meet_recordings build_service list_conference_records list_recordings)
  = Returns recs ->
  recs <> [] ->
  exists response records,
    list_conference_records = Returns response
    /\ records_of response records
    /\ records_loop list_recordings 0 records [] = Returns recs.
Proof.
  intros E NE. apply list_meet_recordings_Returns in E.
  destruct E as [E | ->]; [|congruence].
  apply list_meet_recordings_try_Returns in E.
  destruct E as [-> | E]; [congruence | exact E].
Qed.


Lemma sample_listing :
  snd (list_meet_recordings (Returns tt) (Returns sample_records) sample_service)
  = Returns [sample_listed].
Proof. vm_compute. reflexivity. Qed.

Lemma listed_invariant (build_service : outcome unit)
  (list_conference_records : outcome json)
  (list_recordings : nat -> json -> outcome json)
  (recs : list listed_recording) :
  snd (list_meet_recordings build_service list_conference_records list_recordings)
  = Returns recs ->
  recs = []
  \/ exists response records,
      list_conference_records = Returns response
      /\ records_of response records
      /\ Forall (fun e => has_file e /\ comes_from list_recordings records e) recs.
Proof.
  intros E. apply list_meet_recordings_Returns in E.
  destruct E as [E | ->]; [|left; reflexivity].
  apply list_meet_recordings_try_Returns in E.
  destruct E as [-> | (response & records & R & Ro & L)]; [left; reflexivity|].
  right. exists response, records. repeat split; trivial.
  apply (records_loop_invariant list_recordings records records 0 [] recs);
    [auto | constructor | exact L].
Qed.

(** X23.  [list_meet_recordings] returns only recordings that have a
    file: every record of the list that it returns has the state
    [FILE_GENERATED] and a file identifier that is truthy (so not [None]
    and not the empty string), whatever the service replies. *)
Theorem listed_recordings_have_file (build_service : outcome unit)
  (list_conference_records : outcome json)
  (list_recordings : nat -> json -> outcome json)
  (recs : list listed_recording) :
  snd (list_meet_recordings build_service list_conference_records list_recordings)
  = Returns recs ->
  Forall has_file recs.
Proof.
  intros E. apply listed_invariant in E.
  destruct E as [-> | (response & records & _ & _ & F)]; [constructor|].
  eapply Forall_impl; [|exact F]. intros e H. apply H.
Qed.

Lemma listed_recordings_have_file_witness :
  snd (list_meet_recordings (Returns tt) (Returns sample_records) sample_service)
  = Returns [sample_listed]
  /\ Forall has_file [sample_listed].
Proof.
  split; [exact sample_listing|].
  exact (listed_recordings_have_file _ _ _ _ sample_listing).
Defined.

(** X24.  Every record of the list that [list_meet_recordings] returns
    comes from the service: its conference record is the name of one of
    the conference records of the first response, and its recording
    identifier, state, start time, file identifier and export URI are the
    fields of one of the recordings that the request for that conference
    record returned. *)
Theorem listed_recordings_come_from_service (build_service : outcome unit)
  (list_conference_records : outcome json)
  (list_recordings : nat -> json -> outcome json)
  (recs : list listed_recording) (e : listed_recording) :
  snd (list_meet_recordings build_service list_conference_records list_recordings)
  = Returns recs ->
  In e recs ->
  exists response records,
    list_conference_records = Returns response
    /\ records_of response records
    /\ comes_from list_recordings records e.
Proof.
  intros E Hin. apply listed_invariant in E.
  destruct E as [-> | (response & records & R & Ro & F)]; [destruct Hin|].
  exists response, records. repeat split; trivial.
  rewrite Forall_forall in F. apply (F e Hin).
Qed.

Lemma listed_recordings_come_from_service_witness :
  (snd (list_meet_recordings (Returns tt) (Returns sample_records) sample_service)
   = Returns [sample_listed]
   /\ In sample_listed [sample_listed])
  /\ exists response records,
      Returns sample_records = Returns response
      /\ records_of response records
      /\ comes_from sample_service records sample_listed.
Proof.
  assert (Hin : In sample_listed [sample_listed]) by (left; reflexivity).
  split; [split; [exact sample_listing | exact Hin]|].
  exact (listed_recordings_come_from_service _ _ _ _ _ sample_listing Hin).
Defined.

(** X25.  All or nothing: when [list_meet_recordings] returns a list that
    is not empty, the request for the conference records has returned, and
    so has the request for the recordings of every one of the conference
    records.  A request that raises, an [HttpError] included, leaves none
    of the recordings collected before it in the result. *)
Theorem listing_all_or_nothing (build_service : outcome unit)
  (list_conference_records : outcome json)
  (list_recordings : nat -> json -> outcome json)
  (recs : list listed_recording) :
  snd (list_meet_recordings build_service list_conference_records list_recordings)
  = Returns recs ->
  recs <> [] ->
  exists response records,
    list_conference_records = Returns response
    /\ records_of response records
    /\ forall i record, nth_error records i = Some record ->
         exists name body,
           py_get record (lit "name") = Returns name
           /\ list_recordings i name = Returns body.
Proof.
  intros E NE.
  destruct (list_meet_recordings_nonempty _ _ _ _ E NE)
    as (response & records & R & Ro & L).
  exists response, records. repeat split; trivial.
  intros i record Hi.
  exact (records_loop_returns list_recordings records 0 [] recs L i record Hi).
Qed.

Lemma listing_all_or_nothing_witness :
  (snd (list_meet_recordings (Returns tt) (Returns sample_records) sample_service)
   = Returns [sample_listed]
   /\ [sample_listed] <> [])
  /\ exists response records,
      Returns sample_records = Returns response
      /\ records_of response records
      /\ forall i record, nth_error records i = Some record ->
           exists name body,
             py_get record (lit "name") = Returns name
             /\ sample_service i name = Returns body.
Proof.
  assert (NE : [sample_listed] <> []) by discriminate.
  split; [split; [exact sample_listing | exact NE]|].
  exact (listing_all_or_nothing _ _ _ _ sample_listing NE).
Defined.

Lemma records_of_functional (response : json) (records records' : list json) :
  records_of response records -> records_of response records' -> records = records'.
Proof.
  intros (l & G & I) (l' & G' & I'). congruence.
Qed.

(** X26.  A list that is not empty is complete: every recording that the
    service gave for one of the conference records, and that is in state
    [FILE_GENERATED] with a drive destination and a file identifier that
    are truthy, has a record in the list. *)
Theorem listing_complete (build_service : outcome unit)
  (list_conference_records : outcome json)
  (list_recordings : nat -> json -> outcome json)
  (recs : list listed_recording) (response : json) (records : list json)
  (parent recording : json) :
  snd (list_meet_recordings build_service list_conference_records list_recordings)
  = Returns recs ->
  recs <> [] ->
  list_conference_records = Returns response ->
  records_of response records ->
  given_by list_recordings records parent recording ->
  qualifies recording ->
  exists e, In e recs /\ describes parent recording e.
Proof.
  intros E NE R Ro (i & record & body & items & Hi & Gn & Gb & Rb & Hin) Q.
  destruct (list_meet_recordings_nonempty _ _ _ _ E NE)
    as (response' & records' & R' & Ro' & L).
  assert (response' = response) by congruence. subst response'.
  rewrite (records_of_functional _ _ _ Ro' Ro) in L.
  destruct (records_loop_complete list_recordings records 0 [] recs L) as (_ & Cov).
  exact (Cov i record parent body items recording Hi Gn Gb Rb Hin Q).
Qed.

Lemma listing_complete_witness :
  let recording := sample_recording "r1" "FILE_GENERATED" "f1" in
  let records := [JObj [(lit "name", sample_parent)]] in
  (snd (list_meet_recordings (Returns tt) (Returns sample_records) sample_service)
   = Returns [sample_listed]
   /\ [sample_listed] <> []
   /\ records_of sample_records records
   /\ given_by sample_service records sample_parent recording
   /\ qualifies recording)
  /\ exists e, In e [sample_listed] /\ describes sample_parent recording e.
Proof.
  intros recording records.
  assert (NE : [sample_listed] <> []) by discriminate.
  assert (Ro : records_of sample_records records).
  { eexists. split; vm_compute; reflexivity. }
  assert (G : given_by sample_service records sample_parent recording).
  { exists 0%nat. eexists. eexists. eexists.
    split; [reflexivity|]. split; [vm_compute; reflexivity|].
    split; [reflexivity|]. split.
    - eexists. split; vm_compute; reflexivity.
    - left. reflexivity. }
  assert (Q : qualifies recording).
  { split; [vm_compute; reflexivity|]. eexists. eexists.
    split; [vm_compute; reflexivity|]. split; [reflexivity|].
    split; vm_compute; reflexivity. }
  split; [exact (conj sample_listing (conj NE (conj Ro (conj G Q))))|].
  exact (listing_complete _ _ _ _ _ _ _ _ sample_listing NE eq_refl Ro G Q).
Defined.
